(** * Music sphere: the fetch, aggregate and embed pipeline

    A shallow embedding of the library-sync pipeline of the music-sphere
    application and the properties established about it.

    Conventions of the embedding.
    - JavaScript numbers that carry measurements (audio features, sphere
      coordinates) are real numbers; IEEE rounding, NaN and the infinities
      are not represented on that side.
    - Where the rounding or the overflow of double-precision arithmetic
      decides what the code does (the product [seconds * 1000] of the
      retry-after header, the standardization of a feature column), the
      numbers are IEEE 754 binary64 values ([Binary64]).
    - Numbers that the fetch client tests with [Number.isFinite] are a
      tagged type ([Num]): NaN, the two infinities, or the exact value of
      a finite number.
    - Millisecond clock readings and delays are integers.
    - Strings are sequences of 8-bit code units ([string]); [charCodeAt]
      is the code of the character.
    - The network, the clock and [Math.random] are explicit inputs
      ([Env], [World]); asynchronous functions thread the [World]. *)

From Stdlib Require Import Reals Lra Lia ZArith QArith Qround Qminmax Ascii String
  List Sorted.
From Stdlib Require SpecFloat.
From stdpp Require Import gmap strings list pretty.
Import ListNotations.

(** ** JavaScript values used by the program *)

Module Js.

(** A number whose finiteness the code inspects. *)
Inductive Num : Type :=
| NaN
| Infinity (negative : bool)
| Fin (q : Q).

Definition isFinite (n : Num) : bool :=
  match n with Fin _ => true | _ => false end.

(** [ToInt32] and [ToUint32] on an integer-valued number. *)
Definition toInt32 (z : Z) : Z := ((z + 2 ^ 31) mod 2 ^ 32 - 2 ^ 31)%Z.
Definition toUint32 (z : Z) : Z := (z mod 2 ^ 32)%Z.

(** [a ^ b] on numbers: both operands go through [ToInt32]. *)
Definition xor32 (a b : Z) : Z := toInt32 (Z.lxor (toInt32 a) (toInt32 b)).

(** [Math.imul]. *)
Definition imul (a b : Z) : Z := toInt32 (toInt32 a * toInt32 b).

Definition charCode (c : ascii) : Z := Z.of_nat (nat_of_ascii c).

(** [Math.floor] and [Math.ceil] on reals, as integers. *)
Definition floor (x : R) : Z := Int_part x.
Definition ceil (x : R) : Z := (- Int_part (- x))%Z.

(** [Math.trunc] on rationals ([ToIntegerOrInfinity] of a finite number). *)
Definition Qtrunc (q : Q) : Z :=
  if Qle_bool 0 q then Qfloor q else Qceiling q.

(** [array.slice(0, end)] for a finite [end]: a negative [end] counts from
    the back of the array. *)
Definition slice0 {T} (array : list T) (end_ : Q) : list T :=
  let e := Qtrunc end_ in
  if (e <? 0)%Z then firstn (Z.to_nat (Z.of_nat (length array) + e)) array
  else firstn (Z.to_nat e) array.

(** [array.slice(start, end)] for indices inside the non-negative range. *)
Definition slice {T} (array : list T) (start end_ : nat) : list T :=
  firstn (end_ - start) (skipn start array).

(** [haystack.includes(needle)]. *)
Fixpoint includes (needle haystack : string) : bool :=
  if String.prefix needle haystack then true
  else match haystack with
       | EmptyString => false
       | String _ rest => includes needle rest
       end.

(** [Map<string, V>]: iteration follows insertion order, and setting a key
    that is present keeps its place. *)
Definition OrderedMap (V : Type) : Type := list (string * V).

Fixpoint map_set {V} (k : string) (v : V) (m : OrderedMap V) : OrderedMap V :=
  match m with
  | [] => [(k, v)]
  | (k', v') :: rest =>
      if String.eqb k k' then (k, v) :: rest else (k', v') :: map_set k v rest
  end.

Fixpoint map_get {V} (k : string) (m : OrderedMap V) : option V :=
  match m with
  | [] => None
  | (k', v') :: rest => if String.eqb k k' then Some v' else map_get k rest
  end.

Definition map_keys {V} (m : OrderedMap V) : list string := map fst m.
Definition map_values {V} (m : OrderedMap V) : list V := map snd m.

End Js.

(** ** Double-precision numbers

    IEEE 754 binary64 values with the operations of the Standard
    Library's specification of floating-point arithmetic (round to nearest,
    ties to even), at precision 53 and maximal exponent 1024. *)

Module Binary64.
Import SpecFloat.

Definition prec : Z := 53.
Definition emax : Z := 1024.

Definition t : Type := spec_float.

Definition nan : t := S754_nan.
Definition zero : t := S754_zero false.

(** The number nearest to an integer. *)
Definition ofZ (z : Z) : t := binary_normalize prec emax z 0 false.

Definition add : t -> t -> t := SFadd prec emax.
Definition sub : t -> t -> t := SFsub prec emax.
Definition mul : t -> t -> t := SFmul prec emax.
Definition div : t -> t -> t := SFdiv prec emax.
Definition sqrt : t -> t := SFsqrt prec emax.

(** The number nearest to [n / d], for integers that are numbers
    themselves: how a decimal literal such as [0.02] (2 / 100) is read. *)
Definition ratio (n d : Z) : t := div (ofZ n) (ofZ d).

(** [Number.isFinite]. *)
Definition isFinite (x : t) : bool :=
  match x with
  | S754_zero _ | S754_finite _ _ _ => true
  | _ => false
  end.

(** [x <= y]: false when an operand is NaN. *)
Definition leb : t -> t -> bool := SFleb.

(** The exact value of a finite number; both zeros have value 0. *)
Definition value (x : t) : Q :=
  match x with
  | S754_finite s m e =>
      let magnitude :=
        if (0 <=? e)%Z then inject_Z (Zpos m * 2 ^ e)
        else Zpos m # Z.to_pos (2 ^ (- e)) in
      if s then (- magnitude)%Q else magnitude
  | _ => 0%Q
  end.

Definition toNum (x : t) : Js.Num :=
  match x with
  | S754_nan => Js.NaN
  | S754_infinity s => Js.Infinity s
  | _ => Js.Fin (value x)
  end.

(** [Math.min] and [Math.max] of two numbers: NaN when an operand is
    NaN, and -0 is below +0. *)
Definition min (x y : t) : t :=
  match SFcompare x y with
  | None => nan
  | Some Lt => x
  | Some Gt => y
  | Some Eq => match x with S754_zero true => x | _ => y end
  end.

Definition max (x y : t) : t :=
  match SFcompare x y with
  | None => nan
  | Some Lt => y
  | Some Gt => x
  | Some Eq => match x with S754_zero false => x | _ => y end
  end.

(** Truthiness of a number: 0, -0 and NaN are falsy. *)
Definition truthy (x : t) : bool :=
  match x with
  | S754_zero _ | S754_nan => false
  | _ => true
  end.

End Binary64.

(** ** src/lib/types.ts *)

Module Features.
(** [TrackAudioFeatures]. *)
Record t : Type := mk {
  id : string;
  danceability : R;
  energy : R;
  key : R;
  loudness : R;
  mode : R;
  speechiness : R;
  acousticness : R;
  instrumentalness : R;
  liveness : R;
  valence : R;
  tempo : R;
  time_signature : R
}.
End Features.

Module RawTrack.
Record t : Type := mk {
  id : string;
  name : string;
  uri : option string;
  artists : list string;
  albumName : string;
  albumArtUrl : option string;
  externalUrl : option string;
  previewUrl : option string
}.
End RawTrack.

(** A [[number, number, number]] tuple. *)
Definition Vec3 : Type := (R * R * R)%type.

Definition vec3_list (p : Vec3) : list R :=
  let '(x, y, z) := p in [x; y; z].

Module SphereTrack.
Record t : Type := mk {
  id : string;
  name : string;
  uri : option string;
  artists : list string;
  albumName : string;
  albumArtUrl : option string;
  externalUrl : option string;
  previewUrl : option string;
  features : Features.t;
  vector : list R;
  position : Vec3
}.
End SphereTrack.

Record SemanticAxes : Type := {
  axis_energy : Vec3;
  axis_tempo : Vec3;
  axis_valence : Vec3;
  axis_acousticness : Vec3
}.

Record SpherePayload : Type := {
  generatedAt : string;
  trackCount : nat;
  tracks : list SphereTrack.t;
  semanticAxes : SemanticAxes
}.

(** ** The embedding module (createSpherePayload and its helpers) *)

Module Embedding.
Local Open Scope R_scope.

Inductive FeatureKey : Type :=
| Energy | Tempo | Valence | Danceability
| Acousticness | Instrumentalness | Speechiness | Liveness.

Definition FEATURE_KEYS : list FeatureKey :=
  [Energy; Tempo; Valence; Danceability;
   Acousticness; Instrumentalness; Speechiness; Liveness].

(** [f[key]]. *)
Definition feature (k : FeatureKey) (f : Features.t) : R :=
  match k with
  | Energy => Features.energy f
  | Tempo => Features.tempo f
  | Valence => Features.valence f
  | Danceability => Features.danceability f
  | Acousticness => Features.acousticness f
  | Instrumentalness => Features.instrumentalness f
  | Speechiness => Features.speechiness f
  | Liveness => Features.liveness f
  end.

Definition isTempo (k : FeatureKey) : bool :=
  match k with Tempo => true | _ => false end.

(** [a.reduce((sum, value, index) => sum + value * b[index], 0)].  Every
    caller modelled here passes two vectors of the same length; a missing
    [b[index]] reads as 0. *)
Fixpoint dot_from (index : nat) (sum : R) (a b : list R) : R :=
  match a with
  | [] => sum
  | value :: a' => dot_from (S index) (sum + value * nth index b 0) a' b
  end.

Definition dot (a b : list R) : R := dot_from 0 0 a b.

Definition magnitude (vector : list R) : R := sqrt (dot vector vector).

Definition normalize (vector : list R) : list R :=
  let mag := magnitude vector in
  if Req_dec_T mag 0 then map (fun _ => 0) vector
  else map (fun value => value / mag) vector.

(** [[...values].sort((a, b) => a - b)]: ascending numeric order. *)
Fixpoint insert_ascending (x : R) (l : list R) : list R :=
  match l with
  | [] => [x]
  | y :: l' => if Rle_dec x y then x :: l else y :: insert_ascending x l'
  end.

Definition sort_ascending (values : list R) : list R :=
  fold_right insert_ascending [] values.

Definition percentile (sorted : list R) (p : R) : R :=
  match sorted with
  | [] => 0
  | _ =>
      let index := (INR (length sorted) - 1) * p in
      let lower := Js.floor index in
      let upper := Js.ceil index in
      if (lower =? upper)%Z then nth (Z.to_nat lower) sorted 0
      else
        let weight := index - IZR lower in
        nth (Z.to_nat lower) sorted 0 * (1 - weight)
        + nth (Z.to_nat upper) sorted 0 * weight
  end.


Definition clamp (value min max : R) : R := Rmax min (Rmin max value).

(** [Math.sqrt(variance) || 1]. *)
Definition sd_or_1 (variance : R) : R :=
  if Req_dec_T (sqrt variance) 0 then 1 else sqrt variance.

(** The per-key closure of [buildFeatureMatrix] follows, in exact
    arithmetic.  The sums and quotients of the code are rounded, which
    matters for a column of equal values: see [Embedding64] for the same
    closure over double-precision numbers. *)

(** The raw values of one column: tempo is divided by 220. *)
Definition column_values (k : FeatureKey) (features : list Features.t) : list R :=
  map (fun f => if isTempo k then Features.tempo f / 220 else feature k f) features.

Definition column_low (values : list R) : R :=
  percentile (sort_ascending values) 0.02.

Definition column_high (values : list R) : R :=
  percentile (sort_ascending values) 0.98.

Definition column_clamped (values : list R) : list R :=
  map (fun v => clamp v (column_low values) (column_high values)) values.

Definition column_mean (clamped : list R) : R :=
  fold_left (fun sum v => sum + v) clamped 0 / Rmax (INR (length clamped)) 1.

Definition column_variance (clamped : list R) : R :=
  let mean := column_mean clamped in
  fold_left (fun sum v => sum + (v - mean) ^ 2) clamped 0
  / Rmax (INR (length clamped) - 1) 1.

(** The body of the per-key closure of [buildFeatureMatrix]. *)
Definition standardized_column (k : FeatureKey) (features : list Features.t)
  : list R :=
  let values := column_values k features in
  let clamped := column_clamped values in
  let mean := column_mean clamped in
  let sd := sd_or_1 (column_variance clamped) in
  map (fun v => (v - mean) / sd) clamped.

Definition buildFeatureMatrix (features : list Features.t) : list (list R) :=
  let columns := map (fun k => standardized_column k features) FEATURE_KEYS in
  imap (fun rowIndex _ => map (fun column => nth rowIndex column 0) columns)
       features.

Definition vectorToTuple3 (vector : list R) : Vec3 :=
  (nth 0 vector 0, nth 1 vector 0, nth 2 vector 0).

Definition simplePositionFromEnergyValence (features : Features.t) : Vec3 :=
  let x := (Features.valence features * 2 - 1) * 0.92 in
  let y := (Features.energy features * 2 - 1) * 0.92 in
  let maxRadius := 0.96 in
  let radius := sqrt (x * x + y * y) in
  let '(x, y) :=
    if Rlt_dec maxRadius radius
    then let scale := maxRadius / radius in (x * scale, y * scale)
    else (x, y) in
  let z := sqrt (Rmax 0 (1 - x * x - y * y)) in
  (x, y, z).

Definition seededUnit (seed : R) : R :=
  let x := sin seed * 10000 in
  x - IZR (Js.floor x).

Fixpoint hash_loop (input : string) (hash : Z) : Z :=
  match input with
  | EmptyString => hash
  | String c rest =>
      hash_loop rest (Js.imul (Js.xor32 hash (Js.charCode c)) 16777619)
  end.

Definition hashString (input : string) : Z :=
  Js.toUint32 (hash_loop input 2166136261).

(** [`${track.id}:${track.name}:${track.artists.join(",")}`]. *)
Definition identity_string (track : RawTrack.t) : string :=
  (RawTrack.id track ++ ":" ++ RawTrack.name track ++ ":"
   ++ String.concat "," (RawTrack.artists track))%string.

Definition fallbackFeaturesFromTrack (track : RawTrack.t) : Features.t :=
  let base := hashString (identity_string track) in
  let u (offset : Z) := seededUnit (IZR (base + offset)) in
  let u1 := u 11%Z in
  let u2 := u 23%Z in
  let u3 := u 37%Z in
  let u4 := u 53%Z in
  let u5 := u 71%Z in
  let u6 := u 89%Z in
  let u7 := u 101%Z in
  let u8 := u 131%Z in
  {| Features.id := RawTrack.id track;
     Features.danceability := u1;
     Features.energy := u2;
     Features.key := IZR (Js.floor (u3 * 12));
     Features.loudness := -60 + u4 * 60;
     Features.mode := if Rlt_dec 0.5 u5 then 1 else 0;
     Features.speechiness := u6;
     Features.acousticness := u7;
     Features.instrumentalness := u8;
     Features.liveness := u 149%Z;
     Features.valence := u 167%Z;
     Features.tempo := 70 + u 191%Z * 110;
     Features.time_signature := 4 |}.

(** Every caller passes [index < total].  For [index >= max(total, 1)]
    the argument of [Math.acos] is below -1 and the code yields NaN
    coordinates, which this real-valued definition does not represent. *)
Definition fibonacciSpherePoint (index total : nat) : Vec3 :=
  let n := Rmax (INR total) 1 in
  let i := INR index + 0.5 in
  let phi := acos (1 - (2 * i) / n) in
  let theta := PI * (1 + sqrt 5) * i in
  let x := cos theta * sin phi in
  let y := sin theta * sin phi in
  let z := cos phi in
  (x, y, z).

(** The parametrization as the specification states it, for index [i] of
    [n] points. *)
Definition fibonacci_formula (i n : nat) : Vec3 :=
  let phi := acos (1 - 2 * (INR i + 0.5) / INR n) in
  let theta := PI * (1 + sqrt 5) * (INR i + 0.5) in
  (cos theta * sin phi, sin theta * sin phi, cos phi).

Definition zero_count (rawPositions : list (list R)) : nat :=
  fold_left
    (fun zeroCount pos =>
       if Rlt_dec (magnitude pos) 1e-6 then S zeroCount else zeroCount)
    rawPositions 0%nat.

Definition mostlyCollapsed (rawPositions : list (list R)) : bool :=
  if Rlt_dec (INR (length rawPositions) * 0.3) (INR (zero_count rawPositions))
  then true else false.

Definition fibonacci_layout {T} (l : list T) : list Vec3 :=
  imap (fun index _ => fibonacciSpherePoint index (length l)) l.

Definition ensureVisiblePositions (rawPositions : list (list R)) : list Vec3 :=
  if mostlyCollapsed rawPositions then fibonacci_layout rawPositions
  else
    let normalized :=
      imap (fun index pos =>
              if Rlt_dec (magnitude pos) 1e-6
              then fibonacciSpherePoint index (length rawPositions)
              else vectorToTuple3 (normalize pos))
           rawPositions in
    let count := Rmax (INR (length normalized)) 1 in
    let '(sx, sy, sz) :=
      fold_left
        (fun (acc : Vec3) (p : Vec3) =>
           let '(a0, a1, a2) := acc in
           let '(p0, p1, p2) := p in
           (a0 + p0, a1 + p1, a2 + p2))
        normalized (0, 0, 0) in
    let centroid : Vec3 := (sx / count, sy / count, sz / count) in
    let avgDist :=
      fold_left
        (fun sum (p : Vec3) =>
           let '(p0, p1, p2) := p in
           let '(c0, c1, c2) := centroid in
           let dx := p0 - c0 in
           let dy := p1 - c1 in
           let dz := p2 - c2 in
           sum + sqrt (dx * dx + dy * dy + dz * dz))
        normalized 0 / count in
    if Rlt_dec avgDist 0.22 then fibonacci_layout normalized
    else normalized.

Definition empty_axes : SemanticAxes :=
  {| axis_energy := (0, 1, 0);
     axis_tempo := (1, 0, 0);
     axis_valence := (0, 0, 1);
     axis_acousticness := (-1, 0, 0) |}.

Definition fixed_axes : SemanticAxes :=
  {| axis_energy := (0, 1, 0);
     axis_tempo := (0, 0, 1);
     axis_valence := (1, 0, 0);
     axis_acousticness := (-1, 0, 0) |}.

(** [rawTracks.map(...)]: the features of the map, or the synthesized
    ones; the [Boolean] filter that follows keeps every pair. *)
Definition merge_features (rawTracks : list RawTrack.t)
    (featureMap : gmap string Features.t) : list (RawTrack.t * Features.t) :=
  filter (fun _ => True)
    (map (fun track =>
            (track,
             default (fallbackFeaturesFromTrack track)
                     (featureMap !! RawTrack.id track)))
         rawTracks).

(** [now] is the reading of [new Date().toISOString()]. *)
Definition createSpherePayload (now : string) (rawTracks : list RawTrack.t)
    (featureMap : gmap string Features.t) : SpherePayload :=
  let merged := merge_features rawTracks featureMap in
  match merged with
  | [] =>
      {| generatedAt := now;
         trackCount := 0;
         tracks := [];
         semanticAxes := empty_axes |}
  | _ =>
      let featureMatrix := buildFeatureMatrix (map snd merged) in
      let positions :=
        map (fun item => simplePositionFromEnergyValence (snd item)) merged in
      let tracks :=
        imap (fun index (item : RawTrack.t * Features.t) =>
                {| SphereTrack.id := RawTrack.id (fst item);
                   SphereTrack.name := RawTrack.name (fst item);
                   SphereTrack.uri := RawTrack.uri (fst item);
                   SphereTrack.artists := RawTrack.artists (fst item);
                   SphereTrack.albumName := RawTrack.albumName (fst item);
                   SphereTrack.albumArtUrl := RawTrack.albumArtUrl (fst item);
                   SphereTrack.externalUrl := RawTrack.externalUrl (fst item);
                   SphereTrack.previewUrl := RawTrack.previewUrl (fst item);
                   SphereTrack.features := snd item;
                   SphereTrack.vector := nth index featureMatrix [];
                   SphereTrack.position := nth index positions (0, 0, 0) |})
             merged in
      {| generatedAt := now;
         trackCount := length tracks;
         tracks := tracks;
         semanticAxes := fixed_axes |}
  end.

(** Sample data used to exercise the definitions. *)
Definition sample_track : RawTrack.t :=
  {| RawTrack.id := "t1"; RawTrack.name := "Song"; RawTrack.uri := None;
     RawTrack.artists := ["Ann"; "Bob"]; RawTrack.albumName := "Album";
     RawTrack.albumArtUrl := None; RawTrack.externalUrl := None;
     RawTrack.previewUrl := None |}.

Definition sample_track_other_album : RawTrack.t :=
  {| RawTrack.id := "t1"; RawTrack.name := "Song";
     RawTrack.uri := Some "spotify:track:t1";
     RawTrack.artists := ["Ann"; "Bob"]; RawTrack.albumName := "";
     RawTrack.albumArtUrl := None; RawTrack.externalUrl := None;
     RawTrack.previewUrl := None |}.

Definition centred_features : Features.t :=
  {| Features.id := "t1"; Features.danceability := 0.5;
     Features.energy := 0.5; Features.key := 0; Features.loudness := -10;
     Features.mode := 1; Features.speechiness := 0.5;
     Features.acousticness := 0.5; Features.instrumentalness := 0.5;
     Features.liveness := 0.5; Features.valence := 0.5;
     Features.tempo := 120; Features.time_signature := 4 |}.

End Embedding.

(** ** Feature standardization in double precision

    [percentile], [clamp] and [buildFeatureMatrix] once more, over binary64
    numbers: every sum, product, quotient and square root is rounded as
    the engine rounds it. *)

Module Features64.
(** [TrackAudioFeatures], its numbers in double precision. *)
Record t : Type := mk {
  id : string;
  danceability : Binary64.t;
  energy : Binary64.t;
  key : Binary64.t;
  loudness : Binary64.t;
  mode : Binary64.t;
  speechiness : Binary64.t;
  acousticness : Binary64.t;
  instrumentalness : Binary64.t;
  liveness : Binary64.t;
  valence : Binary64.t;
  tempo : Binary64.t;
  time_signature : Binary64.t
}.
End Features64.

Module Embedding64.
Import Embedding.

(** [f[key]]. *)
Definition feature (k : FeatureKey) (f : Features64.t) : Binary64.t :=
  match k with
  | Energy => Features64.energy f
  | Tempo => Features64.tempo f
  | Valence => Features64.valence f
  | Danceability => Features64.danceability f
  | Acousticness => Features64.acousticness f
  | Instrumentalness => Features64.instrumentalness f
  | Speechiness => Features64.speechiness f
  | Liveness => Features64.liveness f
  end.

(** [[...values].sort((a, b) => a - b)]: ascending order, for values
    that are not NaN. *)
Fixpoint insert_ascending (x : Binary64.t) (l : list Binary64.t)
  : list Binary64.t :=
  match l with
  | [] => [x]
  | y :: l' => if Binary64.leb x y then x :: l else y :: insert_ascending x l'
  end.

Definition sort_ascending (values : list Binary64.t) : list Binary64.t :=
  fold_right insert_ascending [] values.

(** [percentile(sorted, p)], for a finite [p]: [Math.floor] and
    [Math.ceil] of the index are taken on its exact value.  Reading the
    array out of range gives [undefined], NaN in arithmetic. *)
Definition percentile (sorted : list Binary64.t) (p : Binary64.t)
  : Binary64.t :=
  match sorted with
  | [] => Binary64.zero
  | _ =>
      let index :=
        Binary64.mul (Binary64.ofZ (Z.of_nat (length sorted) - 1)) p in
      let lower := Qfloor (Binary64.value index) in
      let upper := Qceiling (Binary64.value index) in
      if (lower =? upper)%Z then nth (Z.to_nat lower) sorted Binary64.nan
      else
        let weight := Binary64.sub index (Binary64.ofZ lower) in
        Binary64.add
          (Binary64.mul (nth (Z.to_nat lower) sorted Binary64.nan)
                        (Binary64.sub (Binary64.ofZ 1) weight))
          (Binary64.mul (nth (Z.to_nat upper) sorted Binary64.nan) weight)
  end.

Definition clamp (value min max : Binary64.t) : Binary64.t :=
  Binary64.max min (Binary64.min max value).

(** [Math.sqrt(variance) || 1]: the fallback is taken when the root is
    0, -0 or NaN. *)
Definition sd_or_1 (variance : Binary64.t) : Binary64.t :=
  let sd := Binary64.sqrt variance in
  if Binary64.truthy sd then sd else Binary64.ofZ 1.

(** The raw values of one column: tempo is divided by 220. *)
Definition column_values (k : FeatureKey) (features : list Features64.t)
  : list Binary64.t :=
  map (fun f =>
         if isTempo k
         then Binary64.div (Features64.tempo f) (Binary64.ofZ 220)
         else feature k f)
      features.

(** The literals [0.02] and [0.98] are the numbers nearest to 2/100 and
    98/100. *)
Definition column_low (values : list Binary64.t) : Binary64.t :=
  percentile (sort_ascending values) (Binary64.ratio 2 100).

Definition column_high (values : list Binary64.t) : Binary64.t :=
  percentile (sort_ascending values) (Binary64.ratio 98 100).

Definition column_clamped (values : list Binary64.t) : list Binary64.t :=
  map (fun v => clamp v (column_low values) (column_high values)) values.

(** [clamped.reduce((sum, v) => sum + v, 0) / Math.max(clamped.length, 1)]. *)
Definition column_mean (clamped : list Binary64.t) : Binary64.t :=
  Binary64.div
    (fold_left (fun sum v => Binary64.add sum v) clamped Binary64.zero)
    (Binary64.ofZ (Z.max (Z.of_nat (length clamped)) 1)).

(** [(v - mean) ** 2] is the rounded square of the difference. *)
Definition column_variance (clamped : list Binary64.t) : Binary64.t :=
  let mean := column_mean clamped in
  Binary64.div
    (fold_left
       (fun sum v =>
          Binary64.add sum
            (Binary64.mul (Binary64.sub v mean) (Binary64.sub v mean)))
       clamped Binary64.zero)
    (Binary64.ofZ (Z.max (Z.of_nat (length clamped) - 1) 1)).

(** The body of the per-key closure of [buildFeatureMatrix]. *)
Definition standardized_column (k : FeatureKey) (features : list Features64.t)
  : list Binary64.t :=
  let values := column_values k features in
  let clamped := column_clamped values in
  let mean := column_mean clamped in
  let sd := sd_or_1 (column_variance clamped) in
  map (fun v => Binary64.div (Binary64.sub v mean) sd) clamped.

Definition buildFeatureMatrix (features : list Features64.t)
  : list (list Binary64.t) :=
  let columns := map (fun k => standardized_column k features) FEATURE_KEYS in
  imap (fun rowIndex _ =>
          map (fun column => nth rowIndex column Binary64.nan) columns)
       features.

(** Sample data: a track whose energy is 0.1. *)
Definition quiet_track (id : string) : Features64.t :=
  {| Features64.id := id;
     Features64.danceability := Binary64.ratio 5 10;
     Features64.energy := Binary64.ratio 1 10;
     Features64.key := Binary64.ofZ 0;
     Features64.loudness := Binary64.ofZ (-10);
     Features64.mode := Binary64.ofZ 1;
     Features64.speechiness := Binary64.ratio 5 10;
     Features64.acousticness := Binary64.ratio 5 10;
     Features64.instrumentalness := Binary64.ratio 5 10;
     Features64.liveness := Binary64.ratio 5 10;
     Features64.valence := Binary64.ratio 5 10;
     Features64.tempo := Binary64.ofZ 120;
     Features64.time_signature := Binary64.ofZ 4 |}.

Definition three_quiet_tracks : list Features64.t :=
  [quiet_track "a"; quiet_track "b"; quiet_track "c"].

End Embedding64.

(** ** Shapes of the Spotify Web API responses *)

Module Api.

Record Album : Type := {
  album_name : option string;
  images : option (list string)   (* the [url] of each image *)
}.

(** [SpotifyTrackObject]; a missing [id] reads as the empty string. *)
Record SpotifyTrackObject : Type := {
  id : string;
  name : string;
  uri : option string;
  artists : option (list string);   (* the [name] of each artist *)
  album : option Album;
  external_urls : option string;    (* [external_urls?.spotify] *)
  preview_url : option string
}.

(** [LikedTrackItem] and [RecentlyPlayedItem]. *)
Record TrackItem : Type := { track : option SpotifyTrackObject }.

(** [SavedAlbumItem]: [album_tracks] is [album?.tracks?.items]. *)
Record SavedAlbumItem : Type := {
  album_tracks : option (list (option SpotifyTrackObject))
}.

(** [SpotifyPaging<T>]. *)
Record Paging (T : Type) : Type := { items : list T; next : option string }.
Arguments items {T} _.
Arguments next {T} _.

(** What [response.json()] resolves to, or the message it rejects with. *)
Inductive Body : Type :=
| TracksPage (page : Paging TrackItem)
| AlbumsPage (page : Paging SavedAlbumItem)
| AudioFeatures (audio_features : list (option Features.t))
| OtherJson
| Unparsable (message : string).

End Api.

(** ** The runtime: responses, the clock, the network *)

Module Runtime.

Record Response : Type := {
  status : Z;
  retryAfter : option string;   (* [headers.get("retry-after")] *)
  text : string;
  body : Api.Body
}.

(** [response.ok]. *)
Definition ok (response : Response) : bool :=
  ((200 <=? status response) && (status response <=? 299))%Z.

(** What one [fetch] call meets: the time it takes and either a response
    or the message of the error it rejects with (network failure, abort
    by the request timeout). *)
Record NetReply : Type := {
  elapsed : N;
  reply : Response + string
}.

(** Built-ins and the outside world.  [fetch_reply n url authorization] is
    what the [n]-th outbound request meets. *)
Record Env : Type := {
  Number : string -> Binary64.t;
  numberToString : Q -> string;
  encodeURIComponent : string -> string;
  random : nat -> Q;
  fetch_reply : nat -> string -> string -> NetReply
}.

(** The mutable state: the clock [Date.now()], the module variable
    [spotifyRateLimitedUntil] and the number of requests issued. *)
Record World : Type := {
  now : Z;
  spotifyRateLimitedUntil : Z;
  requests : nat
}.

Definition set_rateLimitedUntil (until : Z) (w : World) : World :=
  {| now := now w; spotifyRateLimitedUntil := until; requests := requests w |}.

(** How an asynchronous call settles.  [Unfinished]: the step budget of a
    loop of the model ran out first. *)
Inductive Outcome (A : Type) : Type :=
| Returned (a : A)
| Threw (message : string)
| Unfinished.
Arguments Returned {A} _.
Arguments Threw {A} _.
Arguments Unfinished {A}.

Definition Async (A : Type) : Type := World -> Outcome A * World.

(** [sleep(ms)]. *)
Definition sleep (ms : Z) (w : World) : World :=
  {| now := now w + Z.max 0 ms;
     spotifyRateLimitedUntil := spotifyRateLimitedUntil w;
     requests := requests w |}.

(** [fetch(url, init)]: [init] carries the Authorization header. *)
Definition fetch (env : Env) (url authorization : string) (w : World)
  : (Response + string) * World :=
  let r := fetch_reply env (requests w) url authorization in
  (reply r,
   {| now := now w + Z.of_N (elapsed r);
      spotifyRateLimitedUntil := spotifyRateLimitedUntil w;
      requests := S (requests w) |}).

End Runtime.

(** ** src/lib/http.ts *)

Module Http.
Import Runtime.

(** [decode] stands for the cast [(await response.json()) as T]. *)
Definition safeJson {T} (decode : Api.Body -> Outcome T) (response : Response)
  : Outcome T :=
  if negb (ok response)
  then Threw ("HTTP " ++ pretty (status response) ++ ": " ++ text response)%string
  else decode (body response).

(** The loop of [chunks]; [None] when it does not end within [fuel]
    iterations (it never ends when [size] is 0). *)
Fixpoint chunks_loop {T} (fuel : nat) (array : list T) (size i : nat)
    (output : list (list T)) : option (list (list T)) :=
  if (i <? length array)%nat then
    match fuel with
    | O => None
    | S fuel' =>
        chunks_loop fuel' array size (i + size)
                    (output ++ [Js.slice array i (i + size)])
    end
  else Some output.

Definition chunks {T} (array : list T) (size : nat) : option (list (list T)) :=
  chunks_loop (length array) array size 0 [].

End Http.

(** ** The Spotify client (fetchWithRetry, fetchUserTracks,
       fetchAudioFeatures) *)

Module Spotify.
Import Runtime.
Local Open Scope Z_scope.

Definition SPOTIFY_API_URL : string := "https://api.spotify.com/v1".
Definition MAX_RETRIES : Z := 1.
Definition REQUEST_TIMEOUT_MS : Z := 25000.
Definition DEFAULT_RATE_LIMIT_DELAY_MS : Z := 20000.
Definition MAX_RATE_LIMIT_DELAY_MS : Z := 180000.

Record FetchUserTracksOptions : Type := {
  limit : Q;
  includeLikedSongs : option bool;
  includeSavedAlbums : option bool;
  includeRecentlyPlayed : option bool
  (* the optional [onProgress] observer is absent *)
}.

(** [if (retryAfter)]: the header is present and not empty. *)
Definition truthy (s : option string) : option string :=
  match s with
  | Some EmptyString => None
  | other => other
  end.

(** [Number.isFinite(seconds) && seconds >= 0], giving the seconds. *)
Definition valid_seconds (env : Env) (response : Response)
  : option Binary64.t :=
  match truthy (retryAfter response) with
  | Some header =>
      let seconds := Number env header in
      if Binary64.isFinite seconds && Binary64.leb Binary64.zero seconds
      then Some seconds else None
  | None => None
  end.

(** [seconds * 1000], a double-precision product: it is rounded, and it
    is [Infinity] when it exceeds the largest number. *)
Definition milliseconds (seconds : Binary64.t) : Js.Num :=
  Binary64.toNum (Binary64.mul seconds (Binary64.ofZ 1000)).

(** With a usable header the result is
    [Math.min(MAX_RATE_LIMIT_DELAY_MS, Math.ceil(seconds * 1000))].  The
    product of seconds that passed [seconds >= 0] is neither NaN nor
    negative; such a delay would be no delay for [sleep]. *)
Definition retryDelayMs (env : Env) (response : Response) (attempt : Z)
    (w : World) : Z :=
  match valid_seconds env response with
  | Some seconds =>
      match milliseconds seconds with
      | Js.Fin ms => Z.min MAX_RATE_LIMIT_DELAY_MS (Qceiling ms)
      | Js.Infinity false => MAX_RATE_LIMIT_DELAY_MS
      | _ => 0
      end
  | None =>
      let base := 500 in
      let backoff := base * 2 ^ attempt in
      let jitter := Qfloor (random env (requests w) * 250) in
      Z.min 3500 (backoff + jitter)
  end.

Definition clampRateLimitDelayMs (value : Js.Num) : Z :=
  match value with
  | Js.Fin v =>
      if Qle_bool v 0 then DEFAULT_RATE_LIMIT_DELAY_MS
      else Z.max 1000 (Z.min MAX_RATE_LIMIT_DELAY_MS (Qceiling v))
  | _ => DEFAULT_RATE_LIMIT_DELAY_MS
  end.

(** [remaining] is an integer, so [Number.isFinite(remaining)] holds. *)
Definition normalizeRateLimitRemainingMs (w : World) : Z * World :=
  let remaining := spotifyRateLimitedUntil w - now w in
  if remaining <=? 0 then (0, set_rateLimitedUntil 0 w)
  else
    let clamped := Z.min MAX_RATE_LIMIT_DELAY_MS remaining in
    (clamped, set_rateLimitedUntil (now w + clamped) w).

Definition rateLimitDelayMs (env : Env) (response : Response) : Z :=
  match valid_seconds env response with
  | Some seconds => clampRateLimitDelayMs (milliseconds seconds)
  | None => DEFAULT_RATE_LIMIT_DELAY_MS
  end.

(** The branch [if (response.status === 429) { ... }] of [fetchWithRetry]. *)
Definition noteRateLimit (env : Env) (response : Response) (w : World) : World :=
  if status response =? 429 then
    let delay := rateLimitDelayMs env response in
    let '(currentRemaining, w) := normalizeRateLimitRemainingMs w in
    set_rateLimitedUntil (now w + Z.max currentRemaining delay) w
  else w.

(** After the loop of [fetchWithRetry]. *)
Definition afterAttempts (lastResponse : option Response)
    (lastError : option string) (w : World) : Outcome Response * World :=
  match lastError, lastResponse with
  | Some message, _ => (Threw ("Spotify request failed: " ++ message)%string, w)
  | None, Some response => (Returned response, w)
  | None, None => (Threw "TypeError", w)
  end.

(** The loop of [fetchWithRetry], with [remaining] iterations to go. *)
Fixpoint attempts (remaining : nat) (attempt : Z) (env : Env)
    (url authorization : string) (lastResponse : option Response)
    (lastError : option string) (w : World) : Outcome Response * World :=
  match remaining with
  | O => afterAttempts lastResponse lastError w
  | S remaining' =>
      let '(waitMs, w) := normalizeRateLimitRemainingMs w in
      let w := if 0 <? waitMs then sleep waitMs w else w in
      let '(result, w) := fetch env url authorization w in
      match result with
      | inl response =>
          if ok response then (Returned response, set_rateLimitedUntil 0 w)
          else
            let w := noteRateLimit env response w in
            let retryable :=
              (status response =? 429) || (500 <=? status response) in
            if negb retryable || (attempt =? MAX_RETRIES)
            then (Returned response, w)
            else
              let nextDelay :=
                if status response =? 429 then rateLimitDelayMs env response
                else retryDelayMs env response attempt w in
              attempts remaining' (attempt + 1) env url authorization
                       (Some response) lastError (sleep nextDelay w)
      | inr message =>
          if attempt =? MAX_RETRIES
          then afterAttempts lastResponse (Some message) w
          else attempts remaining' (attempt + 1) env url authorization
                        lastResponse (Some message)
                        (sleep (400 + attempt * 250) w)
      end
  end.

Definition fetchWithRetry (env : Env) (url authorization : string)
  : Async Response :=
  attempts (Z.to_nat (MAX_RETRIES + 1)) 0 env url authorization None None.

Definition bearer (accessToken : string) : string :=
  ("Bearer " ++ accessToken)%string.

Definition spotifyFetch {T} (env : Env) (decode : Api.Body -> Outcome T)
    (endpoint accessToken : string) : Async T :=
  fun w =>
    match fetchWithRetry env (SPOTIFY_API_URL ++ endpoint)%string
                         (bearer accessToken) w with
    | (Returned response, w) => (Http.safeJson decode response, w)
    | (Threw message, w) => (Threw message, w)
    | (Unfinished, w) => (Unfinished, w)
    end.

(** The casts of the response body to the type the caller expects; using
    a body of another shape raises a TypeError. *)
Definition asTracksPage (b : Api.Body) : Outcome (Api.Paging Api.TrackItem) :=
  match b with
  | Api.TracksPage page => Returned page
  | Api.Unparsable message => Threw message
  | _ => Threw "TypeError"
  end.

Definition asAlbumsPage (b : Api.Body)
  : Outcome (Api.Paging Api.SavedAlbumItem) :=
  match b with
  | Api.AlbumsPage page => Returned page
  | Api.Unparsable message => Threw message
  | _ => Threw "TypeError"
  end.

Definition asAudioFeatures (b : Api.Body)
  : Outcome (list (option Features.t)) :=
  match b with
  | Api.AudioFeatures audio_features => Returned audio_features
  | Api.Unparsable message => Threw message
  | _ => Threw "TypeError"
  end.

(** The loop of [collectPaged]; [fuel] bounds the number of pages. *)
Fixpoint collectPaged_loop {T} (fuel : nat) (env : Env)
    (decode : Api.Body -> Outcome (Api.Paging T))
    (pathOrUrl : option string) (accessToken : string) (maxItems : Q)
    (onPage : option (nat -> World -> World)) (allItems : list T) (w : World)
  : Outcome (list T) * World :=
  match truthy pathOrUrl with
  | Some path =>
      if Qle_bool maxItems (inject_Z (Z.of_nat (length allItems)))
      then (Returned (Js.slice0 allItems maxItems), w)
      else
        match fuel with
        | O => (Unfinished, w)
        | S fuel' =>
            let url :=
              if String.prefix "http" path then path
              else (SPOTIFY_API_URL ++ path)%string in
            match fetchWithRetry env url (bearer accessToken) w with
            | (Returned response, w) =>
                match Http.safeJson decode response with
                | Returned page =>
                    let allItems := allItems ++ Api.items page in
                    let w :=
                      match onPage with
                      | Some callback => callback (length allItems) w
                      | None => w
                      end in
                    collectPaged_loop fuel' env decode (Api.next page)
                                      accessToken maxItems onPage allItems w
                | Threw message => (Threw message, w)
                | Unfinished => (Unfinished, w)
                end
            | (Threw message, w) => (Threw message, w)
            | (Unfinished, w) => (Unfinished, w)
            end
        end
  | None => (Returned (Js.slice0 allItems maxItems), w)
  end.

Definition collectPaged {T} (fuel : nat) (env : Env)
    (decode : Api.Body -> Outcome (Api.Paging T))
    (initialPath accessToken : string) (maxItems : Q)
    (onPage : option (nat -> World -> World)) : Async (list T) :=
  collectPaged_loop fuel env decode (Some initialPath) accessToken maxItems
                    onPage [].

Definition collectPagedSafe {T} (fuel : nat) (env : Env)
    (decode : Api.Body -> Outcome (Api.Paging T))
    (initialPath accessToken : string) (maxItems : Q)
    (onPage : option (nat -> World -> World)) : Async (list T) :=
  fun w =>
    match collectPaged fuel env decode initialPath accessToken maxItems
                       onPage w with
    | (Threw message, w) =>
        if Js.includes "HTTP 403" message then (Returned [], w)
        else (Threw message, w)
    | settled => settled
    end.

Definition toRawTrack (track : option Api.SpotifyTrackObject)
  : option RawTrack.t :=
  match track with
  | None => None
  | Some track =>
      if String.eqb (Api.id track) "" then None
      else
        Some
          {| RawTrack.id := Api.id track;
             RawTrack.name := Api.name track;
             RawTrack.uri := Api.uri track;
             RawTrack.artists := default [] (Api.artists track);
             RawTrack.albumName :=
               match Api.album track with
               | Some album => default ""%string (Api.album_name album)
               | None => ""%string
               end;
             RawTrack.albumArtUrl :=
               match Api.album track with
               | Some album =>
                   match Api.images album with
                   | Some (url :: _) => Some url
                   | _ => None
                   end
               | None => None
               end;
             RawTrack.externalUrl := Api.external_urls track;
             RawTrack.previewUrl := Api.preview_url track |}
  end.

(** [const raw = toRawTrack(track); if (raw) trackMap.set(raw.id, raw)]. *)
Definition setTrack (trackMap : Js.OrderedMap RawTrack.t)
    (track : option Api.SpotifyTrackObject) : Js.OrderedMap RawTrack.t :=
  match toRawTrack track with
  | Some raw => Js.map_set (RawTrack.id raw) raw trackMap
  | None => trackMap
  end.

(** The three loops that fill [trackMap], and the final slice. *)
Definition mergeTracks (limit : Q) (liked : list Api.TrackItem)
    (savedAlbums : list Api.SavedAlbumItem) (recent : list Api.TrackItem)
  : list RawTrack.t :=
  let trackMap : Js.OrderedMap RawTrack.t := [] in
  let trackMap :=
    fold_left (fun m item => setTrack m (Api.track item)) liked trackMap in
  let trackMap :=
    fold_left (fun m item => setTrack m (Api.track item)) recent trackMap in
  let trackMap :=
    fold_left
      (fun m albumItem =>
         fold_left setTrack (default [] (Api.album_tracks albumItem)) m)
      savedAlbums trackMap in
  Js.slice0 (Js.map_values trackMap) limit.

Definition Qmaxmin (lo hi x : Q) : Q := Qmax lo (Qmin hi x).

Definition floorQ (q : Q) : Q := inject_Z (Qfloor q).
Definition ceilQ (q : Q) : Q := inject_Z (Qceiling q).

(** The walk over one source, or the resolved empty list when the source
    is switched off. *)
Definition likedWalk (fuel : nat) (env : Env) (accessToken : string)
    (options : FetchUserTracksOptions) : Async (list Api.TrackItem) :=
  let likedPageLimit := Qmaxmin 1 50 (limit options) in
  if default true (includeLikedSongs options) then
    collectPagedSafe fuel env asTracksPage
      ("/me/tracks?limit=" ++ numberToString env likedPageLimit)%string
      accessToken (limit options) (Some (fun _ w => w))
  else fun w => (Returned [], w).

Definition savedAlbumsWalk (fuel : nat) (env : Env) (accessToken : string)
    (options : FetchUserTracksOptions) : Async (list Api.SavedAlbumItem) :=
  let savedPageLimit := Qmaxmin 1 20 (ceilQ (limit options / 5)) in
  if default true (includeSavedAlbums options) then
    collectPagedSafe fuel env asAlbumsPage
      ("/me/albums?limit=" ++ numberToString env savedPageLimit)%string
      accessToken (Qmax 1 (floorQ (limit options / 5)))
      (Some (fun _ w => w))
  else fun w => (Returned [], w).

Definition recentWalk (fuel : nat) (env : Env) (accessToken : string)
    (options : FetchUserTracksOptions) : Async (list Api.TrackItem) :=
  let recentPageLimit := Qmaxmin 1 50 (limit options) in
  if default true (includeRecentlyPlayed options) then
    collectPagedSafe fuel env asTracksPage
      ("/me/player/recently-played?limit="
       ++ numberToString env recentPageLimit)%string
      accessToken (Qmax 1 (floorQ (limit options / 2)))
      (Some (fun _ w => w))
  else fun w => (Returned [], w).

(** The three walks are started together and awaited with [Promise.all];
    they interact only through the clock and the shared cool-down.  The
    model runs them one after the other (liked, saved albums, recently
    played), and the first one that throws decides the error. *)
Definition fetchUserTracks (fuel : nat) (env : Env) (accessToken : string)
    (options : FetchUserTracksOptions) : Async (list RawTrack.t) :=
  fun w =>
    match likedWalk fuel env accessToken options w with
    | (Returned liked, w) =>
        match savedAlbumsWalk fuel env accessToken options w with
        | (Returned savedAlbums, w) =>
            match recentWalk fuel env accessToken options w with
            | (Returned recent, w) =>
                (Returned (mergeTracks (limit options) liked savedAlbums recent),
                 w)
            | (Threw message, w) => (Threw message, w)
            | (Unfinished, w) => (Unfinished, w)
            end
        | (Threw message, w) => (Threw message, w)
        | (Unfinished, w) => (Unfinished, w)
        end
    | (Threw message, w) => (Threw message, w)
    | (Unfinished, w) => (Unfinished, w)
    end.

(** [for (const feature of json.audio_features) ...]. *)
Definition storeFeatures (audio_features : list (option Features.t))
    (byId : gmap string Features.t) : gmap string Features.t :=
  fold_left
    (fun byId feature =>
       match feature with
       | Some feature =>
           if String.eqb (Features.id feature) "" then byId
           else <[Features.id feature := feature]> byId
       | None => byId
       end)
    audio_features byId.

Definition featuresEndpoint (env : Env) (group : list string) : string :=
  ("/audio-features?ids="
   ++ encodeURIComponent env (String.concat "," group))%string.

(** The loop of [fetchAudioFeatures] over the chunks. *)
Fixpoint fetchGroups (env : Env) (accessToken : string)
    (groups : list (list string)) (byId : gmap string Features.t) (w : World)
  : Outcome (gmap string Features.t) * World :=
  match groups with
  | [] => (Returned byId, w)
  | group :: rest =>
      match spotifyFetch env asAudioFeatures (featuresEndpoint env group)
                         accessToken w with
      | (Returned audio_features, w) =>
          fetchGroups env accessToken rest (storeFeatures audio_features byId) w
      | (Threw message, w) =>
          if Js.includes "HTTP 403" message then (Returned byId, w)
          else (Threw message, w)
      | (Unfinished, w) => (Unfinished, w)
      end
  end.

Definition fetchAudioFeatures (env : Env) (ids : list string)
    (accessToken : string) : Async (gmap string Features.t) :=
  fun w =>
    match Http.chunks ids 100 with
    | Some groups => fetchGroups env accessToken groups ∅ w
    | None => (Unfinished, w)
    end.

(** [spotifyRateLimitState()]. *)
Definition spotifyRateLimitState (w : World) : (bool * Z) * World :=
  let '(retryAfterMs, w) := normalizeRateLimitRemainingMs w in
  ((0 <? retryAfterMs, retryAfterMs), w).

(** *** Notions used to state the properties *)

(** The retry-after hint as the specification words it: the seconds of the
    header converted to milliseconds (exactly) and clamped into [1s, 180s];
    20s when the header is absent or invalid. *)
Definition retryAfterHintMs (env : Env) (response : Response) : Q :=
  match valid_seconds env response with
  | Some seconds => Qmaxmin 1000 180000 (Binary64.value seconds * 1000)
  | None => 20000
  end.

(** The clock is non-negative and the deadline of the cool-down is never
    more than 180s ahead of it. *)
Definition cooldown_in_range (w : World) : Prop :=
  0 <= now w /\ spotifyRateLimitedUntil w <= now w + MAX_RATE_LIMIT_DELAY_MS.



(** The raw tracks a list of items contributes, in order. *)
Definition rawTracksOf (items : list Api.TrackItem) : list RawTrack.t :=
  omap (fun item => toRawTrack (Api.track item)) items.

Definition albumRawTracks (savedAlbums : list Api.SavedAlbumItem)
  : list RawTrack.t :=
  omap toRawTrack
       (concat (map (fun a => default [] (Api.album_tracks a)) savedAlbums)).

(** Every entry of the track map is filed under the identifier of its
    track. *)
Definition well_keyed (m : Js.OrderedMap RawTrack.t) : Prop :=
  Forall (fun entry => RawTrack.id (snd entry) = fst entry) m.

(** The last raw track of a list that carries the identifier. *)
Definition lastWithId (id : string) (raws : list RawTrack.t)
  : option RawTrack.t :=
  find (fun raw => String.eqb id (RawTrack.id raw)) (rev raws).

End Spotify.

(** ** The sync route (POST /api/library/sync) *)

Module SyncRoute.
Import Runtime.

(** A JSON value found in the request body. *)
Inductive JsonValue : Type :=
| JNumber (n : Js.Num)
| JString (s : string)
| JBool (b : bool)
| JCompound (toNumber : Js.Num).   (* an array or object and what it converts to *)

(** The parsed request body; [None] is an absent or null field. *)
Record SyncRequest : Type := {
  mode : option JsonValue;
  limit : option JsonValue
}.

Inductive Mode : Type := Quick | Full.

(** [Number(value)]. *)
Definition toNumber (env : Env) (value : JsonValue) : Js.Num :=
  match value with
  | JNumber n => n
  | JString s => Binary64.toNum (Number env s)
  | JBool b => Js.Fin (if b then 1 else 0)
  | JCompound n => n
  end.

(** [json.mode === "full" ? "full" : "quick"]. *)
Definition requestMode (json : SyncRequest) : Mode :=
  match mode json with
  | Some (JString s) => if String.eqb s "full" then Full else Quick
  | _ => Quick
  end.

Definition defaultLimit (m : Mode) : Q :=
  match m with Full => 180 | Quick => 20 end.

(** [Number(json.limit ?? defaultLimit)]. *)
Definition requestedLimit (env : Env) (json : SyncRequest) : Js.Num :=
  match limit json with
  | Some value => toNumber env value
  | None => Js.Fin (defaultLimit (requestMode json))
  end.

Definition requestLimit (env : Env) (json : SyncRequest) : Q :=
  match requestedLimit env json with
  | Js.Fin requested => Qmax 20 (Qmin 1000 requested)
  | _ => defaultLimit (requestMode json)
  end.

(** The options the route passes to [fetchUserTracks]. *)
Definition trackOptions (env : Env) (json : SyncRequest)
  : Spotify.FetchUserTracksOptions :=
  let mode := requestMode json in
  let quickMode := match mode with Quick => true | Full => false end in
  {| Spotify.limit := requestLimit env json;
     Spotify.includeLikedSongs := Some (if quickMode then true else true);
     Spotify.includeSavedAlbums :=
       Some (match mode with Full => true | Quick => false end);
     Spotify.includeRecentlyPlayed := Some (if quickMode then false else true) |}.

(** Whether a source is walked, given its toggle (absent means on). *)
Definition enabled (toggle : option bool) : bool := default true toggle.

(** The time-outs around the two phases, in milliseconds. *)
Definition tracksTimeoutMs (json : SyncRequest) : Z :=
  match requestMode json with Quick => 28000 | Full => 60000 end.

Definition featuresTimeoutMs (json : SyncRequest) : Z :=
  match requestMode json with Quick => 35000 | Full => 50000 end.

End SyncRoute.

(** ** Sample environments used to exercise the definitions *)

Module Samples.
Import Runtime.

(** A stand-in for [Number] on strings: decimal digits only. *)
Fixpoint digits (s : string) (acc : Z) : option Z :=
  match s with
  | EmptyString => Some acc
  | String c rest =>
      let d := (Js.charCode c - 48)%Z in
      if ((0 <=? d) && (d <=? 9))%Z then digits rest (acc * 10 + d)%Z
      else None
  end.

Definition decimal_Number (s : string) : Binary64.t :=
  match digits s 0 with
  | Some n => Binary64.ofZ n
  | None => Binary64.nan
  end.

Definition reply_with (status : Z) (retryAfter : option string)
    (body : Api.Body) : NetReply :=
  {| elapsed := 120;
     reply := inl {| status := status; retryAfter := retryAfter;
                     text := ""; body := body |} |}.

(** The [n]-th request meets the [n]-th reply of the script. *)
Definition scripted (script : list NetReply) : Env :=
  {| Number := decimal_Number;
     numberToString := fun q => pretty (Qfloor q);
     encodeURIComponent := fun s => s;
     random := fun _ => 0%Q;
     fetch_reply := fun n _ _ => nth n script (reply_with 500 None Api.OtherJson) |}.

Definition start : World :=
  {| now := 1700000000000; spotifyRateLimitedUntil := 0; requests := 0 |}.

Definition pending_2s : World :=
  {| now := 1700000000000; spotifyRateLimitedUntil := 1700000002000;
     requests := 1 |}.

Definition too_many_requests : Response :=
  {| status := 429; retryAfter := Some "5"%string; text := ""%string;
     body := Api.OtherJson |}.

Definition track_object (name : string) (album : option Api.Album)
  : Api.SpotifyTrackObject :=
  {| Api.id := "t1"; Api.name := name; Api.uri := None;
     Api.artists := Some ["Ann"%string]; Api.album := album;
     Api.external_urls := None; Api.preview_url := None |}.

Definition an_album : Api.Album :=
  {| Api.album_name := Some "Album"%string; Api.images := None |}.

Definition liked_page : Api.Body :=
  Api.TracksPage
    {| Api.items := [ {| Api.track := Some (track_object "as liked" (Some an_album)) |} ];
       Api.next := None |}.

Definition recent_page : Api.Body :=
  Api.TracksPage
    {| Api.items := [ {| Api.track := Some (track_object "as played" (Some an_album)) |} ];
       Api.next := None |}.

Definition albums_page : Api.Body :=
  Api.AlbumsPage
    {| Api.items :=
         [ {| Api.album_tracks := Some [Some (track_object "in album" None)] |} ];
       Api.next := None |}.

Definition no_albums_page : Api.Body :=
  Api.AlbumsPage {| Api.items := []; Api.next := None |}.

Definition raw (name albumName : string) : RawTrack.t :=
  {| RawTrack.id := "t1"; RawTrack.name := name; RawTrack.uri := None;
     RawTrack.artists := ["Ann"%string]; RawTrack.albumName := albumName;
     RawTrack.albumArtUrl := None; RawTrack.externalUrl := None;
     RawTrack.previewUrl := None |}.

Definition all_sources (limit : Q) : Spotify.FetchUserTracksOptions :=
  {| Spotify.limit := limit; Spotify.includeLikedSongs := None;
     Spotify.includeSavedAlbums := None;
     Spotify.includeRecentlyPlayed := None |}.

Definition after_requests (n : nat) : World :=
  {| now := 1700000000000 + 120 * Z.of_nat n;
     spotifyRateLimitedUntil := 0; requests := n |}.

End Samples.

(** ** Further notions used to state properties of the client *)

Module SpotifyNotions.

(** The last feature object of a response body that carries the
    identifier [i] and is stored (its identifier is not empty). *)
Definition lastFeatureWithId (i : string)
    (audio_features : list (option Features.t)) : option Features.t :=
  find (fun f => String.eqb i (Features.id f)
                 && negb (String.eqb (Features.id f) ""))
       (rev (omap (fun feature => feature) audio_features)).

End SpotifyNotions.

(** ** Reference notions for the embedding module *)

Module Reference.

(** The 32-bit FNV-1a hash in unsigned arithmetic: for each code unit,
    xor it into the hash and multiply by the FNV prime modulo 2^32. *)
Fixpoint fnv1a_loop (input : string) (hash : Z) : Z :=
  match input with
  | EmptyString => hash
  | String c rest =>
      fnv1a_loop rest ((Z.lxor hash (Js.charCode c) * 16777619) mod 2 ^ 32)%Z
  end.

Definition fnv1a32 (input : string) : Z := fnv1a_loop input 2166136261.

(** The sum of the squares of the entries of a vector. *)
Definition sum_of_squares (vector : list R) : R :=
  fold_right (fun value sum => (value * value + sum)%R) 0%R vector.

End Reference.

(** ** The sync route: progress and waiting time *)

Module SyncProgress.

(** [Math.round] on a rational: halves go up. *)
Definition round (q : Q) : Z := Qfloor (q + (1 # 2)).

(** The percentage reported by the [onProgress] callback of the route:
    [Math.min(55, 20 + Math.round((Math.min(fetched, limit) /
    Math.max(limit, 1)) * 35))]. *)
Definition progressPercent (fetched limit : Q) : Z :=
  Z.min 55 (20 + round (Qmin fetched limit / Qmax limit 1 * 35)).

(** [Math.max(1, Math.ceil(rateLimit.retryAfterMs / 1000))]. *)
Definition waitSec (retryAfterMs : Z) : Z :=
  Z.max 1 (Qceiling (inject_Z retryAfterMs / 1000)).

End SyncProgress.

(** ** Further sample replies *)

Module MoreSamples.
Import Runtime.

Definition unreachable : NetReply :=
  {| elapsed := 30; reply := inr "fetch failed"%string |}.

Definition unauthorized : Response :=
  {| status := 401; retryAfter := None; text := "expired"%string;
     body := Api.OtherJson |}.

Definition server_error_quoting_403 : Response :=
  {| status := 500; retryAfter := None;
     text := "upstream said HTTP 403"%string; body := Api.OtherJson |}.

(** A 429 response whose retry-after header is 1 followed by 306 zeros:
    1e306 seconds. *)
Definition retry_after_1e306 : Response :=
  {| status := 429;
     retryAfter :=
       Some (String "1" (string_of_list_ascii (repeat "0"%char 306)));
     text := ""%string; body := Api.OtherJson |}.

Definition no_sources : Spotify.FetchUserTracksOptions :=
  {| Spotify.limit := 20; Spotify.includeLikedSongs := Some false;
     Spotify.includeSavedAlbums := Some false;
     Spotify.includeRecentlyPlayed := Some false |}.

End MoreSamples.

(** ** Properties *)

Section ListFacts.
Context {A B : Type}.

Lemma filter_True_id (l : list A) : filter (fun _ => True) l = l.
Proof.
  induction l as [|x l IH]; [reflexivity|].
  rewrite filter_cons_True by exact I. now rewrite IH.
Qed.

Lemma nth_map_lookup (f : A -> B) (l : list A) (i : nat) (x : A) (d : B) :
  l !! i = Some x -> nth i (map f l) d = f x.
Proof.
  intros H. rewrite nth_lookup, list_lookup_fmap, H. reflexivity.
Qed.

Lemma find_over_app (f : A -> bool) (l1 l2 : list A) :
  find f (l1 ++ l2)
  = match find f l1 with Some x => Some x | None => find f l2 end.
Proof.
  induction l1 as [|x l1 IH]; cbn; [reflexivity|].
  destruct (f x); [reflexivity|exact IH].
Qed.

End ListFacts.

Module Binary64Facts.
Import SpecFloat Binary64.

(** Rounding keeps the sign it is given. *)
Lemma binary_round_aux_sign (sx : bool) (mx ex : Z) (lx : location) :
  match binary_round_aux prec emax sx mx ex lx with
  | S754_zero s | S754_infinity s | S754_finite s _ _ => s = sx
  | S754_nan => True
  end.
Proof.
  unfold binary_round_aux.
  destruct (shr_fexp prec emax mx ex lx) as [mrs' e'].
  destruct (shr_fexp prec emax _ e' loc_Exact) as [mrs'' e''].
  destruct (shr_m mrs''); [reflexivity| |exact I].
  destruct (Z.leb e'' (Z.sub emax prec)); reflexivity.
Qed.

Lemma value_of_positive (m : positive) (e : Z) :
  (0 <= value (S754_finite false m e))%Q.
Proof.
  unfold value. destruct (0 <=? e)%Z eqn:E.
  - change 0%Q with (inject_Z 0). rewrite <- Zle_Qle.
    apply Z.leb_le in E. apply Z.mul_nonneg_nonneg; [lia|].
    now apply Z.pow_nonneg.
  - discriminate.
Qed.

(** A finite number that is not below zero, times a positive number, is
    zero, positive or [Infinity] (or NaN, for operands that are not
    canonical). *)
Lemma product_not_negative (x : t) (m : positive) (e : Z) :
  isFinite x = true -> leb zero x = true ->
  match toNum (mul x (S754_finite false m e)) with
  | Js.Fin product => (0 <= product)%Q
  | Js.Infinity negative => negative = false
  | Js.NaN => True
  end.
Proof.
  intros Hfin Hle.
  destruct x as [s|s| |s mx ex]; try discriminate.
  destruct s; [discriminate|].
  unfold mul, SFmul.
  pose proof (binary_round_aux_sign (xorb false false) (Zpos (Pos.mul mx m))
                (Z.add ex e) loc_Exact) as H.
  destruct (binary_round_aux _ _ _ _ _ _) as [s|s| |s m' e'];
    cbn [toNum]; try exact I; try exact H.
  - apply Qle_refl.
  - cbn in H. subst s. apply value_of_positive.
Qed.

End Binary64Facts.

Module EmbeddingFacts.
Import Embedding.
Local Open Scope R_scope.

Example hashString_a : hashString "a" = 3826002220%Z.
Proof. reflexivity. Qed.

Lemma dot3 (x y z : R) : dot [x; y; z] [x; y; z] = x * x + y * y + z * z.
Proof. unfold dot; simpl. ring. Qed.

Lemma magnitude_unit3 (x y z : R) :
  x * x + y * y + z * z = 1 -> magnitude [x; y; z] = 1.
Proof.
  intros H. unfold magnitude. rewrite dot3, H. apply sqrt_1.
Qed.

(** The simple placement lands on the unit sphere, whatever the features. *)
Lemma simplePosition_on_sphere (f : Features.t) :
  magnitude (vec3_list (simplePositionFromEnergyValence f)) = 1.
Proof.
  unfold simplePositionFromEnergyValence.
  set (x := (Features.valence f * 2 - 1) * 0.92).
  set (y := (Features.energy f * 2 - 1) * 0.92).
  assert (Hs : 0 <= x * x + y * y) by nra.
  pose proof (sqrt_sqrt _ Hs) as Hr.
  pose proof (sqrt_pos (x * x + y * y)) as Hr0.
  set (radius := sqrt (x * x + y * y)) in *.
  destruct (Rlt_dec 0.96 radius) as [Hgt|Hle]; cbn [vec3_list].
  - apply magnitude_unit3.
    assert (Hsum : x * (0.96 / radius) * (x * (0.96 / radius))
                   + y * (0.96 / radius) * (y * (0.96 / radius)) = 0.9216).
    { transitivity ((x * x + y * y) * (0.96 * 0.96) / (radius * radius)).
      - field. lra.
      - rewrite <- Hr. transitivity (0.96 * 0.96); [field|]; lra. }
    rewrite Rmax_right by lra.
    rewrite sqrt_sqrt by lra. lra.
  - apply magnitude_unit3.
    assert (radius <= 0.96) by lra.
    assert (x * x + y * y <= 0.9216) by nra.
    rewrite Rmax_right by lra.
    rewrite sqrt_sqrt by lra. lra.
Qed.

Lemma merge_features_length rawTracks featureMap :
  length (merge_features rawTracks featureMap) = length rawTracks.
Proof.
  unfold merge_features. rewrite filter_True_id. apply length_map.
Qed.

Lemma payload_tracks_length now rawTracks featureMap :
  length (tracks (createSpherePayload now rawTracks featureMap))
  = length rawTracks.
Proof.
  unfold createSpherePayload.
  rewrite <- (merge_features_length rawTracks featureMap).
  destruct (merge_features rawTracks featureMap); [reflexivity|].
  cbn [tracks]. now rewrite length_imap.
Qed.

(** Every emitted position is the simple placement of the features merged
    for the track at the same index. *)
Lemma payload_position now rawTracks featureMap (i : nat) (t : SphereTrack.t) :
  tracks (createSpherePayload now rawTracks featureMap) !! i = Some t ->
  SphereTrack.position t
  = simplePositionFromEnergyValence (SphereTrack.features t).
Proof.
  unfold createSpherePayload.
  destruct (merge_features rawTracks featureMap) as [|m0 ms] eqn:E;
    [discriminate|].
  cbn [tracks]. rewrite list_lookup_imap.
  destruct ((m0 :: ms) !! i) as [item|] eqn:Ei; [|discriminate].
  cbn. intros [= <-]. cbn.
  apply (nth_map_lookup (fun item => simplePositionFromEnergyValence (snd item))
           (m0 :: ms) i item (0, 0, 0) Ei).
Qed.

(** C1. For a non-empty list of input tracks, the payload has one entry
    per track and every emitted position has Euclidean magnitude within
    1e-6 of 1 (in real arithmetic it is exactly 1). *)
Theorem payload_positions_unit now (rawTracks : list RawTrack.t)
    (featureMap : gmap string Features.t) :
  rawTracks <> [] ->
  let payload := createSpherePayload now rawTracks featureMap in
  length (tracks payload) = length rawTracks /\
  Forall (fun t => Rabs (magnitude (vec3_list (SphereTrack.position t)) - 1)
                   < 1e-6)
         (tracks payload).
Proof.
  intros _ payload. split; [apply payload_tracks_length|].
  apply Forall_lookup_2. intros i t Hi.
  rewrite (payload_position _ _ _ _ _ Hi), simplePosition_on_sphere.
  replace (1 - 1) with 0 by ring. rewrite Rabs_R0. lra.
Qed.

Lemma payload_positions_unit_witness :
  [sample_track] <> [] /\
  let payload := createSpherePayload "2024-01-01T00:00:00.000Z" [sample_track] ∅ in
  length (tracks payload) = 1%nat /\
  Forall (fun t => Rabs (magnitude (vec3_list (SphereTrack.position t)) - 1)
                   < 1e-6)
         (tracks payload).
Proof.
  split; [discriminate|].
  apply (payload_positions_unit _ [sample_track] ∅). discriminate.
Defined.

(** C10. For the empty track list the payload has track count 0, no
    tracks, and the four canonical axes energy [0,1,0], tempo [1,0,0],
    valence [0,0,1], acousticness [-1,0,0], each of unit length. *)
Theorem payload_of_no_tracks now (featureMap : gmap string Features.t) :
  let payload := createSpherePayload now [] featureMap in
  trackCount payload = 0%nat /\
  tracks payload = [] /\
  axis_energy (semanticAxes payload) = (0, 1, 0) /\
  axis_tempo (semanticAxes payload) = (1, 0, 0) /\
  axis_valence (semanticAxes payload) = (0, 0, 1) /\
  axis_acousticness (semanticAxes payload) = (-1, 0, 0) /\
  magnitude (vec3_list (axis_energy (semanticAxes payload))) = 1 /\
  magnitude (vec3_list (axis_tempo (semanticAxes payload))) = 1 /\
  magnitude (vec3_list (axis_valence (semanticAxes payload))) = 1 /\
  magnitude (vec3_list (axis_acousticness (semanticAxes payload))) = 1.
Proof.
  cbn. repeat split; apply magnitude_unit3; ring.
Qed.

(** C9. For index [i] of [n] points, the fallback point is the one given
    by phi = acos(1 - 2(i+0.5)/n), theta = pi(1+sqrt 5)(i+0.5) and
    position (cos theta sin phi, sin theta sin phi, cos phi). *)
Theorem fibonacci_point_formula (i n : nat) :
  (i < n)%nat ->
  fibonacciSpherePoint i n = fibonacci_formula i n.
Proof.
  intros Hin. unfold fibonacciSpherePoint, fibonacci_formula.
  assert (Hn : 1 <= INR n).
  { replace 1 with (INR 1) by reflexivity. apply le_INR. lia. }
  rewrite Rmax_left by exact Hn. reflexivity.
Qed.

Lemma fibonacci_point_formula_witness :
  fibonacciSpherePoint 2 5 = fibonacci_formula 2 5.
Proof. apply (fibonacci_point_formula 2 5). lia. Defined.

(** C6. The synthesized features depend only on the identifier, the name
    and the artist list of the track: two tracks that agree on these get
    the same features. *)
Theorem fallback_features_deterministic (t1 t2 : RawTrack.t) :
  RawTrack.id t1 = RawTrack.id t2 ->
  RawTrack.name t1 = RawTrack.name t2 ->
  RawTrack.artists t1 = RawTrack.artists t2 ->
  fallbackFeaturesFromTrack t1 = fallbackFeaturesFromTrack t2.
Proof.
  intros Hid Hname Hartists.
  unfold fallbackFeaturesFromTrack, identity_string.
  now rewrite Hid, Hname, Hartists.
Qed.

Lemma fallback_features_deterministic_witness :
  fallbackFeaturesFromTrack sample_track
  = fallbackFeaturesFromTrack sample_track_other_album.
Proof.
  apply (fallback_features_deterministic sample_track sample_track_other_album);
    reflexivity.
Defined.

Lemma fibonacci_layout_lookup {T} (l : list T) (i : nat) :
  (i < length l)%nat ->
  fibonacci_layout l !! i = Some (fibonacciSpherePoint i (length l)).
Proof.
  intros Hi. unfold fibonacci_layout. rewrite list_lookup_imap.
  destruct (lookup_lt_is_Some_2 l i Hi) as [x ->]. reflexivity.
Qed.

(** C2, as the code has it.  The layout policy [ensureVisiblePositions],
    given raw positions of which more than 30% have magnitude below 1e-6,
    returns for every index its Fibonacci-sphere point; the payload built
    by [createSpherePayload] does not go through this policy: each of its
    positions is the simple energy/valence placement of the track. *)
Theorem collapsed_layout_is_fibonacci (rawPositions : list (list R)) :
  INR (length rawPositions) * 0.3 < INR (zero_count rawPositions) ->
  length (ensureVisiblePositions rawPositions) = length rawPositions /\
  (forall i, (i < length rawPositions)%nat ->
     ensureVisiblePositions rawPositions !! i
     = Some (fibonacciSpherePoint i (length rawPositions))) /\
  (forall now rawTracks featureMap i t,
     tracks (createSpherePayload now rawTracks featureMap) !! i = Some t ->
     SphereTrack.position t
     = simplePositionFromEnergyValence (SphereTrack.features t)).
Proof.
  intros Hmost.
  assert (E : ensureVisiblePositions rawPositions
              = fibonacci_layout rawPositions).
  { unfold ensureVisiblePositions, mostlyCollapsed.
    destruct (Rlt_dec _ _) as [_|Hn]; [reflexivity|contradiction]. }
  rewrite E. split; [apply length_imap|]. split.
  - intros i Hi. now apply fibonacci_layout_lookup.
  - intros. eapply payload_position; eassumption.
Qed.

Lemma magnitude_origin : magnitude [0; 0; 0] = 0.
Proof.
  unfold magnitude. rewrite dot3.
  replace (0 * 0 + 0 * 0 + 0 * 0) with 0 by ring. apply sqrt_0.
Qed.

Lemma zero_count_origin : zero_count [[0; 0; 0]] = 1%nat.
Proof.
  unfold zero_count. cbn [fold_left]. rewrite magnitude_origin.
  destruct (Rlt_dec 0 1e-6) as [_|Hn]; [reflexivity|]. exfalso. lra.
Qed.

Lemma collapsed_layout_is_fibonacci_witness :
  INR (length [[0; 0; 0]]) * 0.3 < INR (zero_count [[0; 0; 0]]) /\
  ensureVisiblePositions [[0; 0; 0]] !! 0%nat
  = Some (fibonacciSpherePoint 0 1).
Proof.
  assert (H : INR (length [[0; 0; 0]]) * 0.3 < INR (zero_count [[0; 0; 0]])).
  { rewrite zero_count_origin. cbn. lra. }
  split; [exact H|].
  apply (collapsed_layout_is_fibonacci [[0; 0; 0]] H). cbn. lia.
Defined.

Lemma simplePosition_centred :
  simplePositionFromEnergyValence centred_features = (0, 0, 1).
Proof.
  unfold simplePositionFromEnergyValence, centred_features; cbn.
  replace ((0.5 * 2 - 1) * 0.92) with 0 by lra.
  replace (0 * 0 + 0 * 0) with 0 by ring. rewrite sqrt_0.
  destruct (Rlt_dec 0.96 0) as [Hlt|_]; [exfalso; lra|].
  replace (1 - 0 * 0 - 0 * 0) with 1 by ring.
  rewrite Rmax_right by lra. now rewrite sqrt_1.
Qed.

Lemma fibonacci_first_of_one_z : snd (fibonacciSpherePoint 0 1) = 0.
Proof.
  unfold fibonacciSpherePoint; cbn.
  rewrite Rmax_left by lra.
  replace (1 - 2 * (0 + 0.5) / 1) with 0 by lra.
  apply cos_acos. lra.
Qed.

(** The claim of C2 fails for the payload: a library of one track whose
    raw position is collapsed at the origin (100% of the tracks) is placed
    at (0, 0, 1), which is not its Fibonacci-sphere point. *)
Lemma payload_ignores_fibonacci_fallback :
  let rawTracks := [sample_track] in
  let featureMap : gmap string Features.t := {[ "t1"%string := centred_features ]} in
  let rawPositions := [[0; 0; 0]] in
  length rawPositions = length rawTracks /\
  INR (length rawPositions) * 0.3 < INR (zero_count rawPositions) /\
  map SphereTrack.position
      (tracks (createSpherePayload "2024-01-01T00:00:00.000Z" rawTracks featureMap))
  <> fibonacci_layout rawTracks.
Proof.
  cbn zeta. split; [reflexivity|]. split.
  { rewrite zero_count_origin. cbn. lra. }
  unfold createSpherePayload, merge_features.
  rewrite filter_True_id. cbn [map sample_track RawTrack.id].
  rewrite lookup_singleton_eq. cbn.
  rewrite simplePosition_centred.
  intros [= _ _ Hz].
  pose proof fibonacci_first_of_one_z as Hf.
  unfold fibonacciSpherePoint in Hf. cbn in Hf. lra.
Qed.









(** Sorting. *)
Lemma insert_ascending_length x l :
  length (insert_ascending x l) = S (length l).
Proof.
  induction l as [|y l IH]; cbn; [reflexivity|].
  destruct (Rle_dec x y); cbn; [reflexivity|now rewrite IH].
Qed.

Lemma sort_ascending_length l : length (sort_ascending l) = length l.
Proof.
  induction l as [|x l IH]; [reflexivity|].
  change (sort_ascending (x :: l)) with (insert_ascending x (sort_ascending l)).
  cbn. now rewrite insert_ascending_length, IH.
Qed.

Lemma insert_ascending_In x y l :
  In y (insert_ascending x l) -> y = x \/ In y l.
Proof.
  induction l as [|z l IH]; cbn.
  - intros [->|[]]. now left.
  - destruct (Rle_dec x z); cbn.
    + intros [->|H]; [now left|now right].
    + intros [->|H]; [right; now left|].
      destruct (IH H); [now left|right; now right].
Qed.

Lemma insert_ascending_sorted x l :
  StronglySorted Rle l -> StronglySorted Rle (insert_ascending x l).
Proof.
  induction 1 as [|y l Hs IH Hall]; cbn.
  - constructor; constructor.
  - destruct (Rle_dec x y) as [Hxy|Hxy].
    + constructor; [now constructor|].
      constructor; [exact Hxy|].
      eapply Forall_impl; [exact Hall|]. cbn; intros; lra.
    + constructor; [exact IH|].
      apply Forall_forall. intros z Hz. apply list_elem_of_In in Hz.
      destruct (insert_ascending_In _ _ _ Hz) as [->|Hin]; [lra|].
      rewrite Forall_forall in Hall. apply Hall. now apply list_elem_of_In.
Qed.

Lemma sort_ascending_sorted l : StronglySorted Rle (sort_ascending l).
Proof.
  induction l as [|x l IH]; [constructor|].
  change (sort_ascending (x :: l)) with (insert_ascending x (sort_ascending l)).
  now apply insert_ascending_sorted.
Qed.







Lemma buildFeatureMatrix_entry (features : list Features.t) (k : FeatureKey)
    (c i : nat) (f : Features.t) :
  FEATURE_KEYS !! c = Some k ->
  features !! i = Some f ->
  exists row,
    buildFeatureMatrix features !! i = Some row /\
    row !! c = Some (nth i (standardized_column k features) 0).
Proof.
  intros Hk Hf. unfold buildFeatureMatrix.
  rewrite list_lookup_imap, Hf. cbn [fmap option_fmap option_map].
  eexists; split; [reflexivity|].
  rewrite !list_lookup_fmap, Hk. reflexivity.
Qed.

End EmbeddingFacts.

Module StandardizationFacts.
Import SpecFloat Embedding Embedding64.

(** C7. The code, run in double precision on three tracks whose energy
    is 0.1: the clamped values of the energy column are all equal (each
    is the number 0.1), but their computed mean is the next number above
    0.1, so the computed variance is not 0 and its root is not replaced
    by 1.  Every track then gets the same score, about -0.8165, in the
    energy column of the feature matrix, where the claim says 0. *)
Theorem constant_column_is_not_zeroed :
  let tenth := Binary64.ratio 1 10 in
  let clamped := column_clamped (column_values Energy three_quiet_tracks) in
  exists score,
    clamped = [tenth; tenth; tenth] /\
    (Binary64.value tenth < Binary64.value (column_mean clamped))%Q /\
    (0 < Binary64.value (Binary64.sqrt (column_variance clamped)))%Q /\
    sd_or_1 (column_variance clamped)
    = Binary64.sqrt (column_variance clamped) /\
    standardized_column Energy three_quiet_tracks = [score; score; score] /\
    map (fun row => nth 0 row Binary64.nan)
        (buildFeatureMatrix three_quiet_tracks)
    = [score; score; score] /\
    (- (8165 # 10000) < Binary64.value score < - (8164 # 10000))%Q.
Proof.
  exists (S754_finite true 7354347395230783 (-53)).
  repeat split; vm_compute; reflexivity.
Qed.

End StandardizationFacts.

Module SyncRouteFacts.
Import Runtime SyncRoute.
Local Open Scope Q_scope.

Lemma clamp_limit_bounds (r : Q) :
  20 <= Qmax 20 (Qmin 1000 r) <= 1000.
Proof.
  split; [apply Q.le_max_l|].
  apply Q.max_lub; [discriminate|apply Q.le_min_l].
Qed.

(** C3, as the code has it.  The mode is "full" exactly when the request
    says so and "quick" otherwise; the default limit is 20 in quick mode
    and 180 in full mode; a finite override is clamped into [20, 1000]
    and any other override falls back to the default; quick mode walks
    the liked source only (saved collections and recently played are
    switched off), full mode walks all three sources. *)
Theorem sync_mode_limit_and_sources (env : Env) (json : SyncRequest) :
  let options := trackOptions env json in
  (requestMode json = Full <-> mode json = Some (JString "full")) /\
  defaultLimit Quick = 20 /\
  defaultLimit Full = 180 /\
  (limit json = None ->
     Spotify.limit options = defaultLimit (requestMode json)) /\
  (forall value r,
     limit json = Some value -> toNumber env value = Js.Fin r ->
     20 <= Spotify.limit options <= 1000 /\
     (r < 20 -> Spotify.limit options == 20) /\
     (1000 < r -> Spotify.limit options == 1000) /\
     (20 <= r <= 1000 -> Spotify.limit options == r)) /\
  (forall value,
     limit json = Some value -> Js.isFinite (toNumber env value) = false ->
     Spotify.limit options = defaultLimit (requestMode json)) /\
  (requestMode json = Quick ->
     enabled (Spotify.includeLikedSongs options) = true /\
     enabled (Spotify.includeSavedAlbums options) = false /\
     enabled (Spotify.includeRecentlyPlayed options) = false) /\
  (requestMode json = Full ->
     enabled (Spotify.includeLikedSongs options) = true /\
     enabled (Spotify.includeSavedAlbums options) = true /\
     enabled (Spotify.includeRecentlyPlayed options) = true).
Proof.
  cbn zeta. unfold trackOptions, requestLimit, requestedLimit. cbn.
  split.
  { unfold requestMode. destruct (mode json) as [[n|s|b|n]|];
      try (split; discriminate).
    destruct (String.eqb_spec s "full") as [->|Hne]; split;
      try reflexivity; try discriminate.
    intros [= ->]. contradiction. }
  split; [reflexivity|]. split; [reflexivity|].
  split.
  { intros ->. cbn. now destruct (requestMode json). }
  split.
  { intros value r Hv Hn. rewrite Hv, Hn.
    split; [apply clamp_limit_bounds|]. split; [|split].
    - intros Hr.
      rewrite Q.min_r
        by (apply Qlt_le_weak, (Qlt_trans _ 20); [exact Hr|reflexivity]).
      apply Q.max_l. now apply Qlt_le_weak.
    - intros Hr. rewrite Q.min_l by now apply Qlt_le_weak.
      apply Q.max_r. discriminate.
    - intros [Hlo Hhi]. rewrite Q.min_r by exact Hhi. now apply Q.max_r. }
  split.
  { intros value Hv Hfin. rewrite Hv.
    destruct (toNumber env value); [reflexivity|reflexivity|discriminate]. }
  split.
  - destruct (requestMode json); [intros _; repeat split|discriminate].
  - destruct (requestMode json); [discriminate|intros _; repeat split].
Qed.

(** The claim of C3 fails in quick mode: the recently-played source is
    switched off there. *)
Lemma quick_mode_skips_recently_played :
  let json := {| mode := Some (JString "quick"); limit := None |} in
  requestMode json = Quick /\
  enabled (Spotify.includeRecentlyPlayed
             (trackOptions (Samples.scripted []) json)) = false.
Proof. split; reflexivity. Qed.

End SyncRouteFacts.

Module SpotifyFacts.
Import Runtime Spotify.
Local Open Scope Z_scope.

Lemma inject_Z_le (a b : Z) : a <= b -> (inject_Z a <= inject_Z b)%Q.
Proof. intros H. now rewrite <- Zle_Qle. Qed.

Lemma ok_status (response : Response) :
  ok response = true -> 200 <= status response <= 299.
Proof. unfold ok. lia. Qed.

Lemma normalize_spec (w : World) :
  let '(remaining, w') := normalizeRateLimitRemainingMs w in
  now w' = now w /\ requests w' = requests w /\
  remaining = Z.min MAX_RATE_LIMIT_DELAY_MS
                    (Z.max 0 (spotifyRateLimitedUntil w - now w)) /\
  (remaining = 0 -> spotifyRateLimitedUntil w' = 0) /\
  (0 < remaining -> spotifyRateLimitedUntil w' = now w + remaining).
Proof.
  unfold normalizeRateLimitRemainingMs, MAX_RATE_LIMIT_DELAY_MS.
  destruct (Z.leb_spec (spotifyRateLimitedUntil w - now w) 0); cbn; lia.
Qed.

Lemma clampRateLimitDelayMs_range (value : Js.Num) :
  1000 <= clampRateLimitDelayMs value <= MAX_RATE_LIMIT_DELAY_MS.
Proof.
  unfold clampRateLimitDelayMs, MAX_RATE_LIMIT_DELAY_MS,
    DEFAULT_RATE_LIMIT_DELAY_MS.
  destruct value as [| |v]; try lia.
  destruct (Qle_bool v 0); lia.
Qed.

(** The delay the client derives from a 429 response lies in [1s, 180s]. *)
Lemma rateLimitDelayMs_range (env : Env) (response : Response) :
  1000 <= rateLimitDelayMs env response <= MAX_RATE_LIMIT_DELAY_MS.
Proof.
  unfold rateLimitDelayMs.
  destruct (valid_seconds env response) as [seconds|].
  - apply clampRateLimitDelayMs_range.
  - unfold MAX_RATE_LIMIT_DELAY_MS, DEFAULT_RATE_LIMIT_DELAY_MS. lia.
Qed.

(** What [clampRateLimitDelayMs] makes of a positive finite value is at
    least that value clamped into [1s, 180s]. *)
Lemma clamp_covers_value (ms : Q) :
  (0 < ms)%Q ->
  clampRateLimitDelayMs (Js.Fin ms) = Z.max 1000 (Z.min 180000 (Qceiling ms)) /\
  (Qmaxmin 1000 180000 ms <= inject_Z (clampRateLimitDelayMs (Js.Fin ms)))%Q.
Proof.
  intros Hpos. unfold clampRateLimitDelayMs, MAX_RATE_LIMIT_DELAY_MS.
  destruct (Qle_bool ms 0) eqn:E.
  { apply Qle_bool_iff in E. exfalso. eapply Qlt_irrefl, Qlt_le_trans; eauto. }
  split; [reflexivity|]. unfold Qmaxmin.
  apply Q.max_lub.
  - apply (inject_Z_le 1000). lia.
  - destruct (Z.le_gt_cases (Qceiling ms) 180000) as [Hle|Hgt].
    + eapply Qle_trans; [apply Q.le_min_r|].
      eapply Qle_trans; [apply Qle_ceiling|].
      apply inject_Z_le. lia.
    + eapply Qle_trans; [apply Q.le_min_l|].
      apply (inject_Z_le 180000). lia.
Qed.

(** Whole seconds from 1 to 180 are converted exactly. *)
Lemma whole_seconds_exact (n : Z) :
  1 <= n <= 180 ->
  clampRateLimitDelayMs (milliseconds (Binary64.ofZ n)) = 1000 * n.
Proof.
  intros Hn.
  assert (Hall : forallb
                   (fun k => clampRateLimitDelayMs
                               (milliseconds (Binary64.ofZ (Z.of_nat k + 1)))
                             =? 1000 * (Z.of_nat k + 1))
                   (seq 0 180) = true) by (vm_compute; reflexivity).
  rewrite forallb_forall in Hall.
  specialize (Hall (Z.to_nat (n - 1))).
  replace (Z.of_nat (Z.to_nat (n - 1)) + 1) with n in Hall by lia.
  apply Z.eqb_eq, Hall, in_seq. lia.
Qed.

(** From 1e306 seconds on the product with 1000 exceeds the largest
    number: it is [Infinity], and the delay is the default. *)
Lemma huge_seconds_overflow (j : Z) :
  1 <= j <= 179 ->
  milliseconds (Binary64.ofZ (j * 10 ^ 306)) = Js.Infinity false /\
  clampRateLimitDelayMs (milliseconds (Binary64.ofZ (j * 10 ^ 306))) = 20000.
Proof.
  intros Hj.
  assert (Hall : forallb
                   (fun k =>
                      match milliseconds
                              (Binary64.ofZ ((Z.of_nat k + 1) * 10 ^ 306)) with
                      | Js.Infinity false => true
                      | _ => false
                      end)
                   (seq 0 179) = true) by (vm_compute; reflexivity).
  rewrite forallb_forall in Hall.
  specialize (Hall (Z.to_nat (j - 1))).
  replace (Z.of_nat (Z.to_nat (j - 1)) + 1) with j in Hall by lia.
  assert (Hin : In (Z.to_nat (j - 1)) (seq 0 179)) by (apply in_seq; lia).
  specialize (Hall Hin).
  destruct (milliseconds (Binary64.ofZ (j * 10 ^ 306))) as [|[|]|ms];
    try discriminate.
  split; reflexivity.
Qed.

Lemma noteRateLimit_429 (env : Env) (response : Response) (w : World) :
  status response = 429 ->
  let w' := noteRateLimit env response w in
  now w' = now w /\ requests w' = requests w /\
  spotifyRateLimitedUntil w' - now w'
  = Z.max (Z.min MAX_RATE_LIMIT_DELAY_MS
                 (Z.max 0 (spotifyRateLimitedUntil w - now w)))
          (rateLimitDelayMs env response).
Proof.
  intros Hs. unfold noteRateLimit. rewrite Hs. cbn [Z.eqb Pos.eqb].
  pose proof (normalize_spec w) as Hn.
  destruct (normalizeRateLimitRemainingMs w) as [remaining w1].
  destruct Hn as (Hnow & Hreq & Hrem & _). cbn. lia.
Qed.


Lemma sleep_in_range ms w : cooldown_in_range w -> cooldown_in_range (sleep ms w).
Proof. unfold cooldown_in_range, sleep; cbn. lia. Qed.

Lemma fetch_in_range env url authorization w :
  cooldown_in_range w -> cooldown_in_range (snd (fetch env url authorization w)).
Proof. unfold cooldown_in_range, fetch; cbn. lia. Qed.

Lemma normalize_in_range w :
  cooldown_in_range w ->
  cooldown_in_range (snd (normalizeRateLimitRemainingMs w)).
Proof.
  unfold cooldown_in_range, normalizeRateLimitRemainingMs,
    MAX_RATE_LIMIT_DELAY_MS.
  destruct (Z.leb_spec (spotifyRateLimitedUntil w - now w) 0); cbn; lia.
Qed.

Lemma noteRateLimit_in_range env response w :
  cooldown_in_range w -> cooldown_in_range (noteRateLimit env response w).
Proof.
  intros H. unfold noteRateLimit.
  destruct (status response =? 429); [|exact H].
  pose proof (normalize_spec w) as Hn.
  pose proof (rateLimitDelayMs_range env response) as (Hlo & Hhi).
  destruct (normalizeRateLimitRemainingMs w) as [remaining w1].
  destruct Hn as (Hnow & _ & Hrem & _).
  unfold cooldown_in_range, MAX_RATE_LIMIT_DELAY_MS in *. cbn. lia.
Qed.

(** [fetchWithRetry] keeps the cool-down in range, however it settles. *)
Lemma attempts_in_range env url authorization :
  forall remaining attempt lastResponse lastError w,
    cooldown_in_range w ->
    cooldown_in_range
      (snd (attempts remaining attempt env url authorization
                     lastResponse lastError w)).
Proof.
  induction remaining as [|remaining IH];
    intros attempt lastResponse lastError w Hw; cbn [attempts].
  - unfold afterAttempts. now destruct lastError, lastResponse.
  - pose proof (normalize_in_range w Hw) as H1.
    destruct (normalizeRateLimitRemainingMs w) as [waitMs w1]. cbn [snd] in H1.
    assert (H2 : cooldown_in_range (if 0 <? waitMs then sleep waitMs w1 else w1))
      by (destruct (0 <? waitMs); [now apply sleep_in_range|exact H1]).
    pose proof (fetch_in_range env url authorization _ H2) as H3.
    destruct (fetch env url authorization _) as [[response|message] w3].
    cbn [snd] in H3.
    + destruct (ok response).
      * unfold cooldown_in_range, MAX_RATE_LIMIT_DELAY_MS in *. cbn. lia.
      * pose proof (noteRateLimit_in_range env response w3 H3) as H4.
        destruct (negb _ || _); [exact H4|].
        apply IH. now apply sleep_in_range.
    + cbn [snd] in H3. destruct (attempt =? MAX_RETRIES).
      * unfold afterAttempts. now destruct lastResponse.
      * apply IH. now apply sleep_in_range.
Qed.

Lemma fetchWithRetry_in_range env url authorization w :
  cooldown_in_range w ->
  cooldown_in_range (snd (fetchWithRetry env url authorization w)).
Proof. apply attempts_in_range. Qed.

Lemma last_attempt_429 (env : Env) n url authorization lastResponse lastError
    (w : World) (response : Response) (w' : World) :
  attempts (S n) MAX_RETRIES env url authorization lastResponse lastError w
  = (Returned response, w') ->
  status response = 429 ->
  rateLimitDelayMs env response <= spotifyRateLimitedUntil w' - now w'.
Proof.
  cbn [attempts].
  destruct (normalizeRateLimitRemainingMs w) as [waitMs w1].
  set (w2 := if 0 <? waitMs then sleep waitMs w1 else w1).
  destruct (fetch env url authorization w2) as [[r|message] w3].
  - destruct (ok r) eqn:Eok.
    + intros [= -> <-] Hs. apply ok_status in Eok. lia.
    + rewrite Z.eqb_refl, orb_true_r. intros [= -> <-] Hs.
      destruct (noteRateLimit_429 env response w3 Hs) as (_ & _ & ->). lia.
  - rewrite Z.eqb_refl. unfold afterAttempts. discriminate.
Qed.

(** C4, as the code has it.  When a response has status 429, the shared
    cool-down measured from the current clock reading becomes the maximum
    of the pending cool-down and the delay derived from the response, so
    the pending cool-down does not shrink and the deadline does not move
    back, and a 429 response returned by [fetchWithRetry] leaves at least
    that delay to wait.  The delay is 20s when the header is absent or
    invalid, and also when the double-precision product seconds * 1000 is
    zero or is not finite; otherwise it is that product rounded up to a
    whole millisecond and clamped into [1s, 180s], hence at least the
    product clamped into [1s, 180s].  For a header of 1 to 180 whole
    seconds it is exactly that many seconds; for a header of 1e306 seconds
    or a multiple of it the product is not finite and the delay is 20s. *)
Theorem cooldown_extended_on_429 (env : Env) (response : Response) (w : World) :
  status response = 429 ->
  spotifyRateLimitedUntil w <= now w + MAX_RATE_LIMIT_DELAY_MS ->
  let w' := noteRateLimit env response w in
  let pending := Z.max 0 (spotifyRateLimitedUntil w - now w) in
  let delay := rateLimitDelayMs env response in
  now w' = now w /\
  1000 <= spotifyRateLimitedUntil w' - now w' <= 180000 /\
  spotifyRateLimitedUntil w' - now w' = Z.max pending delay /\
  pending <= spotifyRateLimitedUntil w' - now w' /\
  spotifyRateLimitedUntil w <= spotifyRateLimitedUntil w' /\
  (valid_seconds env response = None -> delay = 20000) /\
  (forall seconds,
     valid_seconds env response = Some seconds ->
     match milliseconds seconds with
     | Js.Fin ms =>
         ((ms <= 0)%Q -> delay = 20000) /\
         ((0 < ms)%Q ->
          delay = Z.max 1000 (Z.min 180000 (Qceiling ms)) /\
          (Qmaxmin 1000 180000 ms <= inject_Z delay)%Q)
     | _ => delay = 20000
     end) /\
  (forall n,
     1 <= n <= 180 ->
     valid_seconds env response = Some (Binary64.ofZ n) ->
     delay = 1000 * n) /\
  (forall j,
     1 <= j <= 179 ->
     valid_seconds env response = Some (Binary64.ofZ (j * 10 ^ 306)) ->
     delay = 20000) /\
  (forall url authorization w0 w1,
     fetchWithRetry env url authorization w0 = (Returned response, w1) ->
     delay <= spotifyRateLimitedUntil w1 - now w1).
Proof.
  intros Hs Hb w' pending delay.
  destruct (noteRateLimit_429 env response w Hs) as (Hnow & _ & Hrem).
  fold w' delay in Hnow, Hrem.
  destruct (rateLimitDelayMs_range env response) as (Hlo & Hhi).
  fold delay in Hlo, Hhi.
  unfold MAX_RATE_LIMIT_DELAY_MS in *.
  assert (Hp : Z.min 180000 (Z.max 0 (spotifyRateLimitedUntil w - now w))
               = pending) by (unfold pending; lia).
  rewrite Hp in Hrem.
  split; [exact Hnow|].
  split; [unfold pending in *; lia|].
  split; [exact Hrem|]. split; [lia|]. split; [unfold pending in *; lia|].
  split.
  { intros Hv. unfold delay, rateLimitDelayMs. now rewrite Hv. }
  split.
  { intros seconds Hv. unfold delay, rateLimitDelayMs. rewrite Hv.
    destruct (milliseconds seconds) as [| |ms]; try reflexivity.
    split.
    - intros Hle. unfold clampRateLimitDelayMs.
      apply Qle_bool_iff in Hle. now rewrite Hle.
    - apply clamp_covers_value. }
  split.
  { intros n Hn Hv. unfold delay, rateLimitDelayMs. rewrite Hv.
    now apply whole_seconds_exact. }
  split.
  { intros j Hj Hv. unfold delay, rateLimitDelayMs. rewrite Hv.
    now apply huge_seconds_overflow. }
  intros url authorization w0 w1. unfold fetchWithRetry.
  change (Z.to_nat (MAX_RETRIES + 1)) with 2%nat. cbn [attempts].
  destruct (normalizeRateLimitRemainingMs w0) as [waitMs wa].
  set (wb := if 0 <? waitMs then sleep waitMs wa else wa).
  destruct (fetch env url authorization wb) as [[r|message] wc].
  - destruct (ok r) eqn:Eok.
    + intros [= -> <-]. apply ok_status in Eok. lia.
    + change (0 =? MAX_RETRIES) with false. rewrite orb_false_r.
      destruct (negb ((status r =? 429) || (500 <=? status r))) eqn:Er.
      * intros [= -> <-]. rewrite Hs in Er. discriminate.
      * intros H. eapply (last_attempt_429 env 0); [exact H|exact Hs].
  - change (0 =? MAX_RETRIES) with false. cbn iota.
    intros H. eapply (last_attempt_429 env 0); [exact H|exact Hs].
Qed.

Lemma cooldown_extended_on_429_witness :
  status Samples.too_many_requests = 429 /\
  spotifyRateLimitedUntil Samples.pending_2s
  <= now Samples.pending_2s + MAX_RATE_LIMIT_DELAY_MS /\
  spotifyRateLimitedUntil
    (noteRateLimit (Samples.scripted []) Samples.too_many_requests
                   Samples.pending_2s)
  - now Samples.pending_2s = 5000.
Proof.
  assert (Hs : status Samples.too_many_requests = 429) by reflexivity.
  assert (Hb : spotifyRateLimitedUntil Samples.pending_2s
               <= now Samples.pending_2s + MAX_RATE_LIMIT_DELAY_MS)
    by (vm_compute; discriminate).
  split; [exact Hs|]. split; [exact Hb|].
  destruct (cooldown_extended_on_429 (Samples.scripted [])
              Samples.too_many_requests Samples.pending_2s Hs Hb)
    as (Hnow & _ & Hrem & _).
  rewrite <- Hnow, Hrem. reflexivity.
Defined.

(** The claim of C4 fails for a header so large that its milliseconds are
    not a finite number: 1e306 seconds pass the test of the code (finite,
    not negative), the hint as the specification words it is the upper
    bound of 180s, and the cool-down set is the default of 20s. *)
Lemma overflowing_retry_after_waits_default :
  valid_seconds (Samples.scripted []) MoreSamples.retry_after_1e306
  = Some (Binary64.ofZ (10 ^ 306)) /\
  milliseconds (Binary64.ofZ (10 ^ 306)) = Js.Infinity false /\
  (retryAfterHintMs (Samples.scripted []) MoreSamples.retry_after_1e306
   == 180000)%Q /\
  spotifyRateLimitedUntil
    (noteRateLimit (Samples.scripted []) MoreSamples.retry_after_1e306
                   Samples.start)
  - now (noteRateLimit (Samples.scripted []) MoreSamples.retry_after_1e306
                       Samples.start) = 20000 /\
  ~ (retryAfterHintMs (Samples.scripted []) MoreSamples.retry_after_1e306
     <= inject_Z
          (spotifyRateLimitedUntil
             (noteRateLimit (Samples.scripted []) MoreSamples.retry_after_1e306
                            Samples.start)
           - now (noteRateLimit (Samples.scripted [])
                                MoreSamples.retry_after_1e306 Samples.start)))%Q.
Proof.
  split; [vm_compute; reflexivity|].
  split; [vm_compute; reflexivity|].
  split; [vm_compute; reflexivity|].
  split; [vm_compute; reflexivity|].
  intros H. vm_compute in H. apply H. reflexivity.
Qed.

(** The product is rounded as the engine rounds it: 1.002 seconds give
    1002 ms, although the exact product of the number nearest to 1.002 by
    1000 lies just above 1002. *)
Example rounded_product_of_seconds :
  clampRateLimitDelayMs (milliseconds (Binary64.ratio 1002 1000)) = 1002 /\
  Qceiling (Binary64.value (Binary64.ratio 1002 1000) * 1000) = 1003.
Proof. split; vm_compute; reflexivity. Qed.

Example retry_after_zero_waits_default :
  rateLimitDelayMs (Samples.scripted [])
    {| status := 429; retryAfter := Some "0"%string; text := ""%string;
       body := Api.OtherJson |} = 20000.
Proof. reflexivity. Qed.

End SpotifyFacts.

Module HttpFacts.
Import Runtime Http.

Lemma chunks_loop_spec {T} (size : nat) (array : list T) :
  (0 < size)%nat ->
  forall fuel i output,
    (length array <= fuel + i)%nat ->
    concat output ++ skipn i array = array ->
    Forall (fun g => 1 <= length g <= size)%nat output ->
    exists groups,
      chunks_loop fuel array size i output = Some groups /\
      concat groups = array /\
      Forall (fun g => 1 <= length g <= size)%nat groups.
Proof.
  intros Hsize. induction fuel as [|fuel IH]; intros i output Hfuel Hcat Hall.
  - cbn [chunks_loop]. destruct (Nat.ltb_spec i (length array)) as [Hlt|Hge]; [lia|].
    exists output. rewrite skipn_all2 in Hcat by lia.
    rewrite app_nil_r in Hcat. split; [reflexivity|split; assumption].
  - cbn [chunks_loop]. destruct (Nat.ltb_spec i (length array)) as [Hlt|Hge].
    + apply IH.
      * lia.
      * rewrite concat_app. cbn. rewrite app_nil_r, <- app_assoc.
        unfold Js.slice. replace (i + size - i)%nat with size by lia.
        replace (skipn (i + size) array) with (skipn size (skipn i array)).
        -- now rewrite firstn_skipn.
        -- rewrite skipn_skipn. f_equal. lia.
      * apply Forall_app. split; [exact Hall|].
        constructor; [|constructor].
        unfold Js.slice. replace (i + size - i)%nat with size by lia.
        rewrite length_firstn, length_skipn. lia.
    + exists output. rewrite skipn_all2 in Hcat by lia.
      rewrite app_nil_r in Hcat. split; [reflexivity|split; assumption].
Qed.

Lemma chunks_spec {T} (array : list T) (size : nat) :
  (0 < size)%nat ->
  exists groups,
    chunks array size = Some groups /\
    concat groups = array /\
    Forall (fun g => 1 <= length g <= size)%nat groups.
Proof.
  intros Hsize. unfold chunks.
  apply chunks_loop_spec; [exact Hsize|lia|reflexivity|constructor].
Qed.

Lemma includes_prefix (needle haystack : string) :
  String.prefix needle haystack = true -> Js.includes needle haystack = true.
Proof. intros H. destruct haystack; cbn [Js.includes]; now rewrite H. Qed.

Lemma safeJson_403 {T} (decode : Api.Body -> Outcome T) (response : Response) :
  status response = 403%Z ->
  exists message,
    safeJson decode response = Threw message /\
    Js.includes "HTTP 403" message = true.
Proof.
  intros Hs. unfold safeJson, ok. rewrite Hs. cbn.
  eexists; split; [reflexivity|]. reflexivity.
Qed.

End HttpFacts.

Module FeatureFetchFacts.
Import Runtime Spotify SpotifyNotions.






Section LastFeature.
Local Open Scope string_scope.

Lemma lastFeatureWithId_snoc i fs feature :
  lastFeatureWithId i (fs ++ [feature])
  = match feature with
    | Some f =>
        if String.eqb i (Features.id f) && negb (String.eqb (Features.id f) "")
        then Some f else lastFeatureWithId i fs
    | None => lastFeatureWithId i fs
    end.
Proof.
  unfold lastFeatureWithId. rewrite omap_app. cbn [omap list_omap].
  destruct feature as [f|]; cbn [omap list_omap mbind option_bind].
  - rewrite rev_app_distr. cbn [rev app find]. reflexivity.
  - now rewrite app_nil_r.
Qed.


(** Storing the feature objects of one body: the last object that
    carries an identifier is the one filed under it. *)
Lemma storeFeatures_lookup_last (audio_features : list (option Features.t))
    (byId : gmap string Features.t) (i : string) :
  storeFeatures audio_features byId !! i
  = match lastFeatureWithId i audio_features with
    | Some f => Some f
    | None => byId !! i
    end.
Proof.
  revert byId. induction audio_features as [|feature fs IH] using rev_ind;
    intros byId; [reflexivity|].
  unfold storeFeatures in *. rewrite fold_left_app. cbn [fold_left].
  rewrite lastFeatureWithId_snoc.
  destruct feature as [f|]; [|apply IH].
  destruct (String.eqb_spec (Features.id f) "") as [E|E]; cbn [negb].
  - rewrite andb_false_r. apply IH.
  - rewrite andb_true_r.
    destruct (String.eqb_spec i (Features.id f)) as [->|Hne].
    + apply lookup_insert_eq.
    + rewrite lookup_insert_ne by congruence. apply IH.
Qed.


End LastFeature.



End FeatureFetchFacts.

Module OrderedMapFacts.
Import Js.

Section WithValues.
Context {V : Type}.
Implicit Types (m : OrderedMap V) (k : string) (v : V).

Lemma map_get_set_eq k v m : map_get k (map_set k v m) = Some v.
Proof.
  induction m as [|[k' v'] m IH]; cbn.
  - now rewrite String.eqb_refl.
  - destruct (String.eqb_spec k k') as [->|Hne]; cbn.
    + now rewrite String.eqb_refl.
    + destruct (String.eqb_spec k k'); [contradiction|exact IH].
Qed.

Lemma map_get_set_ne k k' v m :
  k' <> k -> map_get k' (map_set k v m) = map_get k' m.
Proof.
  intros Hne. induction m as [|[k0 v0] m IH]; cbn.
  - destruct (String.eqb_spec k' k); [contradiction|reflexivity].
  - destruct (String.eqb_spec k k0) as [->|Hk]; cbn.
    + destruct (String.eqb_spec k' k0); [contradiction|reflexivity].
    + destruct (String.eqb_spec k' k0); [reflexivity|exact IH].
Qed.

(** Setting a key keeps the existing keys in place; a new key goes last. *)
Lemma map_keys_set k v m :
  exists extra, map_keys (map_set k v m) = map_keys m ++ extra /\
                (extra = [] \/ extra = [k]).
Proof.
  induction m as [|[k' v'] m (extra & IH & Hextra)]; cbn.
  - exists [k]. split; [reflexivity|now right].
  - destruct (String.eqb_spec k k') as [->|Hne]; cbn.
    + exists []. split; [now rewrite app_nil_r|now left].
    + exists extra. split; [|exact Hextra]. unfold map_keys in IH. now rewrite IH.
Qed.

Lemma map_keys_set_In k v m : In k (map_keys (map_set k v m)).
Proof.
  induction m as [|[k' v'] m IH]; cbn; [now left|].
  destruct (String.eqb_spec k k') as [->|Hne]; cbn; [now left|now right].
Qed.

Lemma map_keys_set_incl k v m k' :
  In k' (map_keys (map_set k v m)) -> k' = k \/ In k' (map_keys m).
Proof.
  induction m as [|[k0 v0] m IH]; cbn.
  - intros [->|[]]. now left.
  - destruct (String.eqb_spec k k0) as [->|Hne]; cbn.
    + intros [->|H]; [now left|right; now right].
    + intros [->|H]; [right; now left|].
      destruct (IH H); [now left|right; now right].
Qed.

Lemma map_keys_set_NoDup k v m :
  List.NoDup (map_keys m) -> List.NoDup (map_keys (map_set k v m)).
Proof.
  induction m as [|[k' v'] m IH]; cbn; intros Hnd.
  - constructor; [intros []|constructor].
  - inversion Hnd as [|? ? Hnotin Hnd']; subst.
    destruct (String.eqb_spec k k') as [->|Hne]; cbn.
    + now constructor.
    + constructor; [|now apply IH].
      intros Hin. apply map_keys_set_incl in Hin as [->|Hin]; contradiction.
Qed.

Lemma map_get_In k v m : map_get k m = Some v -> In (k, v) m.
Proof.
  induction m as [|[k' v'] m IH]; cbn; [discriminate|].
  destruct (String.eqb_spec k k') as [->|Hne].
  - intros [= ->]. now left.
  - intros H. right. now apply IH.
Qed.

Lemma map_get_Some_of_key k m :
  In k (map_keys m) -> exists v, map_get k m = Some v.
Proof.
  induction m as [|[k' v'] m IH]; cbn; [intros []|].
  destruct (String.eqb_spec k k') as [->|Hne]; [eauto|].
  intros [->|H]; [contradiction|now apply IH].
Qed.

End WithValues.
End OrderedMapFacts.

Module MergeFacts.
Import Runtime Spotify OrderedMapFacts.

Lemma toRawTrack_id track raw :
  toRawTrack track = Some raw ->
  exists t, track = Some t /\ RawTrack.id raw = Api.id t /\ Api.id t <> ""%string.
Proof.
  unfold toRawTrack. destruct track as [t|]; [|discriminate].
  destruct (String.eqb_spec (Api.id t) ""); [discriminate|].
  intros [= <-]. now exists t.
Qed.

Lemma map_set_well_keyed (raw : RawTrack.t) m :
  well_keyed m -> well_keyed (Js.map_set (RawTrack.id raw) raw m).
Proof.
  unfold well_keyed. induction m as [|[k v] m IH]; cbn; intros H.
  - constructor; [reflexivity|constructor].
  - inversion H as [|? ? Hk Hm]; subst.
    destruct (String.eqb (RawTrack.id raw) k).
    + constructor; [reflexivity|exact Hm].
    + constructor; [exact Hk|now apply IH].
Qed.

Lemma lastWithId_cons i raw raws :
  lastWithId i (raw :: raws)
  = match lastWithId i raws with
    | Some r => Some r
    | None => if String.eqb i (RawTrack.id raw) then Some raw else None
    end.
Proof.
  unfold lastWithId. cbn [rev]. rewrite find_over_app.
  destruct (find _ (rev raws)); [reflexivity|]. cbn.
  now destruct (String.eqb i (RawTrack.id raw)).
Qed.

Lemma lastWithId_Some i raws r :
  lastWithId i raws = Some r -> In r raws /\ RawTrack.id r = i.
Proof.
  unfold lastWithId. intros H. apply find_some in H as [Hin Heq].
  split; [now apply in_rev|]. symmetry. now apply String.eqb_eq.
Qed.

Lemma lastWithId_None i raws :
  lastWithId i raws = None -> ~ In i (map RawTrack.id raws).
Proof.
  unfold lastWithId. intros H Hin. apply in_map_iff in Hin as (r & Hid & Hr).
  apply in_rev in Hr. pose proof (find_none _ _ H r Hr) as Hf. cbn in Hf.
  rewrite <- Hid, String.eqb_refl in Hf. discriminate.
Qed.

Section Folding.
Implicit Types (m : Js.OrderedMap RawTrack.t)
  (ts : list (option Api.SpotifyTrackObject)).

Lemma setAll_keys ts : forall m,
  exists extra,
    Js.map_keys (fold_left setTrack ts m) = Js.map_keys m ++ extra.
Proof.
  induction ts as [|t ts IH]; intros m; cbn [fold_left].
  - exists []. now rewrite app_nil_r.
  - destruct (IH (setTrack m t)) as (extra & ->).
    unfold setTrack. destruct (toRawTrack t) as [raw|].
    + destruct (map_keys_set (RawTrack.id raw) raw m) as (e & -> & _).
      exists (e ++ extra). now rewrite app_assoc.
    + now exists extra.
Qed.

Lemma setAll_keys_length ts : forall m,
  (length (Js.map_keys (fold_left setTrack ts m))
   <= length (Js.map_keys m) + length ts)%nat.
Proof.
  induction ts as [|t ts IH]; intros m; cbn [fold_left length]; [lia|].
  etransitivity; [apply IH|].
  unfold setTrack. destruct (toRawTrack t) as [raw|]; [|lia].
  destruct (map_keys_set (RawTrack.id raw) raw m) as (e & -> & [->| ->]);
    rewrite length_app; cbn; lia.
Qed.

Lemma setAll_NoDup ts : forall m,
  List.NoDup (Js.map_keys m) ->
  List.NoDup (Js.map_keys (fold_left setTrack ts m)).
Proof.
  induction ts as [|t ts IH]; intros m H; cbn [fold_left]; [exact H|].
  apply IH. unfold setTrack. destruct (toRawTrack t); [|exact H].
  now apply map_keys_set_NoDup.
Qed.

Lemma setAll_well_keyed ts : forall m,
  well_keyed m -> well_keyed (fold_left setTrack ts m).
Proof.
  induction ts as [|t ts IH]; intros m H; cbn [fold_left]; [exact H|].
  apply IH. unfold setTrack. destruct (toRawTrack t); [|exact H].
  now apply map_set_well_keyed.
Qed.

(** The value filed under an identifier is the last track written with
    it, or the value that was there before. *)
Lemma setAll_get ts i : forall m,
  Js.map_get i (fold_left setTrack ts m)
  = match lastWithId i (omap toRawTrack ts) with
    | Some r => Some r
    | None => Js.map_get i m
    end.
Proof.
  induction ts as [|t ts IH]; intros m; [reflexivity|].
  cbn [fold_left]. rewrite IH. unfold setTrack at 1.
  change (omap toRawTrack (t :: ts))
    with (match toRawTrack t with
          | Some r => r :: omap toRawTrack ts
          | None => omap toRawTrack ts
          end).
  destruct (toRawTrack t) as [raw|]; [|reflexivity].
  rewrite lastWithId_cons.
  destruct (lastWithId i (omap toRawTrack ts)); [reflexivity|].
  destruct (String.eqb_spec i (RawTrack.id raw)) as [->|Hne].
  - apply map_get_set_eq.
  - now apply map_get_set_ne.
Qed.

Lemma setAll_key_In ts i : forall m,
  In i (map RawTrack.id (omap toRawTrack ts)) ->
  In i (Js.map_keys (fold_left setTrack ts m)).
Proof.
  intros m Hin.
  destruct (lastWithId i (omap toRawTrack ts)) as [r|] eqn:E.
  - pose proof (setAll_get ts i m) as Hget. rewrite E in Hget.
    apply map_get_In in Hget.
    apply (in_map fst) in Hget. exact Hget.
  - now apply lastWithId_None in E.
Qed.

End Folding.

Lemma fold_tracks_of_items (items : list Api.TrackItem) m :
  fold_left (fun m item => setTrack m (Api.track item)) items m
  = fold_left setTrack (map Api.track items) m.
Proof.
  revert m. induction items as [|x items IH]; intros m; [reflexivity|].
  cbn. apply IH.
Qed.

Lemma fold_tracks_of_albums (albums : list Api.SavedAlbumItem) m :
  fold_left
    (fun m albumItem =>
       fold_left setTrack (default [] (Api.album_tracks albumItem)) m)
    albums m
  = fold_left setTrack
      (concat (map (fun a => default [] (Api.album_tracks a)) albums)) m.
Proof.
  revert m. induction albums as [|a albums IH]; intros m; [reflexivity|].
  cbn [fold_left map concat]. rewrite fold_left_app. apply IH.
Qed.

Lemma rawTracksOf_omap (items : list Api.TrackItem) :
  rawTracksOf items = omap toRawTrack (map Api.track items).
Proof.
  unfold rawTracksOf. induction items as [|x items IH]; [reflexivity|].
  cbn. now rewrite IH.
Qed.

Lemma NoDup_prefix {A} (l : list A) :
  List.NoDup l -> forall n, List.NoDup (firstn n l).
Proof.
  induction 1 as [|x l Hnotin _ IH]; intros n.
  - rewrite firstn_nil. constructor.
  - destruct n as [|n]; cbn [firstn]; constructor; [|apply IH].
    intros Hin. apply Hnotin. rewrite <- (firstn_skipn n l).
    apply in_or_app. now left.
Qed.

Lemma entry_in_prefix (i : string) (r : RawTrack.t) :
  forall (l : Js.OrderedMap RawTrack.t) (n : nat),
    Js.map_get i l = Some r ->
    In i (map fst (firstn n l)) ->
    In (i, r) (firstn n l).
Proof.
  induction l as [|[k v] l IH]; intros n Hget Hin.
  - rewrite firstn_nil in Hin. destruct Hin.
  - destruct n as [|n]; [destruct Hin|]. cbn in *.
    destruct (String.eqb_spec i k) as [->|Hne].
    + injection Hget as ->. now left.
    + destruct Hin as [->|Hin]; [contradiction|]. right. now apply IH.
Qed.

Lemma unique_entry (i : string) (r : RawTrack.t) :
  forall (l : Js.OrderedMap RawTrack.t),
    List.NoDup (map fst l) -> well_keyed l -> In (i, r) l ->
    filter (fun t => RawTrack.id t = i) (map snd l) = [r].
Proof.
  assert (Hnone : forall l : Js.OrderedMap RawTrack.t,
             well_keyed l -> ~ In i (map fst l) ->
             filter (fun t => RawTrack.id t = i) (map snd l) = []).
  { induction l as [|[k v] l IH]; intros Hwk Hnot; [reflexivity|].
    inversion Hwk as [|? ? Hk Hl]; subst. cbn [map fst snd] in *.
    rewrite filter_cons_False
      by (rewrite Hk; intros ->; apply Hnot; now left).
    apply IH; [exact Hl|]. intros Hin. apply Hnot. now right. }
  induction l as [|[k v] l IH]; intros Hnd Hwk Hin; [destruct Hin|].
  inversion Hnd as [|? ? Hnotin Hnd']; subst.
  inversion Hwk as [|? ? Hk Hl]; subst. cbn [map fst snd] in *.
  destruct Hin as [[= -> ->]|Hin].
  - rewrite filter_cons_True by exact Hk.
    rewrite Hnone; [reflexivity|exact Hl|exact Hnotin].
  - assert (k <> i).
    { intros ->. apply Hnotin. apply (in_map fst) in Hin. exact Hin. }
    rewrite filter_cons_False by (rewrite Hk; assumption).
    now apply IH.
Qed.

End MergeFacts.

Module WalkFacts.
Import Runtime Spotify MergeFacts.

Lemma Qtrunc_pos (q : Q) : (0 < q)%Q -> Js.Qtrunc q = Qfloor q /\ (0 <= Qfloor q)%Z.
Proof.
  intros H. unfold Js.Qtrunc.
  assert (Hle : (0 <= q)%Q) by now apply Qlt_le_weak.
  apply Qle_bool_iff in Hle as Hb. rewrite Hb. split; [reflexivity|].
  change 0%Z with (Qfloor 0). now apply Qfloor_resp_le.
Qed.

Lemma slice0_pos {T} (l : list T) (q : Q) :
  (0 < q)%Q -> Js.slice0 l q = firstn (Z.to_nat (Qfloor q)) l.
Proof.
  intros H. unfold Js.slice0. destruct (Qtrunc_pos q H) as [-> Hge].
  destruct (Z.ltb_spec (Qfloor q) 0); [lia|reflexivity].
Qed.

Lemma collectPaged_loop_sliced {T} (env : Env)
    (decode : Api.Body -> Outcome (Api.Paging T)) accessToken maxItems onPage :
  forall fuel pathOrUrl allItems w l w',
    collectPaged_loop fuel env decode pathOrUrl accessToken maxItems onPage
                      allItems w = (Returned l, w') ->
    exists all', l = Js.slice0 all' maxItems.
Proof.
  induction fuel as [|fuel IH]; intros pathOrUrl allItems w l w';
    cbn [collectPaged_loop].
  - destruct (truthy pathOrUrl); [|intros [= <- _]; eauto].
    destruct (Qle_bool _ _); [intros [= <- _]; eauto|discriminate].
  - destruct (truthy pathOrUrl) as [path|]; [|intros [= <- _]; eauto].
    destruct (Qle_bool _ _); [intros [= <- _]; eauto|].
    destruct (fetchWithRetry _ _ _ _) as [[response|message|] w1];
      [|discriminate|discriminate].
    destruct (Http.safeJson decode response) as [page|message|];
      [|discriminate|discriminate].
    apply IH.
Qed.

(** A walk returns no more items than its cap, and nothing when the cap
    is not positive. *)
Lemma collectPaged_bounded {T} (env : Env)
    (decode : Api.Body -> Outcome (Api.Paging T)) fuel initialPath accessToken
    maxItems onPage w l w' :
  collectPaged fuel env decode initialPath accessToken maxItems onPage w
  = (Returned l, w') ->
  l = [] \/ ((0 < maxItems)%Q /\ (length l <= Z.to_nat (Qfloor maxItems))%nat).
Proof.
  unfold collectPaged. intros H.
  destruct (Qlt_le_dec 0 maxItems) as [Hpos|Hle].
  - right. split; [exact Hpos|].
    apply collectPaged_loop_sliced in H as (all' & ->).
    rewrite slice0_pos by exact Hpos. rewrite length_firstn. lia.
  - left. assert (Hb : Qle_bool maxItems (inject_Z (Z.of_nat 0)) = true)
      by now apply Qle_bool_iff.
    destruct fuel; cbn [collectPaged_loop length] in H;
      destruct (truthy (Some initialPath)); rewrite ?Hb in H;
      injection H as <- _; unfold Js.slice0;
      destruct (_ <? _)%Z; apply firstn_nil.
Qed.

Lemma collectPagedSafe_bounded {T} (env : Env)
    (decode : Api.Body -> Outcome (Api.Paging T)) fuel initialPath accessToken
    maxItems onPage w l w' :
  collectPagedSafe fuel env decode initialPath accessToken maxItems onPage w
  = (Returned l, w') ->
  l = [] \/ ((0 < maxItems)%Q /\ (length l <= Z.to_nat (Qfloor maxItems))%nat).
Proof.
  unfold collectPagedSafe.
  destruct (collectPaged _ _ _ _ _ _ _ _) as [[l0|message|] w1] eqn:E.
  - intros [= <- <-]. eapply collectPaged_bounded; exact E.
  - destruct (Js.includes _ _); [intros [= <- _]; now left|discriminate].
  - discriminate.
Qed.

Lemma likedWalk_bounded fuel env accessToken options w liked w' :
  likedWalk fuel env accessToken options w = (Returned liked, w') ->
  liked = [] \/
  ((0 < limit options)%Q /\
   (length liked <= Z.to_nat (Qfloor (limit options)))%nat).
Proof.
  unfold likedWalk. destruct (default true (includeLikedSongs options)).
  - apply collectPagedSafe_bounded.
  - intros [= <- _]. now left.
Qed.

(** C5, as the code has it.  When [fetchUserTracks] returns, an
    identifier that was fetched both from the liked source and from the
    recently-played source occurs exactly once in the output; the track
    kept for it is the last recently-played version, unless the
    identifier also came with a saved album, in which case the last
    saved-album version is kept (the saved albums are written last). *)
Theorem liked_and_recent_deduplicated (fuel : nat) (env : Env)
    (accessToken : string) (options : FetchUserTracksOptions)
    (w : World) (out : list RawTrack.t) (w' : World) :
  fetchUserTracks fuel env accessToken options w = (Returned out, w') ->
  exists liked savedAlbums recent w1 w2,
    likedWalk fuel env accessToken options w = (Returned liked, w1) /\
    savedAlbumsWalk fuel env accessToken options w1 = (Returned savedAlbums, w2) /\
    recentWalk fuel env accessToken options w2 = (Returned recent, w') /\
    forall i : string,
      In i (map RawTrack.id (rawTracksOf liked)) ->
      In i (map RawTrack.id (rawTracksOf recent)) ->
      exists retained,
        filter (fun t => RawTrack.id t = i) out = [retained] /\
        Some retained
        = match lastWithId i (albumRawTracks savedAlbums) with
          | Some fromAlbum => Some fromAlbum
          | None => lastWithId i (rawTracksOf recent)
          end /\
        (~ In i (map RawTrack.id (albumRawTracks savedAlbums)) ->
         lastWithId i (rawTracksOf recent) = Some retained).
Proof.
  unfold fetchUserTracks. intros H.
  destruct (likedWalk fuel env accessToken options w)
    as [[liked|m|] w1] eqn:El; try discriminate.
  destruct (savedAlbumsWalk fuel env accessToken options w1)
    as [[savedAlbums|m|] w2] eqn:Es; try discriminate.
  destruct (recentWalk fuel env accessToken options w2)
    as [[recent|m|] w3] eqn:Er; try discriminate.
  injection H as <- <-.
  exists liked, savedAlbums, recent, w1, w2.
  split; [first [reflexivity|exact El]|].
  split; [first [reflexivity|exact Es]|].
  split; [first [reflexivity|exact Er]|].
  intros i Hliked Hrecent.
  (* the liked walk returned something, so the limit is positive *)
  destruct (likedWalk_bounded _ _ _ _ _ _ _ El) as [->|[Hpos Hlen]];
    [destruct Hliked|].
  unfold mergeTracks. rewrite slice0_pos by exact Hpos.
  rewrite !fold_tracks_of_items, fold_tracks_of_albums.
  set (n := Z.to_nat (Qfloor (limit options))) in *.
  set (mL := fold_left setTrack (map Api.track liked) []).
  set (mR := fold_left setTrack (map Api.track recent) mL).
  set (albumTracks :=
         concat (map (fun a => default [] (Api.album_tracks a)) savedAlbums)).
  set (mS := fold_left setTrack albumTracks mR).
  (* the identifier sits among the keys written by the liked loop *)
  assert (HinL : In i (Js.map_keys mL)).
  { apply setAll_key_In. now rewrite <- rawTracksOf_omap. }
  assert (HlenL : (length (Js.map_keys mL) <= n)%nat).
  { pose proof (setAll_keys_length (map Api.track liked) []) as Hk.
    fold mL in Hk. cbn [Js.map_keys map length] in Hk.
    rewrite length_map in Hk. unfold Js.map_keys in *. lia. }
  destruct (setAll_keys (map Api.track recent) mL) as (e1 & HkR). fold mR in HkR.
  destruct (setAll_keys albumTracks mR) as (e2 & HkS). fold mS in HkS.
  assert (HinS : In i (map fst (firstn n mS))).
  { rewrite <- firstn_map. change (map fst mS) with (Js.map_keys mS).
    rewrite HkS, HkR, <- app_assoc.
    rewrite firstn_app. apply in_or_app. left.
    rewrite firstn_all2 by exact HlenL. exact HinL. }
  (* what is filed under it at the end *)
  assert (HgetR : Js.map_get i mR = lastWithId i (rawTracksOf recent)).
  { unfold mR. rewrite setAll_get, <- rawTracksOf_omap.
    destruct (lastWithId i (rawTracksOf recent)) eqn:E; [reflexivity|].
    now apply lastWithId_None in E. }
  assert (HgetS : Js.map_get i mS
                  = match lastWithId i (albumRawTracks savedAlbums) with
                    | Some fromAlbum => Some fromAlbum
                    | None => lastWithId i (rawTracksOf recent)
                    end).
  { unfold mS. rewrite setAll_get. fold (albumRawTracks savedAlbums).
    now rewrite HgetR. }
  destruct (Js.map_get i mS) as [retained|] eqn:Eget.
  2:{ exfalso.
      destruct (lastWithId i (albumRawTracks savedAlbums)); [discriminate|].
      destruct (lastWithId i (rawTracksOf recent)) eqn:E; [discriminate|].
      now apply lastWithId_None in E. }
  exists retained. split; [|split].
  - unfold Js.map_values. rewrite firstn_map.
    apply unique_entry.
    + rewrite <- firstn_map. apply NoDup_prefix.
      apply (setAll_NoDup albumTracks), (setAll_NoDup (map Api.track recent)),
        (setAll_NoDup (map Api.track liked)). constructor.
    + apply Forall_take. unfold mS, mR, mL.
      apply setAll_well_keyed, setAll_well_keyed, setAll_well_keyed.
      constructor.
    + now apply entry_in_prefix.
  - exact HgetS.
  - intros Hnot. rewrite HgetS.
    destruct (lastWithId i (albumRawTracks savedAlbums)) as [a|] eqn:Ea;
      [|reflexivity].
    exfalso. apply Hnot. apply lastWithId_Some in Ea as [Hin <-].
    now apply in_map.
Qed.

Lemma liked_and_recent_deduplicated_witness :
  let env :=
    Samples.scripted
      [Samples.reply_with 200 None Samples.liked_page;
       Samples.reply_with 200 None Samples.no_albums_page;
       Samples.reply_with 200 None Samples.recent_page] in
  let out := [Samples.raw "as played" "Album"] in
  fetchUserTracks 3 env "token" (Samples.all_sources 20) Samples.start
  = (Returned out, Samples.after_requests 3) /\
  exists retained,
    filter (fun t => RawTrack.id t = "t1"%string) out = [retained].
Proof.
  cbn zeta. set (env := Samples.scripted _).
  assert (Hrun : fetchUserTracks 3 env "token" (Samples.all_sources 20)
                   Samples.start
                 = (Returned [Samples.raw "as played" "Album"],
                    Samples.after_requests 3))
    by (vm_compute; reflexivity).
  split; [exact Hrun|].
  destruct (liked_and_recent_deduplicated 3 env "token"
              (Samples.all_sources 20) Samples.start _ _ Hrun)
    as (liked & savedAlbums & recent & w1 & w2 & Hl & Hs & Hr & Hall).
  vm_compute in Hl. injection Hl as Hl Hw1. subst liked w1.
  vm_compute in Hs. injection Hs as Hs Hw2. subst savedAlbums w2.
  vm_compute in Hr. injection Hr as Hr. subst recent.
  destruct (Hall "t1"%string) as (retained & Hfilter & _).
  - vm_compute. left. reflexivity.
  - vm_compute. left. reflexivity.
  - exists retained. exact Hfilter.
Defined.

(** The claim of C5 fails when the identifier also comes with a saved
    album: the track is fetched as liked and as recently played, yet the
    output keeps the saved-album version, which differs from the
    recently-played one. *)
Lemma saved_album_version_wins :
  let env :=
    Samples.scripted
      [Samples.reply_with 200 None Samples.liked_page;
       Samples.reply_with 200 None Samples.albums_page;
       Samples.reply_with 200 None Samples.recent_page] in
  likedWalk 3 env "token" (Samples.all_sources 20) Samples.start
  = (Returned [ {| Api.track := Some (Samples.track_object "as liked"
                                        (Some Samples.an_album)) |} ],
     Samples.after_requests 1) /\
  recentWalk 3 env "token" (Samples.all_sources 20) (Samples.after_requests 2)
  = (Returned [ {| Api.track := Some (Samples.track_object "as played"
                                        (Some Samples.an_album)) |} ],
     Samples.after_requests 3) /\
  fetchUserTracks 3 env "token" (Samples.all_sources 20) Samples.start
  = (Returned [Samples.raw "in album" ""], Samples.after_requests 3) /\
  Samples.raw "in album" "" <> Samples.raw "as played" "Album".
Proof.
  cbn zeta. repeat split; try (vm_compute; reflexivity). discriminate.
Qed.

End WalkFacts.

(** ** Further properties of the client, the embedding and the sync route *)

Module ClientFacts.
Import Runtime Spotify SpotifyFacts.
Local Open Scope Z_scope.

(** X1: on a clock that is not negative, normalizeRateLimitRemainingMs
    returns the remaining cool-down, deadline minus now, cut to the range
    0..180000 ms: min(180000, max(0, deadline - now)).  It leaves the
    clock and the request count alone.  It returns 0 exactly when the
    deadline is not in the future, and then clears the deadline; otherwise
    it rewrites the deadline to now plus the returned value.  Calling it
    again at once returns the same value and changes nothing. *)
Theorem remaining_cooldown_normalized (w : World) :
  0 <= now w ->
  let remaining := fst (normalizeRateLimitRemainingMs w) in
  let w' := snd (normalizeRateLimitRemainingMs w) in
  remaining = Z.min 180000 (Z.max 0 (spotifyRateLimitedUntil w - now w)) /\
  0 <= remaining <= 180000 /\
  now w' = now w /\ requests w' = requests w /\
  (remaining = 0 <-> spotifyRateLimitedUntil w <= now w) /\
  (remaining = 0 -> spotifyRateLimitedUntil w' = 0) /\
  (0 < remaining -> spotifyRateLimitedUntil w' = now w + remaining) /\
  normalizeRateLimitRemainingMs w' = (remaining, w').
Proof.
  intros Hnow. cbn zeta.
  pose proof (normalize_spec w) as H.
  destruct (normalizeRateLimitRemainingMs w) as [r w1] eqn:E.
  destruct H as (Hn & Hq & Hr & H0 & Hpos).
  unfold MAX_RATE_LIMIT_DELAY_MS in Hr. cbn [fst snd].
  split; [exact Hr|].
  split; [lia|]. split; [exact Hn|]. split; [exact Hq|].
  split; [lia|]. split; [exact H0|]. split; [exact Hpos|].
  unfold normalizeRateLimitRemainingMs, MAX_RATE_LIMIT_DELAY_MS in *.
  destruct (Z.leb_spec (spotifyRateLimitedUntil w - now w) 0) as [Hle|Hgt];
    injection E as <- <-;
    cbn [set_rateLimitedUntil now spotifyRateLimitedUntil requests].
  - destruct (Z.leb_spec (0 - now w) 0); [reflexivity|lia].
  - destruct (Z.leb_spec
                (now w + Z.min 180000 (spotifyRateLimitedUntil w - now w)
                 - now w) 0) as [H|H]; [lia|].
    assert (Em : Z.min 180000
                   (now w + Z.min 180000 (spotifyRateLimitedUntil w - now w)
                    - now w)
                 = Z.min 180000 (spotifyRateLimitedUntil w - now w)) by lia.
    rewrite Em. reflexivity.
Qed.

Lemma remaining_cooldown_normalized_witness :
  fst (normalizeRateLimitRemainingMs Samples.pending_2s)
  = Z.min 180000 (Z.max 0 (1700000002000 - 1700000000000)) /\
  normalizeRateLimitRemainingMs (snd (normalizeRateLimitRemainingMs Samples.pending_2s))
  = (2000, snd (normalizeRateLimitRemainingMs Samples.pending_2s)).
Proof.
  assert (Hnow : 0 <= now Samples.pending_2s) by (vm_compute; discriminate).
  split.
  - apply (remaining_cooldown_normalized Samples.pending_2s Hnow).
  - apply (remaining_cooldown_normalized Samples.pending_2s Hnow).
Defined.

(** spotifyRateLimitState reports the normalized remaining
    cool-down, and reports [limited] exactly when it is positive. *)
Lemma rate_limit_state_reports_pending (w : World) :
  let limited := fst (fst (spotifyRateLimitState w)) in
  let retryAfterMs := snd (fst (spotifyRateLimitState w)) in
  (limited = true <-> now w < spotifyRateLimitedUntil w) /\
  (limited = false <-> retryAfterMs = 0) /\
  retryAfterMs = Z.min 180000 (Z.max 0 (spotifyRateLimitedUntil w - now w)) /\
  now (snd (spotifyRateLimitState w)) = now w.
Proof.
  unfold spotifyRateLimitState.
  pose proof (normalize_spec w) as H.
  destruct (normalizeRateLimitRemainingMs w) as [r w1].
  destruct H as (Hnow & _ & Hr & _). unfold MAX_RATE_LIMIT_DELAY_MS in Hr.
  cbn [fst snd]. split; [|split; [|split]].
  - rewrite Z.ltb_lt. lia.
  - rewrite Z.ltb_ge. lia.
  - exact Hr.
  - exact Hnow.
Qed.

(** X2: clampRateLimitDelayMs always returns a delay between 1000 and
    180000 ms: the ceiling of a positive finite value cut to that range, and
    the default 20000 ms for NaN, an infinity, zero or a negative value.
    rateLimitDelayMs stays in the same range and is 20000 ms when the
    response has no usable retry-after header. *)
Theorem rate_limit_delay_clamped (env : Env) (value : Js.Num)
    (response : Response) :
  1000 <= clampRateLimitDelayMs value <= 180000 /\
  (forall v, value = Js.Fin v -> (0 < v)%Q ->
     clampRateLimitDelayMs value = Z.max 1000 (Z.min 180000 (Qceiling v))) /\
  (Js.isFinite value = false -> clampRateLimitDelayMs value = 20000) /\
  (forall v, value = Js.Fin v -> (v <= 0)%Q -> clampRateLimitDelayMs value = 20000) /\
  1000 <= rateLimitDelayMs env response <= 180000 /\
  (valid_seconds env response = None -> rateLimitDelayMs env response = 20000).
Proof.
  unfold clampRateLimitDelayMs, rateLimitDelayMs, MAX_RATE_LIMIT_DELAY_MS,
    DEFAULT_RATE_LIMIT_DELAY_MS.
  split.
  { destruct value as [| |v]; try lia. destruct (Qle_bool v 0); lia. }
  split.
  { intros v -> Hv. destruct (Qle_bool v 0) eqn:E; [|reflexivity].
    apply Qle_bool_iff in E. exfalso. apply (Qlt_not_le _ _ Hv E). }
  split.
  { destruct value; [reflexivity|reflexivity|discriminate]. }
  split.
  { intros v -> Hv. apply Qle_bool_iff in Hv. now rewrite Hv. }
  split.
  { destruct (valid_seconds env response) as [s|]; [|lia].
    apply clampRateLimitDelayMs_range. }
  intros ->. reflexivity.
Qed.

(** X3: for an attempt number that is not negative and a random
    number in [0, 1), retryDelayMs is between 0 and 180000 ms.  Without a
    usable retry-after header it is between 500 and 3500 ms, below 750 ms
    for attempt 0, and exactly 3500 ms from attempt 3 on. *)
Theorem retry_delay_bounds (env : Env) (response : Response) (attempt : Z)
    (w : World) :
  0 <= attempt ->
  (0 <= random env (requests w) < 1)%Q ->
  0 <= retryDelayMs env response attempt w <= 180000 /\
  (valid_seconds env response = None ->
   500 <= retryDelayMs env response attempt w <= 3500 /\
   (attempt = 0 -> retryDelayMs env response attempt w < 750) /\
   (3 <= attempt -> retryDelayMs env response attempt w = 3500)).
Proof.
  intros Ha [Hr0 Hr1]. unfold retryDelayMs, MAX_RATE_LIMIT_DELAY_MS.
  assert (Hj : 0 <= Qfloor (random env (requests w) * 250) < 250).
  { split.
    - change 0 with (Qfloor 0). apply Qfloor_resp_le.
      apply Qmult_le_0_compat; [exact Hr0|discriminate].
    - assert (Hlt : (random env (requests w) * 250 < inject_Z 250)%Q).
      { change (inject_Z 250) with (1 * 250)%Q.
        apply Qmult_lt_compat_r; [reflexivity|exact Hr1]. }
      pose proof (Qfloor_le (random env (requests w) * 250)) as Hf.
      pose proof (Qle_lt_trans _ _ _ Hf Hlt) as H.
      rewrite <- Zlt_Qlt in H. exact H. }
  assert (Hp : 1 <= 2 ^ attempt) by (apply (Z.pow_le_mono_r 2 0 attempt); lia).
  destruct (valid_seconds env response) as [s|] eqn:Es.
  - split; [|discriminate].
    assert (Hs : Binary64.isFinite s = true /\
                 Binary64.leb Binary64.zero s = true).
    { unfold valid_seconds in Es.
      destruct (truthy (retryAfter response)); [|discriminate].
      cbn zeta in Es.
      destruct (Binary64.isFinite (Number env s0)
                && Binary64.leb Binary64.zero (Number env s0)) eqn:E;
        [|discriminate].
      injection Es as <-. now apply andb_true_iff in E. }
    destruct Hs as [Hfin Hle].
    pose proof (Binary64Facts.product_not_negative s 8796093022208000 (-43)
                  Hfin Hle) as Hp0.
    change (Binary64.toNum
              (Binary64.mul s (SpecFloat.S754_finite false 8796093022208000 (-43))))
      with (milliseconds s) in Hp0.
    destruct (milliseconds s) as [|negative|ms]; [lia| |].
    + destruct negative; lia.
    + assert (0 <= Qceiling ms)
        by (change 0 with (Qceiling 0); now apply Qceiling_resp_le).
      lia.
  - split; [lia|]. intros _. split; [lia|]. split.
    + intros ->. change (2 ^ 0) with 1. lia.
    + intros H3. assert (8 <= 2 ^ attempt)
        by (apply (Z.pow_le_mono_r 2 3 attempt); lia). lia.
Qed.

Lemma retry_delay_bounds_witness :
  0 <= retryDelayMs (Samples.scripted [])
         (Samples.too_many_requests) 0 Samples.start <= 180000.
Proof.
  apply (retry_delay_bounds (Samples.scripted []) Samples.too_many_requests 0
                            Samples.start).
  - lia.
  - split; [discriminate|reflexivity].
Defined.

End ClientFacts.

Module RetryFacts.
Import Runtime Spotify SpotifyFacts.
Local Open Scope Z_scope.

Lemma noteRateLimit_keeps env response w :
  now (noteRateLimit env response w) = now w /\
  requests (noteRateLimit env response w) = requests w.
Proof.
  unfold noteRateLimit. destruct (status response =? 429); [|auto].
  pose proof (normalize_spec w) as H.
  destruct (normalizeRateLimitRemainingMs w) as [r w1].
  destruct H as (Hn & Hq & _). cbn. auto.
Qed.

(** The world in which an attempt issues its request. *)
Lemma before_request w :
  let '(waitMs, w1) := normalizeRateLimitRemainingMs w in
  let w2 := if 0 <? waitMs then sleep waitMs w1 else w1 in
  requests w2 = requests w /\
  now w <= now w2 /\
  (cooldown_in_range w -> now w2 = Z.max (now w) (spotifyRateLimitedUntil w)) /\
  (cooldown_in_range w ->
   spotifyRateLimitedUntil w2
   = if spotifyRateLimitedUntil w <=? now w then 0 else spotifyRateLimitedUntil w).
Proof.
  pose proof (normalize_spec w) as H.
  destruct (normalizeRateLimitRemainingMs w) as [r w1].
  destruct H as (Hn & Hq & Hr & H0 & Hpos).
  unfold cooldown_in_range, MAX_RATE_LIMIT_DELAY_MS in *.
  destruct (Z.ltb_spec 0 r) as [Hlt|Hge];
    cbn [sleep now requests spotifyRateLimitedUntil].
  - specialize (Hpos Hlt).
    split; [lia|]. split; [lia|]. split; [lia|]. intros Hin.
    destruct (Z.leb_spec (spotifyRateLimitedUntil w) (now w)); lia.
  - assert (Hz : r = 0) by lia. specialize (H0 Hz).
    split; [lia|]. split; [lia|]. split; [lia|]. intros Hin.
    destruct (Z.leb_spec (spotifyRateLimitedUntil w) (now w)); lia.
Qed.

Lemma attempts_effort env url authorization :
  forall remaining attempt lastResponse lastError w,
    let w' := snd (attempts remaining attempt env url authorization
                            lastResponse lastError w) in
    (requests w <= requests w' <= requests w + remaining)%nat /\
    now w <= now w' /\
    (remaining <> 0%nat -> (requests w < requests w')%nat).
Proof.
  induction remaining as [|remaining IH];
    intros attempt lastResponse lastError w; cbn [attempts].
  - unfold afterAttempts. destruct lastError, lastResponse; cbn; lia.
  - pose proof (before_request w) as Hb.
    destruct (normalizeRateLimitRemainingMs w) as [waitMs w1].
    set (w2 := if 0 <? waitMs then sleep waitMs w1 else w1) in *.
    destruct Hb as (Hq2 & Hn2 & _).
    unfold fetch.
    set (r := fetch_reply env (requests w2) url authorization).
    set (w3 := {| now := now w2 + Z.of_N (elapsed r);
                  spotifyRateLimitedUntil := spotifyRateLimitedUntil w2;
                  requests := S (requests w2) |}).
    assert (H3 : requests w3 = S (requests w) /\ now w <= now w3)
      by (subst w3; cbn; lia).
    destruct (reply r) as [response|message].
    + destruct (ok response); [cbn; lia|].
      destruct (noteRateLimit_keeps env response w3) as (Hn4 & Hq4).
      destruct (negb _ || _); [cbn; lia|].
      match goal with
      | |- context [attempts remaining ?a env url authorization ?lr ?le ?ww] =>
          pose proof (IH a lr le ww) as H
      end.
      cbn zeta in H. cbn [sleep now requests] in H. lia.
    + destruct (attempt =? MAX_RETRIES).
      * unfold afterAttempts. destruct lastResponse; cbn; lia.
      * match goal with
        | |- context [attempts remaining ?a env url authorization ?lr ?le ?ww] =>
            pose proof (IH a lr le ww) as H
        end.
        cbn zeta in H. cbn [sleep now requests] in H. lia.
Qed.

Lemma fetchWithRetry_effort (env : Env) (url authorization : string)
    (w : World) :
  (requests w < requests (snd (fetchWithRetry env url authorization w))
   <= requests w + 2)%nat /\
  now w <= now (snd (fetchWithRetry env url authorization w)).
Proof.
  unfold fetchWithRetry. change (Z.to_nat (MAX_RETRIES + 1)) with 2%nat.
  pose proof (attempts_effort env url authorization 2 0 None None w) as H.
  cbn zeta in *. lia.
Qed.

(** X4: whatever the network answers, one call of fetchWithRetry
    issues at least one and at most two requests, and the clock does not run
    backwards. *)
Theorem fetchWithRetry_at_most_two_requests (env : Env)
    (url authorization : string) (w : World) :
  let w' := snd (fetchWithRetry env url authorization w) in
  (requests w < requests w' <= requests w + 2)%nat /\ now w <= now w'.
Proof. apply fetchWithRetry_effort. Qed.

(** X5: when the cool-down deadline is at most 180000 ms ahead of the
    clock and the first answer is an ok response, fetchWithRetry returns it
    after a single request, having first slept until a pending deadline, and
    clears the cool-down. *)
Theorem fetchWithRetry_first_success (env : Env) (url authorization : string)
    (w : World) (response : Response) :
  cooldown_in_range w ->
  reply (fetch_reply env (requests w) url authorization) = inl response ->
  ok response = true ->
  fetchWithRetry env url authorization w
  = (Returned response,
     {| now := Z.max (now w) (spotifyRateLimitedUntil w)
               + Z.of_N (elapsed (fetch_reply env (requests w) url authorization));
        spotifyRateLimitedUntil := 0;
        requests := S (requests w) |}).
Proof.
  intros Hw Hreply Hok. unfold fetchWithRetry.
  change (Z.to_nat (MAX_RETRIES + 1)) with 2%nat. cbn [attempts].
  pose proof (before_request w) as Hb.
  destruct (normalizeRateLimitRemainingMs w) as [waitMs w1].
  set (w2 := if 0 <? waitMs then sleep waitMs w1 else w1) in *.
  destruct Hb as (Hq2 & _ & Hn2 & _). specialize (Hn2 Hw).
  unfold fetch. rewrite Hq2, Hreply, Hok.
  unfold set_rateLimitedUntil.
  cbn [now spotifyRateLimitedUntil requests]. now rewrite Hn2.
Qed.

Lemma start_in_range : cooldown_in_range Samples.start.
Proof. unfold cooldown_in_range; vm_compute; split; discriminate. Qed.

Lemma fetchWithRetry_first_success_witness :
  fetchWithRetry
    (Samples.scripted [Samples.reply_with 200 None Samples.liked_page])
    "https://api.spotify.com/v1/me/tracks" "Bearer token" Samples.start
  = (Returned {| status := 200; retryAfter := None; text := ""%string;
                 body := Samples.liked_page |},
     Samples.after_requests 1).
Proof.
  apply (fetchWithRetry_first_success
           (Samples.scripted [Samples.reply_with 200 None Samples.liked_page])
           "https://api.spotify.com/v1/me/tracks" "Bearer token" Samples.start).
  - exact start_in_range.
  - reflexivity.
  - reflexivity.
Defined.

(** X6: when the cool-down deadline is at most 180000 ms ahead of the
    clock, a first answer that is not ok and whose status is neither 429 nor
    500 or above is returned after a single request, without a retry; the
    deadline is cleared if it had passed on entry and is left as it was
    otherwise. *)
Theorem fetchWithRetry_client_error_surfaces (env : Env)
    (url authorization : string) (w : World) (response : Response) :
  cooldown_in_range w ->
  reply (fetch_reply env (requests w) url authorization) = inl response ->
  ok response = false ->
  status response <> 429 -> status response < 500 ->
  fetchWithRetry env url authorization w
  = (Returned response,
     {| now := Z.max (now w) (spotifyRateLimitedUntil w)
               + Z.of_N (elapsed (fetch_reply env (requests w) url authorization));
        spotifyRateLimitedUntil :=
          if spotifyRateLimitedUntil w <=? now w then 0
          else spotifyRateLimitedUntil w;
        requests := S (requests w) |}).
Proof.
  intros Hw Hreply Hok H429 H500. unfold fetchWithRetry.
  change (Z.to_nat (MAX_RETRIES + 1)) with 2%nat. cbn [attempts].
  pose proof (before_request w) as Hb.
  destruct (normalizeRateLimitRemainingMs w) as [waitMs w1].
  set (w2 := if 0 <? waitMs then sleep waitMs w1 else w1) in *.
  destruct Hb as (Hq2 & _ & Hn2 & Hu2). specialize (Hn2 Hw). specialize (Hu2 Hw).
  unfold fetch. rewrite Hq2, Hreply, Hok.
  unfold noteRateLimit.
  destruct (Z.eqb_spec (status response) 429) as [E|_]; [contradiction|].
  destruct (Z.leb_spec 500 (status response)) as [E|_]; [lia|].
  cbn [orb negb]. change (0 =? MAX_RETRIES) with false. cbn [orb].
  now rewrite Hn2, Hu2.
Qed.

Lemma fetchWithRetry_client_error_surfaces_witness :
  fetchWithRetry
    (Samples.scripted [Samples.reply_with 401 None Api.OtherJson])
    "https://api.spotify.com/v1/me" "Bearer token" Samples.start
  = (Returned {| status := 401; retryAfter := None; text := ""%string;
                 body := Api.OtherJson |},
     Samples.after_requests 1).
Proof.
  apply (fetchWithRetry_client_error_surfaces
           (Samples.scripted [Samples.reply_with 401 None Api.OtherJson])
           "https://api.spotify.com/v1/me" "Bearer token" Samples.start).
  - exact start_in_range.
  - reflexivity.
  - reflexivity.
  - discriminate.
  - reflexivity.
Defined.

(** X7: fetchWithRetry throws only after two requests, when the second
    one fails in transport, and the message is that failure's message behind
    the prefix of the client. *)
Theorem fetchWithRetry_throws_after_two_failures (env : Env)
    (url authorization : string) (w : World) (message : string) (w' : World) :
  fetchWithRetry env url authorization w = (Threw message, w') ->
  requests w' = (requests w + 2)%nat /\
  exists cause,
    reply (fetch_reply env (S (requests w)) url authorization) = inr cause /\
    message = ("Spotify request failed: " ++ cause)%string.
Proof.
  unfold fetchWithRetry. change (Z.to_nat (MAX_RETRIES + 1)) with 2%nat.
  assert (Hlast : forall lr le wa,
            attempts 1 1 env url authorization lr le wa = (Threw message, w') ->
            requests w' = S (requests wa) /\
            exists cause,
              reply (fetch_reply env (requests wa) url authorization) = inr cause /\
              message = ("Spotify request failed: " ++ cause)%string).
  { intros lr le wa. cbn [attempts].
    pose proof (before_request wa) as Hb.
    destruct (normalizeRateLimitRemainingMs wa) as [waitMs w1].
    set (w2 := if 0 <? waitMs then sleep waitMs w1 else w1) in *.
    destruct Hb as (Hq2 & _). unfold fetch. rewrite Hq2.
    destruct (reply (fetch_reply env (requests wa) url authorization))
      as [response|cause].
    - destruct (ok response); [discriminate|].
      change (1 =? MAX_RETRIES) with true. rewrite orb_true_r. discriminate.
    - change (1 =? MAX_RETRIES) with true. cbn iota. unfold afterAttempts.
      intros [= <- <-]. cbn. split; [reflexivity|]. now exists cause. }
  cbn [attempts].
  pose proof (before_request w) as Hb.
  destruct (normalizeRateLimitRemainingMs w) as [waitMs w1].
  set (w2 := if 0 <? waitMs then sleep waitMs w1 else w1) in *.
  destruct Hb as (Hq2 & _). unfold fetch. rewrite Hq2.
  destruct (reply (fetch_reply env (requests w) url authorization))
    as [response|cause0].
  - destruct (ok response); [discriminate|].
    change (0 =? MAX_RETRIES) with false. rewrite orb_false_r.
    destruct (negb _); [discriminate|].
    intros H. apply Hlast in H as (Hq & cause & Hc & ->).
    destruct (noteRateLimit_keeps env response
                {| now := now w2 + Z.of_N (elapsed (fetch_reply env (requests w) url authorization));
                   spotifyRateLimitedUntil := spotifyRateLimitedUntil w2;
                   requests := S (requests w) |}) as (_ & Hk).
    cbn [sleep requests] in Hq, Hc. rewrite Hk in Hq, Hc. cbn in Hq, Hc.
    split; [lia|]. now exists cause.
  - change (0 =? MAX_RETRIES) with false. cbn iota.
    intros H. apply Hlast in H as (Hq & cause & Hc & ->).
    cbn in Hq, Hc. split; [lia|]. now exists cause.
Qed.

(** X8: when the first request fails in transport, or is answered with
    status 429 or with 500 or above, and the second request is answered with
    an ok response, fetchWithRetry returns the second response after exactly
    two requests and the cool-down is cleared. *)
Theorem fetchWithRetry_retries_once (env : Env) (url authorization : string)
    (w : World) (second : Response) :
  match reply (fetch_reply env (requests w) url authorization) with
  | inl first =>
      ok first = false /\ (status first = 429 \/ 500 <= status first)
  | inr _ => True
  end ->
  reply (fetch_reply env (S (requests w)) url authorization) = inl second ->
  ok second = true ->
  exists w',
    fetchWithRetry env url authorization w = (Returned second, w') /\
    requests w' = (requests w + 2)%nat /\
    spotifyRateLimitedUntil w' = 0.
Proof.
  intros Hfirst Hsecond Hok. unfold fetchWithRetry.
  change (Z.to_nat (MAX_RETRIES + 1)) with 2%nat.
  assert (Hlast : forall lr le wa,
            requests wa = S (requests w) ->
            exists w',
              attempts 1 1 env url authorization lr le wa = (Returned second, w') /\
              requests w' = (requests w + 2)%nat /\
              spotifyRateLimitedUntil w' = 0).
  { intros lr le wa Hq. cbn [attempts].
    pose proof (before_request wa) as Hb.
    destruct (normalizeRateLimitRemainingMs wa) as [waitMs w1].
    set (w2 := if 0 <? waitMs then sleep waitMs w1 else w1) in *.
    destruct Hb as (Hq2 & _). unfold fetch. rewrite Hq2, Hq, Hsecond, Hok.
    eexists. split; [reflexivity|]. cbn. split; [lia|reflexivity]. }
  cbn [attempts].
  pose proof (before_request w) as Hb.
  destruct (normalizeRateLimitRemainingMs w) as [waitMs w1].
  set (w2 := if 0 <? waitMs then sleep waitMs w1 else w1) in *.
  destruct Hb as (Hq2 & _). unfold fetch. rewrite Hq2.
  destruct (reply (fetch_reply env (requests w) url authorization))
    as [first|cause].
  - destruct Hfirst as [Hnok Hretry]. rewrite Hnok.
    change (0 =? MAX_RETRIES) with false. rewrite orb_false_r.
    assert (Hr : (status first =? 429) || (500 <=? status first) = true).
    { destruct Hretry as [->|H5]; [reflexivity|].
      apply orb_true_iff. right. now apply Z.leb_le. }
    rewrite Hr. cbn [negb].
    apply Hlast. cbn [sleep requests].
    now destruct (noteRateLimit_keeps env first
                    {| now := now w2 + Z.of_N (elapsed (fetch_reply env (requests w) url authorization));
                       spotifyRateLimitedUntil := spotifyRateLimitedUntil w2;
                       requests := S (requests w) |}) as (_ & ->).
  - change (0 =? MAX_RETRIES) with false. cbn iota.
    apply Hlast. reflexivity.
Qed.

Lemma fetchWithRetry_retries_once_witness :
  exists w',
    fetchWithRetry
      (Samples.scripted [MoreSamples.unreachable;
                         Samples.reply_with 200 None Samples.liked_page])
      "https://api.spotify.com/v1/me/tracks" "Bearer token" Samples.start
    = (Returned {| status := 200; retryAfter := None; text := ""%string;
                   body := Samples.liked_page |}, w') /\
    requests w' = 2%nat.
Proof.
  destruct (fetchWithRetry_retries_once
              (Samples.scripted [MoreSamples.unreachable;
                                 Samples.reply_with 200 None Samples.liked_page])
              "https://api.spotify.com/v1/me/tracks" "Bearer token" Samples.start
              {| status := 200; retryAfter := None; text := ""%string;
                 body := Samples.liked_page |})
    as (w' & Hrun & Hq & _).
  - exact I.
  - reflexivity.
  - reflexivity.
  - exists w'. split; [exact Hrun|exact Hq].
Defined.

Lemma fetchWithRetry_throws_after_two_failures_witness :
  exists w' cause,
    fetchWithRetry
      (Samples.scripted [MoreSamples.unreachable; MoreSamples.unreachable])
      "https://api.spotify.com/v1/me" "Bearer token" Samples.start
    = (Threw ("Spotify request failed: " ++ cause)%string, w') /\
    requests w' = 2%nat.
Proof.
  eexists _, "fetch failed"%string.
  assert (H : fetchWithRetry
                (Samples.scripted [MoreSamples.unreachable; MoreSamples.unreachable])
                "https://api.spotify.com/v1/me" "Bearer token" Samples.start
              = (Threw "Spotify request failed: fetch failed",
                 {| now := 1700000000460; spotifyRateLimitedUntil := 0;
                    requests := 2 |}))
    by (vm_compute; reflexivity).
  split; [exact H|].
  apply (fetchWithRetry_throws_after_two_failures _ _ _ _ _ _ H).
Defined.

(** X9: fetchWithRetry keeps the invariant of the cool-down: started
    with a clock that is not negative and a deadline at most 180000 ms ahead
    of it, it ends in such a state, whatever the network answers. *)
Theorem cooldown_stays_in_range (env : Env) (url authorization : string)
    (w : World) :
  cooldown_in_range w ->
  cooldown_in_range (snd (fetchWithRetry env url authorization w)) /\
  spotifyRateLimitedUntil (snd (fetchWithRetry env url authorization w))
  - now (snd (fetchWithRetry env url authorization w)) <= 180000.
Proof.
  intros H. pose proof (attempts_in_range env url authorization 2 0 None None w H)
    as Hr.
  unfold fetchWithRetry. change (Z.to_nat (MAX_RETRIES + 1)) with 2%nat.
  split; [exact Hr|]. unfold cooldown_in_range, MAX_RATE_LIMIT_DELAY_MS in Hr. lia.
Qed.

Lemma cooldown_stays_in_range_witness :
  cooldown_in_range
    (snd (fetchWithRetry
            (Samples.scripted [Samples.reply_with 429 (Some "5"%string) Api.OtherJson;
                               Samples.reply_with 429 (Some "7"%string) Api.OtherJson])
            "https://api.spotify.com/v1/me" "Bearer token" Samples.start)).
Proof.
  apply (cooldown_stays_in_range
           (Samples.scripted [Samples.reply_with 429 (Some "5"%string) Api.OtherJson;
                              Samples.reply_with 429 (Some "7"%string) Api.OtherJson])
           "https://api.spotify.com/v1/me" "Bearer token" Samples.start).
  exact start_in_range.
Defined.

Example two_rate_limited_attempts :
  fetchWithRetry
    (Samples.scripted [Samples.reply_with 429 (Some "5"%string) Api.OtherJson;
                       Samples.reply_with 429 (Some "7"%string) Api.OtherJson])
    "https://api.spotify.com/v1/me" "Bearer token" Samples.start
  = (Returned {| status := 429; retryAfter := Some "7"%string; text := ""%string;
                 body := Api.OtherJson |},
     {| now := 1700000005240; spotifyRateLimitedUntil := 1700000012240;
        requests := 2 |}).
Proof. vm_compute. reflexivity. Qed.

End RetryFacts.

Module ChunkFacts.
Import Runtime Http.

Lemma ceil_div_step (d size : nat) :
  (0 < size)%nat -> (0 < d)%nat ->
  ((d + size - 1) / size = S ((d - size + size - 1) / size))%nat.
Proof.
  intros Hs Hd. destruct (Nat.le_gt_cases size d) as [Hle|Hgt].
  - replace (d + size - 1)%nat with ((d - size + size - 1) + 1 * size)%nat by lia.
    rewrite Nat.div_add by lia. lia.
  - replace (d - size)%nat with 0%nat by lia. cbn [Nat.add].
    rewrite (Nat.div_small (size - 1) size) by lia.
    symmetry. apply (Nat.div_unique _ _ _ (d - 1)); lia.
Qed.

Lemma chunks_loop_shape {T} (size : nat) (array : list T) :
  (0 < size)%nat ->
  forall fuel i output,
    (length array <= fuel + i)%nat ->
    (forall j g, output !! j = Some g ->
       (S j < length output)%nat \/ (i < length array)%nat -> length g = size) ->
    exists groups,
      chunks_loop fuel array size i output = Some groups /\
      length groups
      = (length output + (length array - i + size - 1) / size)%nat /\
      (forall j g, groups !! j = Some g -> (S j < length groups)%nat ->
         length g = size).
Proof.
  intros Hsize. induction fuel as [|fuel IH]; intros i output Hfuel Hfull;
    cbn [chunks_loop]; destruct (Nat.ltb_spec i (length array)) as [Hlt|Hge];
    try lia.
  - exists output. split; [reflexivity|]. split.
    + replace (length array - i)%nat with 0%nat by lia. cbn [Nat.add].
      rewrite Nat.div_small by lia. lia.
    + intros j g Hj Hlast. apply (Hfull j g Hj). now left.
  - destruct (IH (i + size)%nat
                 (output ++ [Js.slice array i (i + size)])) as (groups & Hc & Hlen & Hf).
    + lia.
    + intros j g Hj Hcase.
      destruct (Nat.lt_ge_cases j (length output)) as [Hjo|Hjo].
      * rewrite lookup_app_l in Hj by exact Hjo.
        apply (Hfull j g Hj). now right.
      * rewrite lookup_app_r in Hj by exact Hjo.
        destruct (j - length output)%nat eqn:Ej; [|discriminate].
        cbn in Hj. injection Hj as <-.
        rewrite length_app in Hcase. cbn [length] in Hcase.
        unfold Js.slice. rewrite length_firstn, length_skipn. lia.
    + exists groups. split; [exact Hc|]. split; [|exact Hf].
      rewrite Hlen, length_app. cbn [length].
      rewrite (ceil_div_step (length array - i) size) by lia.
      replace (length array - (i + size))%nat
        with (length array - i - size)%nat by lia. lia.
  - exists output. split; [reflexivity|]. split.
    + replace (length array - i)%nat with 0%nat by lia. cbn [Nat.add].
      rewrite Nat.div_small by lia. lia.
    + intros j g Hj Hlast. apply (Hfull j g Hj). now left.
Qed.

Lemma chunks_full_spec {T} (array : list T) (size : nat) :
  (0 < size)%nat ->
  exists groups,
    chunks array size = Some groups /\
    concat groups = array /\
    length groups = ((length array + size - 1) / size)%nat /\
    Forall (fun g => 1 <= length g <= size)%nat groups /\
    (forall j g, groups !! j = Some g -> (S j < length groups)%nat ->
       length g = size).
Proof.
  intros Hsize.
  destruct (HttpFacts.chunks_spec array size Hsize) as (groups & Hc & Hcat & Hall).
  destruct (chunks_loop_shape size array Hsize (length array) 0 [])
    as (groups' & Hc' & Hlen & Hfull).
  - lia.
  - intros j g Hj. rewrite lookup_nil in Hj. discriminate.
  - unfold chunks in Hc. rewrite Hc in Hc'. injection Hc' as <-.
    exists groups. split; [exact Hc|]. split; [exact Hcat|].
    split; [|split; [exact Hall|exact Hfull]].
    rewrite Hlen. cbn [length Nat.add]. now rewrite Nat.sub_0_r.
Qed.

(** X10: for a positive size, chunks returns groups whose concatenation
    is the input; there are ceil(length / size) of them, none is empty or
    longer than size, and every group but the last has exactly size
    elements. *)
Theorem chunks_count_and_fill {T} (array : list T) (size : nat) :
  (0 < size)%nat ->
  exists groups,
    chunks array size = Some groups /\
    concat groups = array /\
    length groups = ((length array + size - 1) / size)%nat /\
    Forall (fun g => 1 <= length g <= size)%nat groups /\
    (forall j g, groups !! j = Some g -> (S j < length groups)%nat ->
       length g = size).
Proof. apply chunks_full_spec. Qed.

Lemma chunks_count_and_fill_witness :
  exists groups, chunks [1; 2; 3; 4; 5]%nat 2 = Some groups /\ length groups = 3%nat.
Proof.
  destruct (chunks_count_and_fill [1; 2; 3; 4; 5]%nat 2 ltac:(lia))
    as (groups & Hc & _ & Hlen & _).
  exists groups. split; [exact Hc|exact Hlen].
Defined.

(** X11: with size 0 and an input that is not empty the loop of chunks
    never ends: no number of iterations produces a result. *)
Theorem chunks_size_zero_never_ends {T} (array : list T) :
  array <> [] ->
  chunks array 0 = None /\
  forall fuel, chunks_loop fuel array 0 0 [] = None.
Proof.
  intros Hne.
  assert (Hloop : forall fuel output, chunks_loop fuel array 0 0 output = None).
  { induction fuel as [|fuel IH]; intros output; cbn [chunks_loop];
      destruct (Nat.ltb_spec 0 (length array)) as [_|Hge];
      try reflexivity; try (destruct array; [congruence|cbn in Hge; lia]).
    apply IH. }
  split; [apply Hloop|]. intros fuel. apply Hloop.
Qed.

Lemma chunks_size_zero_never_ends_witness :
  chunks ["a"%string] 0 = None.
Proof. apply (chunks_size_zero_never_ends ["a"%string]). discriminate. Defined.

End ChunkFacts.

Module PagingFacts.
Import Runtime Spotify.

Lemma cap_not_reached {T} (maxItems : Q) (allItems : list T) :
  (inject_Z (Z.of_nat (length allItems)) < maxItems)%Q ->
  Qle_bool maxItems (inject_Z (Z.of_nat (length allItems))) = false.
Proof.
  intros Hlt. destruct (Qle_bool _ _) eqn:E; [|reflexivity].
  apply Qle_bool_iff in E. exfalso. apply (Qlt_not_le _ _ Hlt E).
Qed.

(** X12: when collectPaged returns, it returns at most floor(maxItems)
    items for a positive maxItems; for a maxItems that is zero or negative it
    returns the empty list without any request. *)
Theorem collectPaged_respects_cap {T} (fuel : nat) (env : Env)
    (decode : Api.Body -> Outcome (Api.Paging T))
    (initialPath accessToken : string) (maxItems : Q)
    (onPage : option (nat -> World -> World)) (w : World)
    (l : list T) (w' : World) :
  collectPaged fuel env decode initialPath accessToken maxItems onPage w
  = (Returned l, w') ->
  ((0 < maxItems)%Q -> (length l <= Z.to_nat (Qfloor maxItems))%nat) /\
  ((maxItems <= 0)%Q -> l = [] /\ w' = w).
Proof.
  intros H. split.
  - intros Hpos.
    destruct (WalkFacts.collectPaged_bounded _ _ _ _ _ _ _ _ _ _ H)
      as [->|[_ Hlen]]; [cbn; lia|exact Hlen].
  - intros Hle. unfold collectPaged in H.
    assert (Hb : Qle_bool maxItems (inject_Z (Z.of_nat 0)) = true)
      by now apply Qle_bool_iff.
    assert (Hs : Js.slice0 (@nil T) maxItems = []).
    { unfold Js.slice0. destruct (_ <? _)%Z; apply firstn_nil. }
    destruct fuel; cbn [collectPaged_loop length] in H;
      destruct (truthy (Some initialPath)); rewrite ?Hb, ?Hs in H;
      injection H as <- <-; split; reflexivity.
Qed.

Lemma collectPaged_respects_cap_witness :
  let env := Samples.scripted [Samples.reply_with 200 None Samples.liked_page] in
  exists l w',
    collectPaged 3 env asTracksPage "/me/tracks?limit=20" "token" (1 # 2) None
                 Samples.start = (Returned l, w') /\
    (length l <= Z.to_nat (Qfloor (1 # 2)))%nat.
Proof.
  cbn zeta. eexists _, _.
  assert (H : collectPaged 3
                (Samples.scripted [Samples.reply_with 200 None Samples.liked_page])
                asTracksPage "/me/tracks?limit=20" "token" (1 # 2) None
                Samples.start = (Returned [], Samples.after_requests 1))
    by (vm_compute; reflexivity).
  split; [exact H|].
  apply (collectPaged_respects_cap _ _ _ _ _ _ _ _ _ _ H). reflexivity.
Defined.

(** X13: when the first page has no next link, or already holds
    maxItems items, collectPaged stops after that one request, returns the
    items of the page cut to maxItems, and has called onPage once with the
    number of items of the page. *)
Theorem collectPaged_final_page {T} (fuel : nat) (env : Env)
    (decode : Api.Body -> Outcome (Api.Paging T))
    (path accessToken : string) (maxItems : Q)
    (onPage : option (nat -> World -> World)) (w : World)
    (response : Response) (w1 : World) (page : Api.Paging T) :
  path <> ""%string -> String.prefix "http" path = false ->
  (0 < maxItems)%Q ->
  fetchWithRetry env (SPOTIFY_API_URL ++ path)%string (bearer accessToken) w
  = (Returned response, w1) ->
  Http.safeJson decode response = Returned page ->
  truthy (Api.next page) = None
  \/ (maxItems <= inject_Z (Z.of_nat (length (Api.items page))))%Q ->
  collectPaged (S fuel) env decode path accessToken maxItems onPage w
  = (Returned (firstn (Z.to_nat (Qfloor maxItems)) (Api.items page)),
     match onPage with
     | Some callback => callback (length (Api.items page)) w1
     | None => w1
     end).
Proof.
  intros Hne Hpre Hpos Hfetch Hjson Hend.
  unfold collectPaged. cbn [collectPaged_loop].
  destruct path as [|c rest]; [congruence|]. cbn [truthy length].
  assert (Hb : Qle_bool maxItems (inject_Z (Z.of_nat 0)) = false)
    by (apply (cap_not_reached maxItems (@nil T)); exact Hpos).
  rewrite Hb, Hpre, Hfetch, Hjson. cbn [app].
  rewrite <- (WalkFacts.slice0_pos (Api.items page) maxItems Hpos).
  destruct Hend as [Hnext|Hfull].
  - destruct fuel; cbn [collectPaged_loop]; now rewrite Hnext.
  - apply Qle_bool_iff in Hfull.
    destruct fuel; cbn [collectPaged_loop];
      destruct (truthy (Api.next page)); now rewrite ?Hfull.
Qed.

Lemma collectPaged_final_page_witness :
  let env := Samples.scripted [Samples.reply_with 200 None Samples.liked_page] in
  exists l,
    collectPaged 1 env asTracksPage "/me/tracks?limit=20" "token" 20 None
                 Samples.start = (Returned l, Samples.after_requests 1) /\
    length l = 1%nat.
Proof.
  cbn zeta. eexists. split.
  - apply (collectPaged_final_page 0
             (Samples.scripted [Samples.reply_with 200 None Samples.liked_page])
             asTracksPage "/me/tracks?limit=20" "token" 20 None Samples.start
             {| status := 200; retryAfter := None; text := ""%string;
                body := Samples.liked_page |}
             (Samples.after_requests 1)
             {| Api.items := [ {| Api.track :=
                                    Some (Samples.track_object "as liked"
                                            (Some Samples.an_album)) |} ];
                Api.next := None |}).
    + discriminate.
    + reflexivity.
    + reflexivity.
    + vm_compute. reflexivity.
    + reflexivity.
    + left. reflexivity.
  - reflexivity.
Defined.

(** X14: when a page request is answered with status 403, the walk
    throws a message that contains HTTP 403, and collectPagedSafe turns a walk
    that throws this message into the empty list: the items of the earlier
    pages are dropped. *)
Theorem permission_error_empties_walk {T} (fuel : nat) (env : Env)
    (decode : Api.Body -> Outcome (Api.Paging T))
    (path accessToken : string) (maxItems : Q)
    (onPage : option (nat -> World -> World)) (allItems : list T) (w : World)
    (response : Response) (w1 : World) :
  path <> ""%string -> String.prefix "http" path = false ->
  (inject_Z (Z.of_nat (length allItems)) < maxItems)%Q ->
  fetchWithRetry env (SPOTIFY_API_URL ++ path)%string (bearer accessToken) w
  = (Returned response, w1) ->
  status response = 403%Z ->
  exists message,
    collectPaged_loop (S fuel) env decode (Some path) accessToken maxItems
                      onPage allItems w = (Threw message, w1) /\
    Js.includes "HTTP 403" message = true /\
    forall fuel0 path0 w0,
      collectPaged fuel0 env decode path0 accessToken maxItems onPage w0
      = (Threw message, w1) ->
      collectPagedSafe fuel0 env decode path0 accessToken maxItems onPage w0
      = (Returned [], w1).
Proof.
  intros Hne Hpre Hcap Hfetch Hs. cbn [collectPaged_loop].
  destruct path as [|c rest]; [congruence|]. cbn [truthy].
  rewrite (cap_not_reached maxItems allItems Hcap), Hpre, Hfetch.
  destruct (HttpFacts.safeJson_403 decode response Hs) as (message & -> & Hinc).
  exists message. split; [reflexivity|]. split; [exact Hinc|].
  intros fuel0 path0 w0 H. unfold collectPagedSafe. now rewrite H, Hinc.
Qed.

Lemma permission_error_empties_walk_witness :
  let env := Samples.scripted [Samples.reply_with 403 None Api.OtherJson] in
  collectPagedSafe 3 env asTracksPage "/me/tracks?limit=20" "token" 20 None
                   Samples.start = (Returned [], Samples.after_requests 1).
Proof.
  cbn zeta.
  destruct (permission_error_empties_walk 2
              (Samples.scripted [Samples.reply_with 403 None Api.OtherJson])
              asTracksPage "/me/tracks?limit=20" "token" 20 None
              (@nil Api.TrackItem) Samples.start
              {| status := 403; retryAfter := None; text := ""%string;
                 body := Api.OtherJson |}
              (Samples.after_requests 1))
    as (message & Hloop & _ & Hsafe).
  - discriminate.
  - reflexivity.
  - reflexivity.
  - vm_compute. reflexivity.
  - reflexivity.
  - apply Hsafe. exact Hloop.
Defined.

End PagingFacts.

Module FeatureMapFacts.
Import Runtime Spotify SpotifyNotions.

Lemma fetchGroups_no_403 env accessToken :
  forall groups byId w message w',
    fetchGroups env accessToken groups byId w = (Threw message, w') ->
    Js.includes "HTTP 403" message = false.
Proof.
  induction groups as [|group rest IH]; intros byId w message w';
    cbn [fetchGroups]; [discriminate|].
  destruct (spotifyFetch _ _ _ _ _) as [[body|m|] w1].
  - apply IH.
  - destruct (Js.includes "HTTP 403" m) eqn:E; [discriminate|].
    now intros [= <- _].
  - discriminate.
Qed.

Lemma fetchGroups_requests env accessToken :
  forall groups byId w,
    (requests (snd (fetchGroups env accessToken groups byId w))
     <= requests w + 2 * length groups)%nat.
Proof.
  induction groups as [|group rest IH]; intros byId w; cbn [fetchGroups length];
    [cbn; lia|].
  unfold spotifyFetch.
  pose proof (RetryFacts.fetchWithRetry_effort env
                (SPOTIFY_API_URL ++ featuresEndpoint env group)%string
                (bearer accessToken) w) as H.
  destruct (fetchWithRetry _ _ _ _) as [[response|m|] w1]; cbn [snd] in H.
  - destruct (Http.safeJson asAudioFeatures response) as [body|m|].
    + specialize (IH (storeFeatures body byId) w1). lia.
    + destruct (Js.includes "HTTP 403" m); cbn; lia.
    + cbn; lia.
  - destruct (Js.includes "HTTP 403" m); cbn; lia.
  - cbn; lia.
Qed.

Lemma afterAttempts_settles lastResponse lastError w :
  fst (afterAttempts lastResponse lastError w) <> Unfinished.
Proof. unfold afterAttempts. now destruct lastError, lastResponse. Qed.

Lemma attempts_settle env url authorization :
  forall remaining attempt lastResponse lastError w,
    fst (attempts remaining attempt env url authorization
                  lastResponse lastError w) <> Unfinished.
Proof.
  induction remaining as [|remaining IH];
    intros attempt lastResponse lastError w; cbn [attempts].
  - apply afterAttempts_settles.
  - destruct (normalizeRateLimitRemainingMs w) as [waitMs w1].
    destruct (fetch _ _ _ _) as [[response|message] w3].
    + destruct (ok response); [discriminate|].
      destruct (negb _ || _); [discriminate|apply IH].
    + destruct (attempt =? MAX_RETRIES)%Z;
        [apply afterAttempts_settles|apply IH].
Qed.

Lemma fetchGroups_settle env accessToken :
  forall groups byId w,
    fst (fetchGroups env accessToken groups byId w) <> Unfinished.
Proof.
  induction groups as [|group rest IH]; intros byId w; cbn [fetchGroups];
    [discriminate|].
  unfold spotifyFetch.
  pose proof (attempts_settle env
                (SPOTIFY_API_URL ++ featuresEndpoint env group)%string
                (bearer accessToken) 2 0%Z None None w) as H.
  unfold fetchWithRetry. change (Z.to_nat (MAX_RETRIES + 1)) with 2%nat.
  destruct (attempts 2 0 _ _ _ _ _ _) as [[response|m|] w1];
    cbn [fst] in H; [| |congruence].
  - unfold Http.safeJson. destruct (negb (ok response)).
    + destruct (Js.includes _ _); discriminate.
    + unfold asAudioFeatures.
      destruct (body response); try (destruct (Js.includes _ _); discriminate).
      apply IH.
  - destruct (Js.includes _ _); discriminate.
Qed.

(** X15: fetchAudioFeatures always settles; an error it throws never
    contains HTTP 403 (those are absorbed); it issues at most two requests for
    each group of 100 identifiers; for no identifiers it returns the empty map
    without any request. *)
Theorem audio_features_effort (env : Env) (ids : list string)
    (accessToken : string) (w : World) :
  let outcome := fst (fetchAudioFeatures env ids accessToken w) in
  let w' := snd (fetchAudioFeatures env ids accessToken w) in
  outcome <> Unfinished /\
  (forall message, outcome = Threw message ->
     Js.includes "HTTP 403" message = false) /\
  (requests w' <= requests w + 2 * ((length ids + 99) / 100))%nat /\
  (ids = [] -> outcome = Returned ∅ /\ w' = w).
Proof.
  cbn zeta. unfold fetchAudioFeatures.
  destruct (ChunkFacts.chunks_full_spec ids 100 ltac:(lia))
    as (groups & Hc & _ & Hlen & _).
  rewrite Hc. replace (length ids + 99)%nat with (length ids + 100 - 1)%nat by lia.
  rewrite <- Hlen.
  split; [apply fetchGroups_settle|]. split; [|split].
  - intros message H.
    destruct (fetchGroups env accessToken groups ∅ w) as [o w1] eqn:E.
    cbn [fst] in H. subst o. eapply fetchGroups_no_403. exact E.
  - apply fetchGroups_requests.
  - intros ->. cbn in Hc. injection Hc as <-. split; reflexivity.
Qed.

Section StoreFeatures.
Local Open Scope string_scope.

(** X16: after the feature objects of a response are stored, an
    identifier maps to the last object of the response that carries it (null
    entries and objects with an empty identifier are skipped); identifiers
    the response does not mention keep their earlier entry. *)
Theorem storeFeatures_last_wins (audio_features : list (option Features.t))
    (byId : gmap string Features.t) (i : string) :
  storeFeatures audio_features byId !! i
  = match lastFeatureWithId i audio_features with
    | Some f => Some f
    | None => byId !! i
    end.
Proof. apply FeatureFetchFacts.storeFeatures_lookup_last. Qed.

End StoreFeatures.

End FeatureMapFacts.

Module AggregationFacts.
Import Runtime Spotify OrderedMapFacts MergeFacts WalkFacts.

(** Every value of the track map is one of the given raw tracks. *)
Lemma setAll_from (ts : list (option Api.SpotifyTrackObject)) :
  forall (m : Js.OrderedMap RawTrack.t) (P : RawTrack.t -> Prop),
    Forall (fun entry => P (snd entry)) m ->
    (forall raw, In raw (omap toRawTrack ts) -> P raw) ->
    Forall (fun entry => P (snd entry)) (fold_left setTrack ts m).
Proof.
  induction ts as [|t ts IH]; intros m P Hm Hts; cbn [fold_left]; [exact Hm|].
  change (omap toRawTrack (t :: ts))
    with (match toRawTrack t with
          | Some r => r :: omap toRawTrack ts
          | None => omap toRawTrack ts
          end) in Hts.
  apply IH.
  - unfold setTrack. destruct (toRawTrack t) as [raw|]; [|exact Hm].
    assert (Hraw : P raw) by (apply Hts; now left).
    clear IH Hts. induction m as [|[k v] m IHm]; cbn.
    + constructor; [exact Hraw|constructor].
    + inversion Hm as [|? ? Hv Hrest]; subst.
      destruct (String.eqb (RawTrack.id raw) k); constructor; auto.
  - intros raw Hin. apply Hts. destruct (toRawTrack t); [now right|exact Hin].
Qed.

Lemma omap_toRawTrack_nonempty ts raw :
  In raw (omap toRawTrack ts) -> RawTrack.id raw <> ""%string.
Proof.
  intros Hin. apply list_elem_of_In, list_elem_of_omap in Hin as (t & _ & Ht).
  apply toRawTrack_id in Ht as (t0 & _ & -> & Hne). exact Hne.
Qed.

Lemma slice0_prefix {T} (l : list T) (q : Q) :
  exists k, Js.slice0 l q = firstn k l.
Proof. unfold Js.slice0. destruct (_ <? _)%Z; eauto. Qed.

Lemma well_keyed_ids (m : Js.OrderedMap RawTrack.t) :
  well_keyed m -> map RawTrack.id (map snd m) = map fst m.
Proof.
  induction 1 as [|[k v] m Hk _ IH]; [reflexivity|].
  cbn in *. now rewrite Hk, IH.
Qed.

(** The tracks written into the map by the three loops of the merge. *)
Lemma merge_sources limit liked savedAlbums recent :
  exists k (m : Js.OrderedMap RawTrack.t),
    mergeTracks limit liked savedAlbums recent = firstn k (map snd m) /\
    List.NoDup (map fst m) /\ well_keyed m /\
    Forall (fun entry =>
              In (snd entry)
                 (rawTracksOf liked ++ rawTracksOf recent
                  ++ albumRawTracks savedAlbums)
              /\ RawTrack.id (snd entry) <> ""%string) m.
Proof.
  unfold mergeTracks.
  rewrite !fold_tracks_of_items, fold_tracks_of_albums.
  set (tl := map Api.track liked). set (tr := map Api.track recent).
  set (ta := concat (map (fun a => default [] (Api.album_tracks a)) savedAlbums)).
  set (m := fold_left setTrack ta (fold_left setTrack tr (fold_left setTrack tl []))).
  destruct (slice0_prefix (Js.map_values m) limit) as (k & Hk).
  exists k, m. split; [exact Hk|]. split; [|split].
  - apply (setAll_NoDup ta), (setAll_NoDup tr), (setAll_NoDup tl). constructor.
  - apply setAll_well_keyed, setAll_well_keyed, setAll_well_keyed. constructor.
  - unfold m. rewrite !rawTracksOf_omap. fold tl tr.
    change (albumRawTracks savedAlbums) with (omap toRawTrack ta).
    set (P := fun raw : RawTrack.t =>
                In raw (omap toRawTrack tl ++ omap toRawTrack tr
                        ++ omap toRawTrack ta)
                /\ RawTrack.id raw <> ""%string).
    apply (setAll_from ta _ P);
      [apply (setAll_from tr _ P); [apply (setAll_from tl _ P)|]|]; unfold P.
    + constructor.
    + intros raw Hin. split; [|eapply omap_toRawTrack_nonempty; exact Hin].
      apply in_or_app. now left.
    + intros raw Hin. split; [|eapply omap_toRawTrack_nonempty; exact Hin].
      apply in_or_app. right. apply in_or_app. now left.
    + intros raw Hin. split; [|eapply omap_toRawTrack_nonempty; exact Hin].
      apply in_or_app. right. apply in_or_app. now right.
Qed.

(** X17: when fetchUserTracks returns, the tracks have pairwise distinct
    identifiers, none of them empty; there are at most floor(limit) of them
    for a limit that is not negative; and every returned track is the
    conversion of an item that one of the three walks returned. *)
Theorem fetchUserTracks_output (fuel : nat) (env : Env)
    (accessToken : string) (options : FetchUserTracksOptions)
    (w : World) (out : list RawTrack.t) (w' : World) :
  fetchUserTracks fuel env accessToken options w = (Returned out, w') ->
  List.NoDup (map RawTrack.id out) /\
  Forall (fun t => RawTrack.id t <> ""%string) out /\
  ((0 <= limit options)%Q ->
   (length out <= Z.to_nat (Qfloor (limit options)))%nat) /\
  exists liked savedAlbums recent w1 w2,
    likedWalk fuel env accessToken options w = (Returned liked, w1) /\
    savedAlbumsWalk fuel env accessToken options w1 = (Returned savedAlbums, w2) /\
    recentWalk fuel env accessToken options w2 = (Returned recent, w') /\
    Forall (fun t => In t (rawTracksOf liked ++ rawTracksOf recent
                           ++ albumRawTracks savedAlbums)) out.
Proof.
  unfold fetchUserTracks. intros H.
  destruct (likedWalk fuel env accessToken options w)
    as [[liked|m|] w1] eqn:El; try discriminate.
  destruct (savedAlbumsWalk fuel env accessToken options w1)
    as [[savedAlbums|m|] w2] eqn:Es; try discriminate.
  destruct (recentWalk fuel env accessToken options w2)
    as [[recent|m|] w3] eqn:Er; try discriminate.
  injection H as <- <-.
  destruct (merge_sources (limit options) liked savedAlbums recent)
    as (k & m & Hout & Hnd & Hwk & Hall).
  split; [|split; [|split]].
  - rewrite Hout, <- firstn_map, well_keyed_ids by exact Hwk.
    now apply NoDup_prefix.
  - rewrite Hout. apply Forall_take, Forall_fmap.
    eapply Forall_impl; [exact Hall|]. cbn. tauto.
  - intros Hpos. unfold mergeTracks, Js.slice0, Js.Qtrunc.
    apply Qle_bool_iff in Hpos as Hb. rewrite Hb.
    assert (0 <= Qfloor (limit options))%Z
      by (change 0%Z with (Qfloor 0); now apply Qfloor_resp_le).
    destruct (Z.ltb_spec (Qfloor (limit options)) 0); [lia|].
    rewrite length_firstn. lia.
  - exists liked, savedAlbums, recent, w1, w2.
    split; [reflexivity|]. split; [first [reflexivity|exact Es]|].
    split; [first [reflexivity|exact Er]|].
    rewrite Hout. apply Forall_take, Forall_fmap.
    eapply Forall_impl; [exact Hall|]. cbn. tauto.
Qed.

Lemma fetchUserTracks_output_witness :
  let env :=
    Samples.scripted
      [Samples.reply_with 200 None Samples.liked_page;
       Samples.reply_with 200 None Samples.albums_page;
       Samples.reply_with 200 None Samples.recent_page] in
  let out := [Samples.raw "in album" ""] in
  fetchUserTracks 3 env "token" (Samples.all_sources 20) Samples.start
  = (Returned out, Samples.after_requests 3) /\
  List.NoDup (map RawTrack.id out) /\
  Forall (fun t => RawTrack.id t <> ""%string) out.
Proof.
  cbn zeta.
  assert (Hrun : fetchUserTracks 3
                   (Samples.scripted
                      [Samples.reply_with 200 None Samples.liked_page;
                       Samples.reply_with 200 None Samples.albums_page;
                       Samples.reply_with 200 None Samples.recent_page])
                   "token" (Samples.all_sources 20) Samples.start
                 = (Returned [Samples.raw "in album" ""],
                    Samples.after_requests 3))
    by (vm_compute; reflexivity).
  split; [exact Hrun|].
  destruct (fetchUserTracks_output _ _ _ _ _ _ _ Hrun) as (Hnd & Hids & _).
  split; [exact Hnd|exact Hids].
Defined.

(** With every source switched off nothing is requested and the
    result is empty. *)
Lemma fetchUserTracks_sources_off (fuel : nat) (env : Env)
    (accessToken : string) (options : FetchUserTracksOptions) (w : World) :
  includeLikedSongs options = Some false ->
  includeSavedAlbums options = Some false ->
  includeRecentlyPlayed options = Some false ->
  fetchUserTracks fuel env accessToken options w = (Returned [], w).
Proof.
  intros Hl Hs Hr. unfold fetchUserTracks, likedWalk, savedAlbumsWalk, recentWalk.
  rewrite Hl, Hs, Hr. change (default true (Some false)) with false.
  cbv beta iota. unfold mergeTracks, Js.slice0, Js.map_values.
  cbn [fold_left map length].
  destruct (_ <? _)%Z; now rewrite firstn_nil.
Qed.

Lemma fetchUserTracks_sources_off_witness :
  fetchUserTracks 3 (Samples.scripted []) "token" MoreSamples.no_sources
                  Samples.start
  = (Returned [], Samples.start).
Proof.
  apply (fetchUserTracks_sources_off 3 (Samples.scripted []) "token"
           MoreSamples.no_sources Samples.start); reflexivity.
Defined.

End AggregationFacts.

Module SynthesisFacts.
Import Embedding Reference.

Section Hash.
Local Open Scope Z_scope.

Lemma toInt32_mod (z : Z) : Js.toInt32 z mod 2 ^ 32 = z mod 2 ^ 32.
Proof.
  unfold Js.toInt32.
  rewrite Zminus_mod, Zmod_mod, <- Zminus_mod.
  replace (z + 2 ^ 31 - 2 ^ 31) with z by lia. reflexivity.
Qed.

Lemma lxor_mod (a b : Z) :
  Z.lxor a b mod 2 ^ 32 = Z.lxor (a mod 2 ^ 32) (b mod 2 ^ 32).
Proof.
  rewrite <- !Z.land_ones by lia.
  apply Z.bits_inj'. intros n Hn.
  rewrite Z.land_spec, !Z.lxor_spec, !Z.land_spec.
  now destruct (Z.testbit a n), (Z.testbit b n), (Z.testbit (Z.ones 32) n).
Qed.

Lemma charCode_range (c : ascii) : 0 <= Js.charCode c < 256.
Proof.
  unfold Js.charCode. pose proof (nat_ascii_bounded c). lia.
Qed.

Lemma xor32_mod (h : Z) (c : ascii) :
  Js.xor32 h (Js.charCode c) mod 2 ^ 32
  = Z.lxor (h mod 2 ^ 32) (Js.charCode c).
Proof.
  unfold Js.xor32. rewrite toInt32_mod, lxor_mod, !toInt32_mod.
  pose proof (charCode_range c).
  now rewrite (Z.mod_small (Js.charCode c)) by lia.
Qed.

Lemma imul_mod (a b : Z) :
  Js.imul a b mod 2 ^ 32 = ((a mod 2 ^ 32) * (b mod 2 ^ 32)) mod 2 ^ 32.
Proof.
  unfold Js.imul. rewrite toInt32_mod, Z.mul_mod, !toInt32_mod by lia.
  reflexivity.
Qed.

Lemma hash_loop_fnv (input : string) :
  forall h, hash_loop input h mod 2 ^ 32 = fnv1a_loop input (h mod 2 ^ 32).
Proof.
  induction input as [|c rest IH]; intros h; cbn [hash_loop fnv1a_loop];
    [reflexivity|].
  rewrite IH, imul_mod, xor32_mod. reflexivity.
Qed.

(** X18: hashString, written with signed 32-bit xor and Math.imul and
    a final unsigned shift, computes the 32-bit FNV-1a hash of the code units
    of its input, a number in [0, 2^32). *)
Theorem hashString_is_fnv1a (input : string) :
  hashString input = fnv1a32 input /\ 0 <= hashString input < 2 ^ 32.
Proof.
  unfold hashString, Js.toUint32, fnv1a32. split.
  - now rewrite hash_loop_fnv.
  - apply Z.mod_pos_bound. lia.
Qed.

End Hash.

Local Open Scope R_scope.

Lemma seededUnit_range (seed : R) : 0 <= seededUnit seed < 1.
Proof.
  unfold seededUnit, Js.floor.
  pose proof (base_Int_part (sin seed * 10000)). lra.
Qed.

Lemma floor_of_scaled_unit (u : R) (n : Z) :
  (0 < n)%Z -> 0 <= u < 1 -> (0 <= Js.floor (u * IZR n) < n)%Z.
Proof.
  intros Hn [H0 H1]. unfold Js.floor.
  pose proof (base_Int_part (u * IZR n)) as [Hlo Hhi].
  assert (0 < IZR n) by now apply IZR_lt.
  assert (u * IZR n < IZR n) by nra.
  assert (0 <= u * IZR n) by nra.
  split.
  - assert (IZR (-1) < IZR (Int_part (u * IZR n))) by (cbn; lra).
    apply lt_IZR in H4. lia.
  - apply lt_IZR. lra.
Qed.

(** X19: the features synthesized by fallbackFeaturesFromTrack keep the
    identifier of the track and lie in their natural ranges: the seven unit
    features in [0, 1), tempo in [70, 180), loudness in [-60, 0), key an
    integer from 0 to 11, mode 0 or 1, and time signature 4. *)
Theorem fallback_features_in_range (track : RawTrack.t) :
  let f := fallbackFeaturesFromTrack track in
  Features.id f = RawTrack.id track /\
  (forall k, 0 <= (if isTempo k then (Features.tempo f - 70) / 110
                   else feature k f) < 1) /\
  70 <= Features.tempo f < 180 /\
  -60 <= Features.loudness f < 0 /\
  (exists key : Z, Features.key f = IZR key /\ (0 <= key < 12)%Z) /\
  (Features.mode f = 0 \/ Features.mode f = 1) /\
  Features.time_signature f = 4.
Proof.
  cbn zeta. unfold fallbackFeaturesFromTrack.
  set (base := hashString (identity_string track)).
  cbn [Features.id Features.tempo Features.loudness Features.key Features.mode
       Features.time_signature].
  split; [reflexivity|]. split.
  { intros k. destruct k; cbn [isTempo feature Features.energy Features.tempo
      Features.valence Features.danceability Features.acousticness
      Features.instrumentalness Features.speechiness Features.liveness];
      try apply seededUnit_range.
    pose proof (seededUnit_range (IZR (base + 191))). split.
    - apply Rmult_le_reg_r with 110; [lra|]. field_simplify. lra.
    - apply Rmult_lt_reg_r with 110; [lra|]. field_simplify. lra. }
  split.
  { pose proof (seededUnit_range (IZR (base + 191))). lra. }
  split.
  { pose proof (seededUnit_range (IZR (base + 53))). lra. }
  split.
  { exists (Js.floor (seededUnit (IZR (base + 37)) * 12)). split; [reflexivity|].
    apply (floor_of_scaled_unit _ 12); [lia|apply seededUnit_range]. }
  split; [|reflexivity].
  destruct (Rlt_dec 0.5 _); [now right|now left].
Qed.

(** X20: simplePositionFromEnergyValence places every track on the
    upper cap of the sphere: x^2 + y^2 <= 0.9216 and z >= 0.28.  When the
    scaled valence and energy lie within radius 0.96, x and y are exactly the
    scaled valence and energy. *)
Theorem simplePosition_upper_cap (f : Features.t) :
  let '(x, y, z) := simplePositionFromEnergyValence f in
  x * x + y * y <= 0.9216 /\ 0.28 <= z /\
  (sqrt (((Features.valence f * 2 - 1) * 0.92) ^ 2
         + ((Features.energy f * 2 - 1) * 0.92) ^ 2) <= 0.96 ->
   x = (Features.valence f * 2 - 1) * 0.92 /\
   y = (Features.energy f * 2 - 1) * 0.92).
Proof.
  unfold simplePositionFromEnergyValence.
  set (x := (Features.valence f * 2 - 1) * 0.92).
  set (y := (Features.energy f * 2 - 1) * 0.92).
  replace (x ^ 2 + y ^ 2) with (x * x + y * y) by ring.
  assert (Hs : 0 <= x * x + y * y) by nra.
  pose proof (sqrt_sqrt _ Hs) as Hr.
  pose proof (sqrt_pos (x * x + y * y)) as Hr0.
  set (radius := sqrt (x * x + y * y)) in *.
  assert (Hz : forall s, s <= 0.9216 -> 0.28 <= sqrt (Rmax 0 (1 - s))).
  { intros s Hle. rewrite Rmax_right by lra.
    replace 0.28 with (sqrt (0.28 * 0.28)) by (apply sqrt_square; lra).
    apply sqrt_le_1_alt. lra. }
  destruct (Rlt_dec 0.96 radius) as [Hgt|Hle].
  - assert (Hsum : x * (0.96 / radius) * (x * (0.96 / radius))
                   + y * (0.96 / radius) * (y * (0.96 / radius)) = 0.9216).
    { transitivity ((x * x + y * y) * (0.96 * 0.96) / (radius * radius)).
      - field. lra.
      - rewrite <- Hr. transitivity (0.96 * 0.96); [field|]; lra. }
    split; [lra|]. split; [|intros; lra].
    replace (1 - x * (0.96 / radius) * (x * (0.96 / radius))
             - y * (0.96 / radius) * (y * (0.96 / radius)))
      with (1 - (x * (0.96 / radius) * (x * (0.96 / radius))
                 + y * (0.96 / radius) * (y * (0.96 / radius)))) by ring.
    apply Hz. lra.
  - assert (radius <= 0.96) by lra.
    assert (x * x + y * y <= 0.9216) by nra.
    split; [lra|]. split; [|intros; split; reflexivity].
    replace (1 - x * x - y * y) with (1 - (x * x + y * y)) by ring.
    now apply Hz.
Qed.

End SynthesisFacts.

Module MatrixFacts.
Import Embedding EmbeddingFacts.
Local Open Scope R_scope.

Lemma insert_ascending_perm x l : Permutation (insert_ascending x l) (x :: l).
Proof.
  induction l as [|y l IH]; cbn; [reflexivity|].
  destruct (Rle_dec x y); [reflexivity|].
  rewrite IH. apply perm_swap.
Qed.

(** X21: the numeric sort used for the percentiles returns a
    permutation of its input in ascending order. *)
Theorem sort_ascending_sorts (values : list R) :
  Permutation (sort_ascending values) values /\
  StronglySorted Rle (sort_ascending values) /\
  length (sort_ascending values) = length values.
Proof.
  split; [|split; [apply sort_ascending_sorted|apply sort_ascending_length]].
  induction values as [|x l IH]; [reflexivity|].
  change (sort_ascending (x :: l)) with (insert_ascending x (sort_ascending l)).
  rewrite insert_ascending_perm. now constructor.
Qed.






Lemma buildFeatureMatrix_rows (features : list Features.t) :
  length (buildFeatureMatrix features) = length features /\
  Forall (fun row => length row = 8%nat) (buildFeatureMatrix features).
Proof.
  unfold buildFeatureMatrix. split; [apply length_imap|].
  apply Forall_lookup_2. intros i row. rewrite list_lookup_imap.
  destruct (features !! i); [|discriminate].
  cbn. intros [= <-]. reflexivity.
Qed.

(** The feature matrix has one row of eight entries for each
    track, and its columns are the standardized columns. *)
Lemma buildFeatureMatrix_shape (features : list Features.t) :
  length (buildFeatureMatrix features) = length features /\
  Forall (fun row => length row = 8%nat) (buildFeatureMatrix features) /\
  (forall i c k row,
     buildFeatureMatrix features !! i = Some row ->
     FEATURE_KEYS !! c = Some k ->
     row !! c = Some (nth i (standardized_column k features) 0)).
Proof.
  unfold buildFeatureMatrix. split; [apply length_imap|]. split.
  - apply Forall_lookup_2. intros i row. rewrite list_lookup_imap.
    destruct (features !! i); [|discriminate].
    cbn. intros [= <-]. reflexivity.
  - intros i c k row Hrow Hk.
    destruct (features !! i) as [f|] eqn:Hf.
    + destruct (buildFeatureMatrix_entry features k c i f Hk Hf)
        as (row' & Hrow' & Hentry).
      unfold buildFeatureMatrix in Hrow'. rewrite Hrow in Hrow'.
      now injection Hrow' as ->.
    + rewrite list_lookup_imap, Hf in Hrow. discriminate.
Qed.

End MatrixFacts.

Module LayoutFacts.
Import Embedding EmbeddingFacts Reference.
Local Open Scope R_scope.

Lemma dot_from_suffix (a : list R) :
  forall (pre : list R) (sum : R),
    dot_from (length pre) sum a (pre ++ a) = sum + sum_of_squares a.
Proof.
  induction a as [|x a IH]; intros pre sum; cbn [dot_from sum_of_squares fold_right];
    [ring|].
  replace (nth (length pre) (pre ++ x :: a) 0) with x
    by (rewrite app_nth2 by lia; now rewrite Nat.sub_diag).
  replace (pre ++ x :: a) with ((pre ++ [x]) ++ a) by now rewrite <- app_assoc.
  replace (S (length pre)) with (length (pre ++ [x]))
    by (rewrite length_app; cbn; lia).
  rewrite IH. fold (sum_of_squares a). ring.
Qed.

Lemma dot_self (v : list R) : dot v v = sum_of_squares v.
Proof.
  unfold dot. pose proof (dot_from_suffix v [] 0) as H. cbn in H.
  rewrite H. ring.
Qed.

Lemma sum_of_squares_nonneg (v : list R) : 0 <= sum_of_squares v.
Proof.
  induction v as [|x v IH]; cbn; [lra|].
  fold (sum_of_squares v). nra.
Qed.

Lemma sum_of_squares_scaled (v : list R) (c : R) :
  c <> 0 ->
  sum_of_squares (map (fun value => value / c) v)
  = sum_of_squares v / (c * c).
Proof.
  intros Hc. induction v as [|x v IH]; cbn; [unfold Rdiv; ring|].
  fold (sum_of_squares (map (fun value => value / c) v)).
  fold (sum_of_squares v). rewrite IH. field. exact Hc.
Qed.

Lemma normalize_facts (vector : list R) :
  length (normalize vector) = length vector /\
  (magnitude vector <> 0 -> magnitude (normalize vector) = 1) /\
  (magnitude vector = 0 ->
   Forall (fun value => value = 0) vector /\
   Forall (fun value => value = 0) (normalize vector)) /\
  normalize (normalize vector) = normalize vector.
Proof.
  assert (Hmag : magnitude vector * magnitude vector = sum_of_squares vector).
  { unfold magnitude. rewrite dot_self. apply sqrt_sqrt, sum_of_squares_nonneg. }
  assert (Hunit : magnitude vector <> 0 ->
                  magnitude (map (fun value => value / magnitude vector) vector) = 1).
  { intros Hne. unfold magnitude at 1.
    rewrite dot_self, sum_of_squares_scaled, <- Hmag by exact Hne.
    replace (magnitude vector * magnitude vector
             / (magnitude vector * magnitude vector)) with 1 by (field; exact Hne).
    apply sqrt_1. }
  assert (Hzero : magnitude vector = 0 -> Forall (fun value => value = 0) vector).
  { intros E. rewrite E, Rmult_0_l in Hmag. clear E Hunit.
    induction vector as [|x v IH]; [constructor|].
    cbn in Hmag. fold (sum_of_squares v) in Hmag.
    pose proof (sum_of_squares_nonneg v).
    constructor; [nra|]. apply IH. nra. }
  unfold normalize.
  destruct (Req_dec_T (magnitude vector) 0) as [E|Hne].
  - split; [apply length_map|]. split; [contradiction|]. split.
    + intros _. split; [now apply Hzero|].
      apply Forall_fmap, Forall_forall. now intros.
    + assert (Hz : magnitude (map (fun _ : R => 0) vector) = 0).
      { unfold magnitude. rewrite dot_self.
        replace (sum_of_squares (map (fun _ : R => 0) vector)) with 0;
          [apply sqrt_0|].
        clear. induction vector as [|x v IH]; cbn; [reflexivity|].
        fold (sum_of_squares (map (fun _ : R => 0) v)). rewrite <- IH. ring. }
      destruct (Req_dec_T _ 0) as [_|Hc]; [|contradiction].
      now rewrite map_map.
  - split; [apply length_map|]. split; [intros _; now apply Hunit|].
    split; [contradiction|].
    rewrite (Hunit Hne).
    destruct (Req_dec_T 1 0) as [Hc|_]; [lra|].
    rewrite map_map. apply map_ext. intros a. field. exact Hne.
Qed.

(** X24: normalize keeps the length of the vector; a vector of
    magnitude other than 0 becomes a unit vector; a vector of magnitude 0 has
    only zero entries and is returned as zeros; normalizing twice is
    normalizing once. *)
Theorem normalize_unit_or_zero (vector : list R) :
  length (normalize vector) = length vector /\
  (magnitude vector <> 0 -> magnitude (normalize vector) = 1) /\
  (magnitude vector = 0 ->
   Forall (fun value => value = 0) vector /\
   Forall (fun value => value = 0) (normalize vector)) /\
  normalize (normalize vector) = normalize vector.
Proof. apply normalize_facts. Qed.

(** The coordinates are those of a point of the unit sphere; the code
    computes them without NaN for an index below the total. *)
Lemma fibonacciSpherePoint_unit (index total : nat) :
  (index < total)%nat ->
  magnitude (vec3_list (fibonacciSpherePoint index total)) = 1.
Proof.
  intros _. unfold fibonacciSpherePoint. cbn [vec3_list].
  apply magnitude_unit3.
  set (phi := acos _). set (theta := PI * _ * _).
  pose proof (sin2_cos2 theta) as Ht. pose proof (sin2_cos2 phi) as Hp.
  unfold Rsqr in *. nra.
Qed.

(** X25: for an index below the total, the point of fibonacciSpherePoint
    has magnitude 1, its height is 1 - (2 index + 1) / total, strictly
    between -1 and 1, and consecutive points are 2 / total apart in
    height. *)
Theorem fibonacci_points_on_sphere (index total : nat) :
  (index < total)%nat ->
  magnitude (vec3_list (fibonacciSpherePoint index total)) = 1 /\
  snd (fibonacciSpherePoint index total)
  = 1 - (2 * INR index + 1) / INR total /\
  -1 < snd (fibonacciSpherePoint index total) < 1 /\
  ((S index < total)%nat ->
   snd (fibonacciSpherePoint (S index) total)
   = snd (fibonacciSpherePoint index total) - 2 / INR total).
Proof.
  intros Hlt.
  split; [now apply fibonacciSpherePoint_unit|].
  assert (Hn : 1 <= INR total).
  { replace 1 with (INR 1) by reflexivity. apply le_INR. lia. }
  assert (Hz : forall i, (i < total)%nat ->
             snd (fibonacciSpherePoint i total) = 1 - (2 * INR i + 1) / INR total
             /\ -1 < 1 - (2 * INR i + 1) / INR total < 1).
  { intros i Hi. unfold fibonacciSpherePoint. cbn [snd].
    rewrite Rmax_left by exact Hn.
    assert (Hi' : INR i + 1 <= INR total).
    { rewrite <- S_INR. apply le_INR. lia. }
    pose proof (pos_INR i).
    assert (Hq : 0 < (2 * INR i + 1) / INR total < 2).
    { split.
      - apply Rdiv_lt_0_compat; lra.
      - apply Rmult_lt_reg_r with (INR total); [lra|].
        unfold Rdiv. rewrite Rmult_assoc, Rinv_l by lra. lra. }
    replace (2 * (INR i + 0.5)) with (2 * INR i + 1) by lra.
    split; [apply cos_acos; lra|lra]. }
  destruct (Hz index Hlt) as [E Hr]. split; [exact E|]. split; [now rewrite E|].
  intros Hs. destruct (Hz (S index) Hs) as [E' _]. rewrite E', E, S_INR.
  field. lra.
Qed.

Lemma fibonacci_points_on_sphere_witness :
  magnitude (vec3_list (fibonacciSpherePoint 0 4)) = 1 /\
  snd (fibonacciSpherePoint 0 4) = 1 - (2 * INR 0 + 1) / INR 4.
Proof.
  destruct (fibonacci_points_on_sphere 0 4) as (Hunit & Hz & _);
    [lia|split; assumption].
Defined.

Lemma normalized3_unit (a b c : R) :
  magnitude [a; b; c] <> 0 ->
  magnitude (vec3_list (vectorToTuple3 (normalize [a; b; c]))) = 1.
Proof.
  intros Hne.
  destruct (normalize_facts [a; b; c]) as (_ & Hunit & _).
  specialize (Hunit Hne). unfold normalize in *.
  destruct (Req_dec_T (magnitude [a; b; c]) 0); [contradiction|].
  exact Hunit.
Qed.

(** X26: for raw positions of three coordinates each,
    ensureVisiblePositions returns one position for each input, and every
    returned position has magnitude 1, whichever of its two branches is
    taken. *)
Theorem ensureVisiblePositions_on_sphere (rawPositions : list (list R)) :
  Forall (fun pos => length pos = 3%nat) rawPositions ->
  length (ensureVisiblePositions rawPositions) = length rawPositions /\
  Forall (fun p => magnitude (vec3_list p) = 1)
         (ensureVisiblePositions rawPositions).
Proof.
  intros H3.
  assert (Hfib : forall T (l : list T),
             length (fibonacci_layout l) = length l /\
             Forall (fun p => magnitude (vec3_list p) = 1) (fibonacci_layout l)).
  { intros T l. unfold fibonacci_layout. split; [apply length_imap|].
    apply Forall_lookup_2. intros i p. rewrite list_lookup_imap.
    destruct (l !! i) eqn:Ei; [|discriminate]. cbn. intros [= <-].
    apply fibonacciSpherePoint_unit. now apply lookup_lt_Some in Ei. }
  unfold ensureVisiblePositions.
  destruct (mostlyCollapsed rawPositions); [apply Hfib|].
  set (normalized := imap _ rawPositions).
  assert (Hlen : length normalized = length rawPositions) by apply length_imap.
  assert (Hunit : Forall (fun p => magnitude (vec3_list p) = 1) normalized).
  { apply Forall_lookup_2. intros i p. unfold normalized.
    rewrite list_lookup_imap.
    destruct (rawPositions !! i) as [pos|] eqn:Ei; [|discriminate].
    cbn [fmap option_fmap option_map]. intros [= <-].
    destruct (Rlt_dec (magnitude pos) 1e-6) as [_|Hge];
      [apply fibonacciSpherePoint_unit; now apply lookup_lt_Some in Ei|].
    pose proof (Forall_lookup_1 _ _ _ _ H3 Ei) as Hl. cbn in Hl.
    destruct pos as [|a [|b [|c [|d pos]]]]; try discriminate.
    apply normalized3_unit. lra. }
  match goal with
  | |- context [fold_left ?f normalized (0, 0, 0)] =>
      destruct (fold_left f normalized (0, 0, 0)) as [[sx sy] sz]
  end.
  destruct (Rlt_dec _ 0.22).
  - destruct (Hfib _ normalized) as [Hl Hu]. split; [lia|exact Hu].
  - split; [exact Hlen|exact Hunit].
Qed.

Lemma ensureVisiblePositions_on_sphere_witness :
  length (ensureVisiblePositions [[0; 0; 0]]) = 1%nat.
Proof.
  apply (ensureVisiblePositions_on_sphere [[0; 0; 0]]).
  repeat constructor.
Defined.

End LayoutFacts.

Module PayloadFacts.
Import Embedding EmbeddingFacts.
Local Open Scope R_scope.

(** X27: createSpherePayload keeps the timestamp, reports the number of
    input tracks and returns one track for each input track in the same
    order, with the descriptive fields copied, the features taken from the
    feature map or else synthesized, and a vector of 8 entries; for input that
    is not empty the semantic axes are the four fixed ones. *)
Theorem payload_mirrors_tracks (now : string) (rawTracks : list RawTrack.t)
    (featureMap : gmap string Features.t) :
  let payload := createSpherePayload now rawTracks featureMap in
  generatedAt payload = now /\
  trackCount payload = length rawTracks /\
  length (tracks payload) = length rawTracks /\
  (rawTracks <> [] ->
   semanticAxes payload
   = {| axis_energy := (0, 1, 0); axis_tempo := (0, 0, 1);
        axis_valence := (1, 0, 0); axis_acousticness := (-1, 0, 0) |}) /\
  (forall i raw,
     rawTracks !! i = Some raw ->
     exists t,
       tracks payload !! i = Some t /\
       SphereTrack.id t = RawTrack.id raw /\
       SphereTrack.name t = RawTrack.name raw /\
       SphereTrack.uri t = RawTrack.uri raw /\
       SphereTrack.artists t = RawTrack.artists raw /\
       SphereTrack.albumName t = RawTrack.albumName raw /\
       SphereTrack.albumArtUrl t = RawTrack.albumArtUrl raw /\
       SphereTrack.externalUrl t = RawTrack.externalUrl raw /\
       SphereTrack.previewUrl t = RawTrack.previewUrl raw /\
       SphereTrack.features t
       = match featureMap !! RawTrack.id raw with
         | Some f => f
         | None => fallbackFeaturesFromTrack raw
         end /\
       length (SphereTrack.vector t) = 8%nat).
Proof.
  cbn zeta. unfold createSpherePayload.
  assert (Hm : merge_features rawTracks featureMap
               = map (fun track =>
                        (track,
                         default (fallbackFeaturesFromTrack track)
                                 (featureMap !! RawTrack.id track)))
                     rawTracks).
  { unfold merge_features. apply filter_True_id. }
  rewrite Hm.
  destruct rawTracks as [|r0 rs] eqn:Er.
  { cbn. repeat split; try congruence. intros i raw H.
    rewrite lookup_nil in H. discriminate. }
  rewrite <- Er in *. clear Hm.
  assert (Hne : map (fun track =>
                       (track,
                        default (fallbackFeaturesFromTrack track)
                                (featureMap !! RawTrack.id track)))
                    rawTracks <> []) by (rewrite Er; discriminate).
  destruct (map _ rawTracks) as [|m0 ms] eqn:Em; [congruence|].
  rewrite <- Em in *.
  cbn [generatedAt trackCount tracks semanticAxes].
  rewrite length_imap, length_map.
  split; [reflexivity|]. split; [reflexivity|]. split; [reflexivity|].
  split; [reflexivity|].
  intros i raw Hi. rewrite list_lookup_imap, list_lookup_fmap, Hi.
  cbn [fmap option_fmap option_map].
  eexists. split; [reflexivity|]. cbn.
  repeat (split; [reflexivity|]).
  { set (features := map snd _).
    destruct (MatrixFacts.buildFeatureMatrix_rows features) as [Hlen Hrows].
    assert (Hi' : (i < length (buildFeatureMatrix features))%nat).
    { rewrite Hlen. unfold features. rewrite !length_map.
      eapply lookup_lt_Some. exact Hi. }
    destruct (lookup_lt_is_Some_2 _ _ Hi') as [row Hrow].
    rewrite nth_lookup, Hrow. cbn.
    eapply (Forall_lookup_1 _ _ _ _ Hrows). exact Hrow. }
Qed.

End PayloadFacts.

Module SyncProgressFacts.
Import SyncProgress.
Local Open Scope Q_scope.

Lemma ratio_bounds (fetched limit : Q) :
  0 <= fetched -> 1 <= limit ->
  0 <= Qmin fetched limit / Qmax limit 1 * 35 <= 35.
Proof.
  intros Hf Hl.
  assert (Hm : Qmax limit 1 == limit) by now apply Q.max_l.
  assert (Hpos : 0 < limit) by (eapply Qlt_le_trans; [|exact Hl]; reflexivity).
  rewrite Hm. split.
  - apply Qmult_le_0_compat; [|discriminate].
    apply Qle_shift_div_l; [exact Hpos|]. rewrite Qmult_0_l.
    apply Q.min_glb; [exact Hf|now apply Qlt_le_weak].
  - apply (Qle_trans _ (1 * 35)); [|discriminate].
    apply Qmult_le_compat_r; [|discriminate].
    apply Qle_shift_div_r; [exact Hpos|]. rewrite Qmult_1_l. apply Q.le_min_r.
Qed.

Lemma round_mono (a b : Q) : a <= b -> (round a <= round b)%Z.
Proof.
  intros H. unfold round. apply Qfloor_resp_le.
  now apply Qplus_le_l.
Qed.

(** X28: for a limit of at least 1 and a count that is not negative, the
    percentage reported while tracks are fetched lies between 20 and 55, does
    not go down when the count goes up, is 20 at count 0 and is 55 once the
    count reaches the limit. *)
Theorem progress_percent_bounds (fetched fetched' limit : Q) :
  0 <= fetched -> fetched <= fetched' -> 1 <= limit ->
  (20 <= progressPercent fetched limit <= 55)%Z /\
  (progressPercent fetched limit <= progressPercent fetched' limit)%Z /\
  (fetched == 0 -> progressPercent fetched limit = 20%Z) /\
  (limit <= fetched -> progressPercent fetched limit = 55%Z).
Proof.
  intros Hf Hff Hl. unfold progressPercent.
  destruct (ratio_bounds fetched limit Hf Hl) as [Hlo Hhi].
  assert (H0 : (0 <= round (Qmin fetched limit / Qmax limit 1 * 35))%Z).
  { change 0%Z with (round 0). now apply round_mono. }
  assert (Hm : Qmax limit 1 == limit) by now apply Q.max_l.
  assert (Hpos : 0 < limit) by (eapply Qlt_le_trans; [|exact Hl]; reflexivity).
  split; [lia|]. split; [|split].
  - apply Z.min_le_compat_l, Zplus_le_compat_l, round_mono.
    apply Qmult_le_compat_r; [|discriminate].
    apply Qmult_le_compat_r.
    + apply Q.min_le_compat_r. exact Hff.
    + apply Qlt_le_weak, Qinv_lt_0_compat. now rewrite Hm.
  - intros E.
    assert (Hq : Qmin fetched limit / Qmax limit 1 * 35 == 0).
    { rewrite E, Q.min_l by now apply Qlt_le_weak.
      unfold Qdiv. now rewrite !Qmult_0_l. }
    unfold round. rewrite (Qfloor_comp _ _ (Qplus_comp _ _ Hq _ _ (Qeq_refl _))).
    reflexivity.
  - intros Hge.
    assert (Hq : Qmin fetched limit / Qmax limit 1 * 35 == 35).
    { rewrite Q.min_r by exact Hge. rewrite Hm.
      field. intros E. rewrite E in Hpos. discriminate. }
    unfold round. rewrite (Qfloor_comp _ _ (Qplus_comp _ _ Hq _ _ (Qeq_refl _))).
    reflexivity.
Qed.

Lemma progress_percent_bounds_witness :
  (20 <= progressPercent 10 20 <= 55)%Z /\ progressPercent 10 20 = 38%Z.
Proof.
  split; [|reflexivity].
  apply (progress_percent_bounds 10 10 20); discriminate.
Defined.

(** X29: the number of seconds the route tells the user to wait is at
    least 1, covers the remaining cool-down, exceeds it by less than a
    second when the cool-down is above one second, and is at most 180 for
    a cool-down of at most 180000 ms. *)
Theorem wait_seconds_cover_cooldown (retryAfterMs : Z) :
  (1 <= waitSec retryAfterMs)%Z /\
  (retryAfterMs <= 1000 * waitSec retryAfterMs)%Z /\
  (1000 < retryAfterMs -> 1000 * (waitSec retryAfterMs - 1) < retryAfterMs)%Z /\
  (retryAfterMs <= 180000 -> waitSec retryAfterMs <= 180)%Z.
Proof.
  unfold waitSec.
  set (c := Qceiling (inject_Z retryAfterMs / 1000)).
  assert (Hup : inject_Z retryAfterMs / 1000 <= inject_Z c) by apply Qle_ceiling.
  assert (Hlo : inject_Z (c - 1) < inject_Z retryAfterMs / 1000)
    by apply Qceiling_lt.
  assert (Ha : inject_Z retryAfterMs / 1000 * inject_Z 1000
               == inject_Z retryAfterMs) by field.
  apply (Qmult_le_compat_r _ _ (inject_Z 1000)) in Hup; [|discriminate].
  apply (Qmult_lt_compat_r _ _ (inject_Z 1000)) in Hlo; [|reflexivity].
  rewrite Ha in Hup, Hlo.
  rewrite <- inject_Z_mult in Hup, Hlo.
  rewrite <- Zle_Qle in Hup. rewrite <- Zlt_Qlt in Hlo.
  repeat split; lia.
Qed.

End SyncProgressFacts.

Module PermissionFacts.
Import Runtime Spotify.

Lemma includes_append (needle a b : string) :
  Js.includes needle b = true -> Js.includes needle (a ++ b) = true.
Proof.
  intros H. induction a as [|c a IH]; [exact H|].
  change (String c a ++ b)%string with (String c (a ++ b)).
  cbn [Js.includes].
  destruct (String.prefix needle (String c (a ++ b))); [reflexivity|exact IH].
Qed.

(** X30: fetchAudioFeatures treats a failed request as a missing
    permission when the text HTTP 403 occurs in the error message, so a
    response of any status that is not ok and whose body quotes HTTP 403 ends
    the fetch with the features collected so far, like a response of status
    403. *)
Theorem permission_test_is_textual (env : Env) (accessToken : string)
    (group : list string) (rest : list (list string))
    (byId : gmap string Features.t) (w : World)
    (response : Response) (w1 : World) :
  fetchWithRetry env (SPOTIFY_API_URL ++ featuresEndpoint env group)%string
                 (bearer accessToken) w
  = (Returned response, w1) ->
  ok response = false ->
  status response = 403%Z \/ Js.includes "HTTP 403" (text response) = true ->
  fetchGroups env accessToken (group :: rest) byId w = (Returned byId, w1).
Proof.
  intros Hfetch Hok Hcase. cbn [fetchGroups]. unfold spotifyFetch.
  rewrite Hfetch. unfold Http.safeJson. rewrite Hok. cbn [negb].
  assert (Hinc : Js.includes "HTTP 403"
                   ("HTTP " ++ pretty (status response) ++ ": " ++ text response)
                 = true).
  { destruct Hcase as [->|Ht]; [reflexivity|].
    apply (includes_append _ "HTTP "), (includes_append _ (pretty _)),
      (includes_append _ ": "). exact Ht. }
  now rewrite Hinc.
Qed.

Lemma permission_test_is_textual_witness :
  exists w1,
    fetchGroups
      (Samples.scripted
         [{| elapsed := 120; reply := inl MoreSamples.server_error_quoting_403 |};
          {| elapsed := 120; reply := inl MoreSamples.server_error_quoting_403 |}])
      "token" [["t1"%string]] ∅ Samples.start
    = (Returned ∅, w1).
Proof.
  eexists.
  eapply (permission_test_is_textual _ "token" ["t1"%string] [] ∅ Samples.start
            MoreSamples.server_error_quoting_403).
  - vm_compute. reflexivity.
  - reflexivity.
  - right. reflexivity.
Defined.

End PermissionFacts.
